(** * Escalation signal detection and correlation engine

    A shallow embedding of
    [devops_incident_suite/agents/predictive_risk.py] and
    [devops_incident_suite/agents/root_cause.py], with the properties of
    its specification, and further properties of the code, stated and
    proved over the embedding.

    Modelling conventions.
    - A Python [str] is a [string] of ASCII characters; the [str] methods
      and the regular expression classes are the ASCII ones, and a
      character above 127 is carried along unchanged.
    - A log entry is a [dict]; the five keys the code reads are the fields
      of [LogRecord], each an [option] ([None] when the key is absent), and
      [e.get(k, d)] is [default d (k e)].
    - A [datetime] without time zone and with whole seconds is the number
      of seconds on the time line, a [Z]; [total_seconds()] of a difference
      is the difference.
    - [datetime.strptime] at the format of the source is a parameter of
      the development ([None] stands for [ValueError]); [strptime_iso] is
      an instance for the zero-padded form.
    - A [dict] that is iterated is an association list in insertion order;
      a [set] of integers is a [gset].
    - A Python exception that can leave a function is a [Raise] of the
      [result] monad. Limits of the interpreter (recursion depth, memory)
      are not modelled.
    - A [float] read off a run of digits is a whole number or [inf]; it is
      carried as that number, with the rounding of [float()] and the text
      of [repr] written out.
    - The run of an agent is its output, an exception, or its one call of
      the collaborator: the data the prompt renders ([json.dumps] of the
      signals, or of the candidates and the first issues) and what the
      agent makes of the reply. The text of the prompt is not modelled.
    - The order in which a [set] of service names is iterated is a
      parameter of the run. *)

From Stdlib Require Import ZArith Ascii String List Sorted Permutation Lia.
From Stdlib Require Import DecimalString.
From stdpp Require Import base decidable option list sorting strings gmap sets.
From Equations Require Import Equations.

#[local] Open Scope Z_scope.
#[local] Set Warnings "-clear-no-such-hyp".

(** * Part I: the embedding *)

(** ** Exceptions *)

Inductive exn : Type :=
| ValueError | IndexError | AttributeError | TypeError
| OverflowError | JSONDecodeError | RecursionError.

Inductive result (A : Type) : Type :=
| Ok (a : A)
| Raise (e : exn).

Arguments Ok {A} a.
Arguments Raise {A} e.

#[global] Instance result_ret : MRet result := λ A a, Ok a.
#[global] Instance result_bind : MBind result := λ A B f m,
  match m with
  | Ok a => f a
  | Raise e => Raise e
  end.

#[global] Instance result_fmap : FMap result := λ A B f m,
  match m with
  | Ok a => Ok (f a)
  | Raise e => Raise e
  end.

#[global] Instance exn_eq_dec : EqDecision exn.
Proof. solve_decision. Defined.

(** ** Python strings *)

Module Str.

Definition code (c : ascii) : N := N_of_ascii c.

(** [str.isspace] on an ASCII character. *)
Definition is_space (c : ascii) : bool :=
  let n := code c in
  ((9 <=? n) && (n <=? 13) || (28 <=? n) && (n <=? 32))%N.

Definition is_digit (c : ascii) : bool :=
  let n := code c in ((48 <=? n) && (n <=? 57))%N.

Definition is_upper (c : ascii) : bool :=
  let n := code c in ((65 <=? n) && (n <=? 90))%N.

Definition is_lower (c : ascii) : bool :=
  let n := code c in ((97 <=? n) && (n <=? 122))%N.

Definition is_word (c : ascii) : bool :=
  is_digit c || is_upper c || is_lower c || (code c =? 95)%N.

Definition lower_char (c : ascii) : ascii :=
  if is_upper c then ascii_of_N (code c + 32) else c.

Definition upper_char (c : ascii) : ascii :=
  if is_lower c then ascii_of_N (code c - 32) else c.

Definition chars (s : string) : list ascii := list_ascii_of_string s.
Definition of_chars (l : list ascii) : string := string_of_list_ascii l.

(** [s.lower()] and [s.upper()]. *)
Definition lower (s : string) : string := of_chars (map lower_char (chars s)).
Definition upper (s : string) : string := of_chars (map upper_char (chars s)).

Fixpoint lstrip_chars (l : list ascii) : list ascii :=
  match l with
  | c :: tl => if is_space c then lstrip_chars tl else l
  | [] => []
  end.

(** [s.strip()]. *)
Definition strip (s : string) : string :=
  of_chars (rev (lstrip_chars (rev (lstrip_chars (chars s))))).

(** [s[:n]]. *)
Definition take (n : nat) (s : string) : string := of_chars (firstn n (chars s)).

(** [s.startswith(p)]. *)
Definition startswith (p s : string) : bool := String.prefix p s.

Fixpoint find_chars (p l : list ascii) : bool :=
  if bool_decide (firstn (length p) l = p) then true
  else match l with
       | [] => false
       | _ :: tl => find_chars p tl
       end.

(** [p in s]. *)
Definition contains (p s : string) : bool := find_chars (chars p) (chars s).

(** [l[-n:]], for [n > 0]. *)
Definition last_n {A} (n : nat) (l : list A) : list A :=
  skipn (length l - n) l.

(** [str(z)] for an integer. *)
Definition of_Z (z : Z) : string := NilZero.string_of_int (Z.to_int z).

Definition digit_val (c : ascii) : Z := Z.of_N (code c) - 48.

Definition digits_val (l : list ascii) : Z :=
  fold_left (λ acc c, 10 * acc + digit_val c) l 0.

Definition hex2 (n : N) : list ascii :=
  let d (k : N) : ascii :=
    if (k <? 10)%N then ascii_of_N (48 + k) else ascii_of_N (87 + k) in
  [d (n / 16)%N; d (n mod 16)%N].

(** [repr(s)]: the quote is the double one only when the text has a
    single quote and no double quote; backslash, the quote and the
    characters that are not printable are escaped. *)
Definition repr_quote (l : list ascii) : ascii :=
  if bool_decide ("'"%char ∈ l) && negb (bool_decide ("034"%char ∈ l))
  then "034"%char else "'"%char.

Definition repr_char (q c : ascii) : list ascii :=
  let n := code c in
  if bool_decide (c = "\"%char) then ["\"; "\"]%char
  else if bool_decide (c = q) then ["\"%char; q]
  else if (n =? 9)%N then ["\"; "t"]%char
  else if (n =? 10)%N then ["\"; "n"]%char
  else if (n =? 13)%N then ["\"; "r"]%char
  else if (n <? 32)%N || (n =? 127)%N then ["\"; "x"]%char ++ hex2 n
  else [c].

Definition repr (s : string) : string :=
  let l := chars s in
  let q := repr_quote l in
  of_chars (q :: concat (map (repr_char q) l) ++ [q]).

(** [repr] of a list of [str], as an f-string renders it. *)
Fixpoint join (sep : string) (l : list string) : string :=
  match l with
  | [] => EmptyString
  | [x] => x
  | x :: tl => x +:+ sep +:+ join sep tl
  end.

Definition repr_list (l : list string) : string :=
  "[" +:+ join ", " (map repr l) +:+ "]".

End Str.

(** [int(s)] for a capture of [\d+]: the value, and [ValueError] past the
    interpreter's limit on the digits of a conversion. *)
Definition int_max_str_digits : nat := 4300.

Definition py_int (s : string) : result Z :=
  let l := Str.chars s in
  if bool_decide (l ≠ []) && forallb Str.is_digit l
  then if (int_max_str_digits <? length l)%nat then Raise ValueError
       else Ok (Str.digits_val l)
  else Raise ValueError.

(** ** Regular expressions

    A backtracking matcher with the priorities of the [re] module: the
    left alternative first, repetitions greedy. The body of a repetition
    in the tables below never matches the empty text. *)

Module Re.

Inductive regex : Type :=
| Eps
| Chr (c : ascii)
| Any
| Digit
| Space
| Word
| Seq (r1 r2 : regex)
| Alt (r1 r2 : regex)
| Star (r : regex)
| Plus (r : regex)
| Opt (r : regex)
| Group (n : nat) (r : regex)
| Bol
| Eol.

(** Where the matcher stands: the position, the text from there on, the
    groups captured so far (the latest first). *)
Record mstate : Type := MState {
  m_pos : nat;
  m_rest : list ascii;
  m_caps : list (nat * list ascii)
}.

Definition newline : ascii := "010"%char.

Definition char_eq (ic : bool) (c x : ascii) : bool :=
  if ic then bool_decide (Str.lower_char c = Str.lower_char x)
  else bool_decide (c = x).

Definition step_char {R} (p : ascii → bool) (st : mstate)
    (k : mstate → option R) : option R :=
  match m_rest st with
  | x :: tl => if p x then k (MState (S (m_pos st)) tl (m_caps st)) else None
  | [] => None
  end.

Definition or_else {R} (a : option R) (b : unit → option R) : option R :=
  match a with
  | Some x => Some x
  | None => b tt
  end.

(** Greedy repetition of [body], then [k]; an iteration has to consume. *)
Definition star_loop {R} (body : mstate → (mstate → option R) → option R)
    (k : mstate → option R) : nat → mstate → option R :=
  fix loop (fuel : nat) (st : mstate) : option R :=
    match fuel with
    | O => k st
    | S f =>
        or_else
          (body st (λ st',
             if (length (m_rest st') <? length (m_rest st))%nat
             then loop f st' else None))
          (λ _, k st)
    end.

Fixpoint rmatch {R} (ic : bool) (r : regex) (st : mstate)
    (k : mstate → option R) : option R :=
  match r with
  | Eps => k st
  | Chr c => step_char (char_eq ic c) st k
  | Any => step_char (λ x, negb (bool_decide (x = newline))) st k
  | Digit => step_char Str.is_digit st k
  | Space => step_char Str.is_space st k
  | Word => step_char Str.is_word st k
  | Seq r1 r2 => rmatch ic r1 st (λ st1, rmatch ic r2 st1 k)
  | Alt r1 r2 => or_else (rmatch ic r1 st k) (λ _, rmatch ic r2 st k)
  | Star r1 => star_loop (rmatch ic r1) k (S (length (m_rest st))) st
  | Plus r1 =>
      rmatch ic r1 st (λ st1,
        star_loop (rmatch ic r1) k (S (length (m_rest st1))) st1)
  | Opt r1 => or_else (rmatch ic r1 st k) (λ _, k st)
  | Group n r1 =>
      rmatch ic r1 st (λ st',
        k (MState (m_pos st') (m_rest st')
             ((n, firstn (m_pos st' - m_pos st) (m_rest st)) :: m_caps st')))
  | Bol => if (m_pos st =? 0)%nat then k st else None
  | Eol =>
      match m_rest st with
      | [] => k st
      | [c] => if bool_decide (c = newline) then k st else None
      | _ => None
      end
  end.

(** A match object: where it starts, where it ends, its groups. *)
Record rmatch_obj : Type := MatchObj {
  mo_start : nat;
  mo_end : nat;
  mo_tail : list ascii;
  mo_caps : list (nat * list ascii)
}.

(** One attempt at position [pos]; with [must_advance] an empty match
    there is refused and the matcher backtracks. *)
Definition match_at (ic : bool) (r : regex) (must_advance : bool)
    (pos : nat) (rest : list ascii) : option rmatch_obj :=
  rmatch ic r (MState pos rest [])
    (λ st, if must_advance && (m_pos st =? pos)%nat then None
           else Some (MatchObj pos (m_pos st) (m_rest st) (m_caps st))).

Fixpoint search_from (ic : bool) (r : regex) (pos : nat) (rest : list ascii)
    : option rmatch_obj :=
  or_else (match_at ic r false pos rest)
    (λ _, match rest with
          | [] => None
          | _ :: tl => search_from ic r (S pos) tl
          end).

(** [re.compile(r, flags).search(s)]. *)
Definition search (ic : bool) (r : regex) (s : string) : option rmatch_obj :=
  search_from ic r 0 (Str.chars s).

(** [m.group(n)]; a group that is not there is an [IndexError]. *)
Definition group (n : nat) (m : rmatch_obj) : result string :=
  match List.find (λ p, (fst p =? n)%nat) (mo_caps m) with
  | Some (_, l) => Ok (Str.of_chars l)
  | None => Raise IndexError
  end.

(** [re.sub(r, "", s)]: every match, left to right, is cut out. After an
    empty match the next one has to advance. *)
Fixpoint sub_loop (ic : bool) (r : regex) (fuel : nat) (must_advance : bool)
    (pos : nat) (rest : list ascii) : list ascii :=
  match fuel with
  | O => rest
  | S f =>
      match match_at ic r must_advance pos rest with
      | Some m =>
          sub_loop ic r f (mo_end m =? pos)%nat (mo_end m) (mo_tail m)
      | None =>
          match rest with
          | [] => []
          | c :: tl => c :: sub_loop ic r f false (S pos) tl
          end
      end
  end.

Definition sub_empty (ic : bool) (r : regex) (s : string) : string :=
  let l := Str.chars s in
  Str.of_chars (sub_loop ic r (2 * length l + 2) false 0 l).

(** The pattern of a literal text. *)
Definition lit (s : string) : regex :=
  fold_right (λ c r, Seq (Chr c) r) Eps (Str.chars s).

Definition seqs (l : list regex) : regex := fold_right Seq Eps l.

Fixpoint alts (l : list regex) : regex :=
  match l with
  | [] => Eps
  | [r] => r
  | r :: tl => Alt r (alts tl)
  end.

End Re.

(** ** Pattern tables *)

(** [KNOWN_PATTERNS], all compiled with [re.IGNORECASE]:
    [(failed.*(?:auth|login|credentials)|brute\s*force|locked|failed\s*attempts)],
    [disk.*(\d+)%], [(connection\s*pool|pool\s*utilization)] and
    [(circuit\s*breaker|retries?\s*exhausted)]. *)
Definition brute_force_re : Re.regex :=
  Re.Group 1 (Re.alts [
    Re.seqs [Re.lit "failed"; Re.Star Re.Any;
             Re.alts [Re.lit "auth"; Re.lit "login"; Re.lit "credentials"]];
    Re.seqs [Re.lit "brute"; Re.Star Re.Space; Re.lit "force"];
    Re.lit "locked";
    Re.seqs [Re.lit "failed"; Re.Star Re.Space; Re.lit "attempts"]]).

Definition disk_critical_re : Re.regex :=
  Re.seqs [Re.lit "disk"; Re.Star Re.Any; Re.Group 1 (Re.Plus Re.Digit); Re.Chr "%"].

Definition pool_exhaustion_re : Re.regex :=
  Re.Group 1 (Re.alts [
    Re.seqs [Re.lit "connection"; Re.Star Re.Space; Re.lit "pool"];
    Re.seqs [Re.lit "pool"; Re.Star Re.Space; Re.lit "utilization"]]).

Definition circuit_breaker_re : Re.regex :=
  Re.Group 1 (Re.alts [
    Re.seqs [Re.lit "circuit"; Re.Star Re.Space; Re.lit "breaker"];
    Re.seqs [Re.lit "retrie"; Re.Opt (Re.Chr "s"); Re.Star Re.Space; Re.lit "exhausted"]]).

(** [(\d+)/(\d+)], searched without flags in the pool check. *)
Definition ratio_re : Re.regex :=
  Re.seqs [Re.Group 1 (Re.Plus Re.Digit); Re.Chr "/"; Re.Group 2 (Re.Plus Re.Digit)].

(** The fences of a reply: [^```\w*\n?] and [\n?```$]. *)
Definition fence_open_re : Re.regex :=
  Re.seqs [Re.Bol; Re.lit "```"; Re.Star Re.Word; Re.Opt (Re.Chr Re.newline)].

Definition fence_close_re : Re.regex :=
  Re.seqs [Re.Opt (Re.Chr Re.newline); Re.lit "```"; Re.Eol].

(** ** Log records and signals *)

Record LogRecord : Type := mkRecord {
  timestamp : option string;
  service : option string;
  level : option string;
  message : option string;
  line_number : option Z
}.

#[global] Instance LogRecord_eq_dec : EqDecision LogRecord.
Proof. solve_decision. Defined.

(** [e.get("timestamp", "")] and its siblings. *)
Definition get_timestamp (e : LogRecord) : string := default EmptyString (timestamp e).
Definition get_message (e : LogRecord) : string := default EmptyString (message e).
Definition get_level (e : LogRecord) : string := default EmptyString (level e).
Definition get_line_number (e : LogRecord) : Z := default 0 (line_number e).

(** A signal: the keys [service], [signal_type], [pattern], [evidence]
    and [entry_count] of the dictionaries the detectors append. *)
Record Signal : Type := mkSignal {
  sig_service : string;
  signal_type : string;
  pattern : option string;
  evidence : list string;
  entry_count : option nat
}.

#[global] Instance Signal_eq_dec : EqDecision Signal.
Proof. solve_decision. Defined.

(** [entries_by_service]: the services in the order of their first
    record, each with its records in the order of the batch. *)
Definition by_service : Type := list (string * list LogRecord).

(** [try: body  except (ValueError, IndexError): pass], where [skip] is
    what the loop goes on with. *)
Definition try_pass {A} (body : result A) (skip : A) : result A :=
  match body with
  | Ok a => Ok a
  | Raise ValueError | Raise IndexError => Ok skip
  | Raise e => Raise e
  end.

(** ** KnownPatternDetector *)

(** The test [(current / total) > 0.75] for [total > 0]. The quotient of
    two integers is the double nearest to the exact quotient (ties to
    even), and [OverflowError] when that is past the largest double. The
    doubles around 0.75 are [2^-53] apart and 0.75 has an even mantissa,
    so the rounded quotient is above 0.75 exactly when the exact one is
    above [0.75 + 2^-54]. *)
Definition truediv_gt_075 (current total : Z) : result bool :=
  if (2 ^ 1024 - 2 ^ 970) * total <=? current then Raise OverflowError
  else Ok ((3 * 2 ^ 52 + 1) * total <? 2 ^ 54 * current).

Definition known_signal (svc pat : string) (ev : list string) : Signal :=
  mkSignal svc "known_pattern" (Some pat) ev None.

(** Brute force: three or more records match the signature. *)
Definition auth_failures (entries : list LogRecord) : list LogRecord :=
  List.filter (λ e, bool_decide (is_Some (Re.search true brute_force_re (get_message e))))
    entries.

Definition brute_force_check (svc : string) (entries : list LogRecord) : list Signal :=
  let af := auth_failures entries in
  if (3 <=? length af)%nat
  then [known_signal svc "brute_force"
          [Str.of_Z (Z.of_nat (length af)) +:+ " auth failure entries detected";
           "Sample: " +:+ Str.take 80 (get_message (List.hd (mkRecord None None None None None) af))]]
  else [].

(** The body of the [try] of the disk check on one record: the signal to
    append (and then [break]), or nothing. *)
Definition disk_try (svc : string) (e : LogRecord) (m : Re.rmatch_obj)
    : result (option Signal) :=
  g ← Re.group 1 m;
  pct ← py_int g;
  if 80 <? pct
  then Ok (Some (known_signal svc "disk_critical"
                   ["Disk usage at " +:+ Str.of_Z pct +:+ "% (threshold: 80%)";
                    "Entry: " +:+ Str.take 80 (get_message e)]))
  else Ok None.

Definition disk_record (svc : string) (e : LogRecord) : result (option Signal) :=
  match Re.search true disk_critical_re (get_message e) with
  | Some m => try_pass (disk_try svc e m) None
  | None => Ok None
  end.

(** The body of the [try] of the pool check on one record. *)
Definition pool_try (svc : string) (e : LogRecord) (m : Re.rmatch_obj)
    : result (option Signal) :=
  g1 ← Re.group 1 m;
  current ← py_int g1;
  g2 ← Re.group 2 m;
  total ← py_int g2;
  above ← (if 0 <? total then truediv_gt_075 current total else Ok false);
  if above : bool
  then Ok (Some (known_signal svc "pool_exhaustion"
                   ["Pool at " +:+ Str.of_Z current +:+ "/" +:+ Str.of_Z total
                      +:+ " (" +:+ Str.of_Z (100 * current / total) +:+ "%)";
                    "Entry: " +:+ Str.take 80 (get_message e)]))
  else Ok None.

Definition pool_record (svc : string) (e : LogRecord) : result (option Signal) :=
  match Re.search true pool_exhaustion_re (get_message e) with
  | Some _ =>
      match Re.search false ratio_re (get_message e) with
      | Some m => try_pass (pool_try svc e m) None
      | None => Ok None
      end
  | None => Ok None
  end.

Definition circuit_record (svc : string) (e : LogRecord) : result (option Signal) :=
  match Re.search true circuit_breaker_re (get_message e) with
  | Some _ =>
      Ok (Some (known_signal svc "circuit_breaker"
                  ["Circuit breaker or retry exhaustion detected";
                   "Entry: " +:+ Str.take 80 (get_message e)]))
  | None => Ok None
  end.

(** [for e in entries: ... signals.append(...); break]: the records in
    order, up to the first one that yields a signal. *)
Fixpoint scan_first (check : LogRecord → result (option Signal))
    (entries : list LogRecord) : result (list Signal) :=
  match entries with
  | [] => Ok []
  | e :: tl =>
      r ← check e;
      match r with
      | Some s => Ok [s]
      | None => scan_first check tl
      end
  end.

Definition known_patterns_of (svc : string) (entries : list LogRecord)
    : result (list Signal) :=
  d ← scan_first (disk_record svc) entries;
  p ← scan_first (pool_record svc) entries;
  c ← scan_first (circuit_record svc) entries;
  Ok (brute_force_check svc entries ++ d ++ p ++ c).

Fixpoint _detect_known_patterns (entries_by_service : by_service)
    : result (list Signal) :=
  match entries_by_service with
  | [] => Ok []
  | (svc, entries) :: tl =>
      here ← known_patterns_of svc entries;
      rest ← _detect_known_patterns tl;
      Ok (here ++ rest)
  end.

(** ** Stable sort by key, as [list.sort(key=...)] *)

Section StableSort.
Context {A : Type} (key : A → Z).

Fixpoint insert_by (x : A) (l : list A) : list A :=
  match l with
  | [] => [x]
  | y :: tl => if key x <=? key y then x :: l else y :: insert_by x tl
  end.

Fixpoint sort_by (l : list A) : list A :=
  match l with
  | [] => []
  | x :: tl => insert_by x (sort_by tl)
  end.

Definition key_le (x y : A) : Prop := key x <= key y.

End StableSort.

(** ** Time parsing, the time-window grouper, the frequency detector *)

(** [TIME_WINDOW]. *)
Definition TIME_WINDOW : Z := 60.

(** State of the loop of [_build_time_groups]:
    [groups], [current_group], [group_start]. *)
Record tg_state : Type := TgState {
  tg_groups : list (list LogRecord);
  tg_current : list LogRecord;
  tg_start : Z
}.

(** [if len(current_group) >= 2: groups.append(current_group)]. *)
Definition close_group (groups : list (list LogRecord)) (cur : list LogRecord)
  : list (list LogRecord) :=
  if (2 <=? length cur)%nat then groups ++ [cur] else groups.

Definition tg_step (window : Z) (st : tg_state) (x : Z * LogRecord) : tg_state :=
  if fst x - tg_start st <=? window
  then TgState (tg_groups st) (tg_current st ++ [snd x]) (tg_start st)
  else TgState (close_group (tg_groups st) (tg_current st)) [snd x] (fst x).

Definition tg_loop (window : Z) (st : tg_state) (l : list (Z * LogRecord)) : tg_state :=
  fold_left (tg_step window) l st.

(** [l[i]] for an index in range. *)
Definition at_index (l : list Z) (i : nat) : Z := nth i l 0.

(** [gaps]: [timestamps[i][0] - timestamps[i - 1][0]] for [i] in
    [range(1, len(timestamps))]. *)
Definition gaps_of (instants : list Z) : list Z :=
  map (λ i, at_index instants i - at_index instants (i - 1))
    (seq 1 (length instants - 1)).

(** [sum(1 for i in range(1, len(gaps)) if gaps[i] < gaps[i - 1])]. *)
Definition decreasing_of (gaps : list Z) : nat :=
  length (List.filter (λ i, at_index gaps i <? at_index gaps (i - 1))
            (seq 1 (length gaps - 1))).

(** [decreasing >= len(gaps) // 2 and decreasing >= 1]. *)
Definition accelerating (gaps : list Z) : bool :=
  let decreasing := decreasing_of gaps in
  ((length gaps / 2 <=? decreasing) && (1 <=? decreasing))%nat.

Section Time.

(** [datetime.strptime(s, "%Y-%m-%d %H:%M:%S")], in seconds. *)
Variable strptime : string → option Z.

(** [_parse_timestamp]: the stripped text parsed, [None] on failure. *)
Definition _parse_timestamp (ts : string) : option Z := strptime (Str.strip ts).

(** The list [timed] (root_cause.py) or [timestamps] (predictive_risk.py)
    before it is sorted: the records with a parsable timestamp, each with
    its instant. *)
Fixpoint timed_of (entries : list LogRecord) : list (Z * LogRecord) :=
  match entries with
  | [] => []
  | e :: tl =>
      match _parse_timestamp (get_timestamp e) with
      | Some dt => (dt, e) :: timed_of tl
      | None => timed_of tl
      end
  end.

Definition sorted_timed (entries : list LogRecord) : list (Z * LogRecord) :=
  sort_by fst (timed_of entries).

Definition _build_time_groups (entries : list LogRecord) (window : Z)
  : list (list LogRecord) :=
  match sorted_timed entries with
  | [] => []
  | x0 :: rest =>
      let st := tg_loop window (TgState [] [snd x0] (fst x0)) rest in
      close_group (tg_groups st) (tg_current st)
  end.

(** One turn of the loop of [_detect_frequency_acceleration]: the signal
    of a service, if any. *)
Definition frequency_signal (svc : string) (entries : list LogRecord) : option Signal :=
  let timestamps := sorted_timed entries in
  if (length timestamps <? 3)%nat then None
  else
    let gaps := gaps_of (map fst timestamps) in
    if (2 <=? length gaps)%nat && accelerating gaps
    then Some (mkSignal svc "frequency_acceleration" None
                 ["Event gaps: " +:+ Str.repr_list (map (λ g, Str.of_Z g +:+ "s") gaps);
                  "Latest entries: " +:+
                    Str.repr_list (map (λ x, Str.take 80 (get_message (snd x)))
                                     (Str.last_n 3 timestamps))]
                 (Some (length timestamps)))
    else None.

Definition _detect_frequency_acceleration (entries_by_service : by_service)
  : list Signal :=
  omap (λ kv, frequency_signal (fst kv) (snd kv)) entries_by_service.

End Time.

(** ** The actionable-level filter *)

Definition actionable_levels : list string := ["CRITICAL"; "ERROR"; "WARN"; "WARNING"].

(** [e.get("level", "") in actionable_levels]. *)
Definition is_actionable (e : LogRecord) : bool :=
  bool_decide (get_level e ∈ actionable_levels).

(** [entries_by_service[svc].append(e)] on a [defaultdict(list)]. *)
Fixpoint dict_append (svc : string) (e : LogRecord) (d : by_service) : by_service :=
  match d with
  | [] => [(svc, [e])]
  | kv :: tl =>
      if bool_decide (fst kv = svc) then (fst kv, snd kv ++ [e]) :: tl
      else kv :: dict_append svc e tl
  end.

(** The key a record goes under: [e.get("service", "unknown")]. *)
Definition service_key (e : LogRecord) : string := default "unknown" (service e).

(** The grouping loop of [run] in predictive_risk.py. *)
Definition group_step (d : by_service) (e : LogRecord) : by_service :=
  if is_actionable e then dict_append (service_key e) e d else d.

Definition group_by_service (log_entries : list LogRecord) : by_service :=
  fold_left group_step log_entries [].

(** ** CrossReferenceClusterer *)

(** [cross_ref_clusters], a [defaultdict(set)]: the keys in the order of
    their first use, each with its set of record indices. *)
Definition index_dict : Type := list (string * gset nat).

(** [cross_ref_clusters[k].add(i)]. *)
Fixpoint dict_add (k : string) (i : nat) (d : index_dict) : index_dict :=
  match d with
  | [] => [(k, {[ i ]})]
  | kv :: tl =>
      if bool_decide (fst kv = k) then (fst kv, snd kv ∪ {[ i ]}) :: tl
      else kv :: dict_add k i tl
  end.

(** [e.get("service", "").lower()]. *)
Definition lower_service (e : LogRecord) : string :=
  Str.lower (default EmptyString (service e)).

(** The inner loop, over the services in the order the set yields them. *)
Definition xref_step (i : nat) (entry : LogRecord) (d : index_dict) (svc : string)
  : index_dict :=
  let msg := Str.lower (get_message entry) in
  let entry_service := lower_service entry in
  if negb (bool_decide (Str.lower svc = entry_service)) && Str.contains (Str.lower svc) msg
  then dict_add entry_service i (dict_add (Str.lower svc) i d)
  else d.

(** The outer loop, over [enumerate(entries)] from index [i]. *)
Fixpoint xref_scan (all_services : list string) (i : nat) (entries : list LogRecord)
    (d : index_dict) : index_dict :=
  match entries with
  | [] => d
  | entry :: tl =>
      xref_scan all_services (S i) tl (fold_left (xref_step i entry) all_services d)
  end.

(** [sorted(s)] for a set of indices. *)
Definition sorted_indices (s : gset nat) : list nat :=
  sort_by Z.of_nat (elements s).

(** State of the cluster-building loop: [clusters] and [seen]. *)
Definition xref_build_step (entries : list LogRecord)
    (st : list (list LogRecord) * gset nat) (indices : gset nat)
  : list (list LogRecord) * gset nat :=
  let cluster_indices := indices ∖ snd st in
  if (2 <=? size cluster_indices)%nat
  then
    let cluster := omap (λ i, entries !! i) (sorted_indices cluster_indices) in
    if (2 <=? length cluster)%nat
    then (fst st ++ [cluster], snd st ∪ cluster_indices)
    else st
  else st.

(** [_find_cross_references]; [all_services] is the set as a list, in the
    order its iteration yields. *)
Definition _find_cross_references (entries : list LogRecord)
    (all_services : list string) : list (list LogRecord) :=
  let cross_ref_clusters := xref_scan all_services 0 entries [] in
  fst (fold_left (xref_build_step entries) (map snd cross_ref_clusters) ([], ∅)).

(** ** CandidateMerger *)

(** [{e.get("line_number", 0) for e in cluster}]. *)
Definition line_set (cluster : list LogRecord) : gset Z :=
  list_to_set (map get_line_number cluster).

(** [d[k] = e] on a [dict]: a key that is there keeps its place and takes
    the new value, a new key goes last. *)
Fixpoint dict_set (k : Z) (e : LogRecord) (d : list (Z * LogRecord))
  : list (Z * LogRecord) :=
  match d with
  | [] => [(k, e)]
  | kv :: tl =>
      if bool_decide (fst kv = k) then (k, e) :: tl
      else kv :: dict_set k e tl
  end.

(** [{e.get("line_number", 0): e for e in l}]. *)
Definition dict_of_entries (l : list LogRecord) : list (Z * LogRecord) :=
  fold_left (λ d e, dict_set (get_line_number e) e d) l [].

(** State of [_merge_candidates]: [candidates] and [seen_sets]. *)
Record mc_state : Type := McState {
  candidates : list (list LogRecord);
  seen_sets : list (gset Z)
}.

(** [if s not in seen_sets: candidates.append(c); seen_sets.append(s)]. *)
Definition mc_add (c : list LogRecord) (s : gset Z) (st : mc_state) : mc_state :=
  if bool_decide (s ∈ seen_sets st) then st
  else McState (candidates st ++ [c]) (seen_sets st ++ [s]).

(** The body of the inner loop of the overlap merge. *)
Definition overlap_step (cluster : list LogRecord) (st : mc_state)
    (tg : list LogRecord) : mc_state :=
  let line_nums := line_set cluster in
  let tg_lines := line_set tg in
  let overlap := line_nums ∩ tg_lines in
  if (2 <=? size overlap)%nat
  then
    let merged := dict_of_entries (cluster ++ tg) in
    mc_add (map snd merged) (list_to_set (map fst merged)) st
  else st.

Definition overlap_tier (time_groups cross_refs : list (list LogRecord))
    (st : mc_state) : mc_state :=
  fold_left (λ st cluster, fold_left (overlap_step cluster) time_groups st)
    cross_refs st.

(** The body of the second and of the third loop. *)
Definition as_is_tier (clusters : list (list LogRecord)) (st : mc_state) : mc_state :=
  fold_left (λ st c, mc_add c (line_set c) st) clusters st.

(** [if not candidates: ...]. *)
Definition if_no_candidates (f : mc_state → mc_state) (st : mc_state) : mc_state :=
  match candidates st with
  | [] => f st
  | _ :: _ => st
  end.

Definition _merge_candidates (time_groups cross_refs : list (list LogRecord))
  : list (list LogRecord) :=
  match time_groups, cross_refs with
  | [], [] => []
  | _, _ =>
      let st1 := overlap_tier time_groups cross_refs (McState [] []) in
      let st2 := if_no_candidates (as_is_tier cross_refs) st1 in
      let st3 := if_no_candidates (as_is_tier time_groups) st2 in
      candidates st3
  end.

(** [run] of root_cause.py up to the candidates it hands over: the
    actionable records, and with two of them or more the merge of their
    time groups and cross-references. [all_services] is the set of the
    service names of the batch as a list, in the order its iteration
    yields. *)
Definition causal_candidates (strptime : string → option Z)
    (all_services : list string) (log_entries : list LogRecord)
  : list (list LogRecord) :=
  let actionable := List.filter is_actionable log_entries in
  if (length actionable <? 2)%nat then []
  else _merge_candidates (_build_time_groups strptime actionable TIME_WINDOW)
         (_find_cross_references actionable all_services).

(** ** JSON values and [json.loads] *)

(** What [json.loads] returns: [None], a [bool], an [int], a [float] (kept
    as the text of its literal), a [str], a [list] or a [dict] in the
    order of its keys. *)
#[local] Set Warnings "-register-all".

Inductive json : Type :=
| JNull
| JBool (b : bool)
| JInt (z : Z)
| JFloat (literal : string)
| JStr (s : string)
| JList (l : list json)
| JDict (d : list (string * json)).

Module Json.

Definition is_ws (c : ascii) : bool :=
  let n := Str.code c in ((n =? 32) || (n =? 9) || (n =? 10) || (n =? 13))%N.

Fixpoint skip_ws (l : list ascii) : list ascii :=
  match l with
  | c :: tl => if is_ws c then skip_ws tl else l
  | [] => []
  end.

(** [d[k] = v] while the pairs of an object are collected. *)
Fixpoint dict_put (k : string) (v : json) (d : list (string * json))
  : list (string * json) :=
  match d with
  | [] => [(k, v)]
  | kv :: tl =>
      if bool_decide (fst kv = k) then (k, v) :: tl
      else kv :: dict_put k v tl
  end.

Definition hex_val (c : ascii) : option N :=
  let n := Str.code c in
  if Str.is_digit c then Some (n - 48)%N
  else if ((97 <=? n) && (n <=? 102))%N then Some (n - 87)%N
  else if ((65 <=? n) && (n <=? 70))%N then Some (n - 55)%N
  else None.

(** The four hexadecimal digits of a [\u] escape. *)
Definition hex4 (l : list ascii) : option (N * list ascii) :=
  match l with
  | a :: b :: c :: d :: tl =>
      a ← hex_val a; b ← hex_val b; c ← hex_val c; d ← hex_val d;
      Some (((a * 16 + b) * 16 + c) * 16 + d, tl)%N
  | _ => None
  end.

(** A code point as the characters that carry it (itself below 128, its
    UTF-8 bytes above). *)
Definition chr (n : N) : list ascii :=
  let b (k : N) := ascii_of_N k in
  if (n <? 128)%N then [b n]
  else if (n <? 2048)%N then [b (192 + n / 64); b (128 + n mod 64)]%N
  else if (n <? 65536)%N
  then [b (224 + n / 4096); b (128 + (n / 64) mod 64); b (128 + n mod 64)]%N
  else [b (240 + n / 262144); b (128 + (n / 4096) mod 64);
        b (128 + (n / 64) mod 64); b (128 + n mod 64)]%N.

Definition simple_escape (c : ascii) : option ascii :=
  if bool_decide (c = "034"%char) then Some "034"%char
  else if bool_decide (c = "\"%char) then Some "\"%char
  else if bool_decide (c = "/"%char) then Some "/"%char
  else if bool_decide (c = "b"%char) then Some "008"%char
  else if bool_decide (c = "f"%char) then Some "012"%char
  else if bool_decide (c = "n"%char) then Some "010"%char
  else if bool_decide (c = "r"%char) then Some "013"%char
  else if bool_decide (c = "t"%char) then Some "009"%char
  else None.

(** A [\u] escape, with the low half of a surrogate pair when one follows. *)
Definition unicode_escape (l : list ascii) : option (list ascii * list ascii) :=
  '(n, tl) ← hex4 l;
  if ((55296 <=? n) && (n <=? 56319))%N
  then match tl with
       | "\"%char :: "u"%char :: tl2 =>
           match hex4 tl2 with
           | Some (n2, tl3) =>
               if ((56320 <=? n2) && (n2 <=? 57343))%N
               then Some (chr (65536 + (n - 55296) * 1024 + (n2 - 56320))%N, tl3)
               else Some (chr n, tl)
           | None => None
           end
       | _ => Some (chr n, tl)
       end
  else Some (chr n, tl).

(** The text of a string from after its opening quote. *)
Fixpoint scan_string (fuel : nat) (l acc : list ascii) : result (string * list ascii) :=
  match l, fuel with
  | [], _ => Raise JSONDecodeError
  | _, O => Raise RecursionError
  | c :: tl, S f =>
      if bool_decide (c = "034"%char) then Ok (Str.of_chars (rev acc), tl)
      else if bool_decide (c = "\"%char)
      then match tl with
           | [] => Raise JSONDecodeError
           | e :: tl2 =>
               if bool_decide (e = "u"%char)
               then match unicode_escape tl2 with
                    | Some (cs, tl3) => scan_string f tl3 (rev cs ++ acc)
                    | None => Raise JSONDecodeError
                    end
               else match simple_escape e with
                    | Some x => scan_string f tl2 (x :: acc)
                    | None => Raise JSONDecodeError
                    end
           end
      else if (Str.code c <? 32)%N then Raise JSONDecodeError
      else scan_string f tl (c :: acc)
  end.

Fixpoint span_digits (l : list ascii) : list ascii * list ascii :=
  match l with
  | c :: tl =>
      if Str.is_digit c then let '(d, r) := span_digits tl in (c :: d, r)
      else ([], l)
  | [] => ([], [])
  end.

(** The integer part [0|[1-9]\d*]. *)
Definition int_part (l : list ascii) : option (list ascii * list ascii) :=
  match l with
  | c :: tl =>
      if bool_decide (c = "0"%char) then Some ([c], tl)
      else if Str.is_digit c then let '(d, r) := span_digits tl in Some (c :: d, r)
      else None
  | [] => None
  end.

(** The optional [\.\d+]. *)
Definition frac_part (l : list ascii) : list ascii * list ascii :=
  match l with
  | c :: tl =>
      if bool_decide (c = "."%char)
      then match span_digits tl with
           | ([], _) => ([], l)
           | (d, r) => (c :: d, r)
           end
      else ([], l)
  | [] => ([], [])
  end.

(** The optional [[eE][-+]?\d+]. *)
Definition exp_part (l : list ascii) : list ascii * list ascii :=
  match l with
  | c :: tl =>
      if bool_decide (c = "e"%char) || bool_decide (c = "E"%char)
      then
        let '(sign, tl2) :=
          match tl with
          | s :: tl2 =>
              if bool_decide (s = "-"%char) || bool_decide (s = "+"%char)
              then ([s], tl2) else ([], tl)
          | [] => ([], tl)
          end in
        match span_digits tl2 with
        | ([], _) => ([], l)
        | (d, r) => (c :: sign ++ d, r)
        end
      else ([], l)
  | [] => ([], [])
  end.

(** A number at the head of [l]: [None] when there is none; an [int]
    goes through [int()], a literal with a fraction or an exponent is a
    [float]. *)
Definition scan_number (l : list ascii) : option (result json * list ascii) :=
  let '(sign, l1) :=
    match l with
    | c :: tl => if bool_decide (c = "-"%char) then ([c], tl) else ([], l)
    | [] => ([], l)
    end in
  '(digits, l2) ← int_part l1;
  let '(frac, l3) := frac_part l2 in
  let '(exp, l4) := exp_part l3 in
  match frac, exp with
  | [], [] =>
      Some (z ← py_int (Str.of_chars digits);
            Ok (JInt (if bool_decide (sign = []) then z else - z)), l4)
  | _, _ => Some (Ok (JFloat (Str.of_chars (sign ++ digits ++ frac ++ exp))), l4)
  end.

(** [l] without the prefix [p], when it starts with it. *)
Fixpoint strip_prefix (p l : list ascii) : option (list ascii) :=
  match p, l with
  | [], _ => Some l
  | a :: p', b :: l' => if bool_decide (a = b) then strip_prefix p' l' else None
  | _ :: _, [] => None
  end.

Definition literals : list (string * json) :=
  [("null", JNull); ("true", JBool true); ("false", JBool false);
   ("NaN", JFloat "NaN"); ("Infinity", JFloat "Infinity");
   ("-Infinity", JFloat "-Infinity")].

Fixpoint scan_literal (table : list (string * json)) (l : list ascii)
  : option (json * list ascii) :=
  match table with
  | [] => None
  | (name, v) :: tl =>
      match strip_prefix (Str.chars name) l with
      | Some r => Some (v, r)
      | None => scan_literal tl l
      end
  end.

(** [scan_once] with the arrays and objects it descends into; [fuel]
    bounds the descent. *)
Fixpoint scan_once (fuel : nat) (l : list ascii) : result (json * list ascii) :=
  match fuel, l with
  | O, _ => Raise RecursionError
  | _, [] => Raise JSONDecodeError
  | S f, c :: tl =>
      if bool_decide (c = "034"%char)
      then '(s, r) ← scan_string (length tl) tl []; Ok (JStr s, r)
      else if bool_decide (c = "{"%char)
      then match skip_ws tl with
           | [] => Raise JSONDecodeError
           | c2 :: r =>
               if bool_decide (c2 = "}"%char) then Ok (JDict [], r)
               else scan_members f (c2 :: r) []
           end
      else if bool_decide (c = "["%char)
      then match skip_ws tl with
           | [] => Raise JSONDecodeError
           | c2 :: r =>
               if bool_decide (c2 = "]"%char) then Ok (JList [], r)
               else scan_elements f (c2 :: r) []
           end
      else match scan_literal literals l with
           | Some vr => Ok vr
           | None =>
               match scan_number l with
               | Some (v, r) => v ← v; Ok (v, r)
               | None => Raise JSONDecodeError
               end
           end
  end
with scan_elements (fuel : nat) (l : list ascii) (acc : list json)
  : result (json * list ascii) :=
  match fuel with
  | O => Raise RecursionError
  | S f =>
      '(v, r) ← scan_once f l;
      match skip_ws r with
      | [] => Raise JSONDecodeError
      | c :: r2 =>
          if bool_decide (c = "]"%char) then Ok (JList (acc ++ [v]), r2)
          else if bool_decide (c = ","%char)
          then scan_elements f (skip_ws r2) (acc ++ [v])
          else Raise JSONDecodeError
      end
  end
with scan_members (fuel : nat) (l : list ascii) (acc : list (string * json))
  : result (json * list ascii) :=
  match fuel, l with
  | O, _ => Raise RecursionError
  | _, [] => Raise JSONDecodeError
  | S f, q :: tl =>
      if bool_decide (q = "034"%char)
      then
        '(k, r) ← scan_string (length tl) tl [];
        match skip_ws r with
        | [] => Raise JSONDecodeError
        | c :: r2 =>
            if bool_decide (c = ":"%char)
            then
              '(v, r3) ← scan_once f (skip_ws r2);
              match skip_ws r3 with
              | [] => Raise JSONDecodeError
              | c2 :: r4 =>
                  if bool_decide (c2 = "}"%char) then Ok (JDict (dict_put k v acc), r4)
                  else if bool_decide (c2 = ","%char)
                  then scan_members f (skip_ws r4) (dict_put k v acc)
                  else Raise JSONDecodeError
              end
            else Raise JSONDecodeError
        end
      else Raise JSONDecodeError
  end.

(** [json.loads(s)]: one value between optional blanks, and nothing else. *)
Definition loads (s : string) : result json :=
  let l := Str.chars s in
  '(v, r) ← scan_once (2 * length l + 2) (skip_ws l);
  match skip_ws r with
  | [] => Ok v
  | _ :: _ => Raise JSONDecodeError
  end.

End Json.

(** ** ResponseNormalizer *)

(** [for x in v]: the items of a list, the keys of a dict, the characters
    of a text; anything else is not iterable. *)
Definition py_iter (v : json) : result (list json) :=
  match v with
  | JList l => Ok l
  | JDict d => Ok (map (λ kv, JStr (fst kv)) d)
  | JStr s => Ok (map (λ c, JStr (String c EmptyString)) (Str.chars s))
  | _ => Raise TypeError
  end.

Fixpoint assoc (k : string) (d : list (string * json)) : option json :=
  match d with
  | [] => None
  | kv :: tl => if bool_decide (fst kv = k) then Some (snd kv) else assoc k tl
  end.

(** [item.get(k, dflt)]: only a dict has [get]. *)
Definition py_get (item : json) (k : string) (dflt : json) : result json :=
  match item with
  | JDict d => Ok (default dflt (assoc k d))
  | _ => Raise AttributeError
  end.

(** [v.upper()]: only a text has [upper]. *)
Definition py_upper (v : json) : result string :=
  match v with
  | JStr s => Ok (Str.upper s)
  | _ => Raise AttributeError
  end.

(** [len(v)]. *)
Definition py_len (v : json) : result Z :=
  match v with
  | JStr s => Ok (Z.of_nat (length (Str.chars s)))
  | JList l => Ok (Z.of_nat (length l))
  | JDict d => Ok (Z.of_nat (length d))
  | _ => Raise TypeError
  end.

Definition allowed_levels : list string := ["HIGH"; "MEDIUM"; "LOW"].

(** [x = item.get(k, "MEDIUM").upper()], then [MEDIUM] unless allowed. *)
Definition enum_field (item : json) (k : string) : result string :=
  v ← py_get item k (JStr "MEDIUM");
  raw ← py_upper v;
  Ok (if bool_decide (raw ∈ allowed_levels) then raw else "MEDIUM").

(** The reply as it is parsed: stripped, and without its fences when it
    starts with one. *)
Definition strip_fence (content : string) : string :=
  let text := Str.strip content in
  if Str.startswith "```" text
  then Re.sub_empty false fence_close_re (Re.sub_empty false fence_open_re text)
  else text.

(** *** Risk predictions (predictive_risk.py) *)

Record RiskPrediction : Type := mkRisk {
  rp_service : json;
  rp_risk_level : string;
  rp_prediction : json;
  rp_evidence : json;
  rp_preventive_action : json;
  rp_time_horizon : json
}.

Record RiskOutput : Type := mkRiskOutput {
  risk_predictions : list RiskPrediction;
  risk_error : option string;
  risk_agent : string
}.

Definition normalize_prediction (item : json) : result RiskPrediction :=
  risk_raw ← enum_field item "risk_level";
  svc ← py_get item "service" (JStr "unknown");
  prediction ← py_get item "prediction" (JStr EmptyString);
  ev ← py_get item "evidence" (JList []);
  action ← py_get item "preventive_action" (JStr EmptyString);
  horizon ← py_get item "time_horizon" (JStr "unknown");
  Ok (mkRisk svc risk_raw prediction ev action horizon).

(** [run] of predictive_risk.py from the reply of the collaborator on. *)
Definition risk_postprocess (content : string) : result RiskOutput :=
  let text := strip_fence content in
  match Json.loads text with
  | Raise JSONDecodeError =>
      Ok (mkRiskOutput []
            (Some ("Predictive risk agent returned invalid JSON: " +:+ Str.take 200 text))
            "predictive_risk")
  | Raise e => Raise e
  | Ok parsed =>
      items ← py_iter parsed;
      predictions ← mapM normalize_prediction items;
      Ok (mkRiskOutput predictions None "predictive_risk")
  end.

(** *** Causal chains (root_cause.py) *)

Record ChainEvent : Type := mkEvent {
  ce_service : json;
  ce_event : json;
  ce_timestamp : json;
  ce_line_number : json
}.

Record CausalChain : Type := mkChain {
  cc_chain : list ChainEvent;
  cc_root_cause : json;
  cc_blast_radius : json;
  cc_affected_services : json;
  cc_confidence : string;
  cc_summary : json
}.

Record ChainOutput : Type := mkChainOutput {
  causal_chains : list CausalChain;
  chain_error : option string;
  chain_agent : string
}.

Definition normalize_event (evt : json) : result ChainEvent :=
  svc ← py_get evt "service" (JStr "unknown");
  event ← py_get evt "event" (JStr EmptyString);
  ts ← py_get evt "timestamp" (JStr EmptyString);
  ln ← py_get evt "line_number" (JInt 0);
  Ok (mkEvent svc event ts ln).

Definition normalize_chain (item : json) : result CausalChain :=
  confidence_raw ← enum_field item "confidence";
  chain ← py_get item "chain" (JList []);
  evts ← py_iter chain;
  chain_events ← mapM normalize_event evts;
  affected ← py_get item "affected_services" (JList []);
  root ← py_get item "root_cause" (JStr EmptyString);
  n ← py_len affected;
  radius ← py_get item "blast_radius" (JInt n);
  summary ← py_get item "summary" (JStr EmptyString);
  Ok (mkChain chain_events root radius affected confidence_raw summary).

(** [run] of root_cause.py from the reply of the collaborator on. *)
Definition chain_postprocess (content : string) : result ChainOutput :=
  let text := strip_fence content in
  match Json.loads text with
  | Raise JSONDecodeError =>
      Ok (mkChainOutput []
            (Some ("Root cause agent returned invalid JSON: " +:+ Str.take 200 text))
            "root_cause")
  | Raise e => Raise e
  | Ok parsed =>
      items ← py_iter parsed;
      chains ← mapM normalize_chain items;
      Ok (mkChainOutput chains None "root_cause")
  end.

(** ** An instance of the time parser

    [strptime_iso] reads the zero-padded form [YYYY-MM-DD HH:MM:SS] and
    nothing else; the instant is counted in seconds from the first day of
    year 1. It serves where a property is evaluated on records. *)

Definition is_leap (y : Z) : bool :=
  ((y mod 4 =? 0) && negb (y mod 100 =? 0)) || (y mod 400 =? 0).

Definition days_in_month (y m : Z) : Z :=
  if m =? 2 then (if is_leap y then 29 else 28)
  else if (m =? 4) || (m =? 6) || (m =? 9) || (m =? 11) then 30
  else 31.

Definition days_before_year (y : Z) : Z :=
  365 * (y - 1) + (y - 1) / 4 - (y - 1) / 100 + (y - 1) / 400.

Definition days_before_month (y m : Z) : Z :=
  fold_left (λ acc k, acc + days_in_month y (Z.of_nat k)) (seq 1 (Z.to_nat m - 1)) 0.

Definition two_digits (a b : ascii) : option Z :=
  if Str.is_digit a && Str.is_digit b then Some (Str.digits_val [a; b]) else None.

Definition strptime_iso (s : string) : option Z :=
  match Str.chars s with
  | [y1; y2; y3; y4; d1; m1; m2; d2; a1; a2; sp; h1; h2; c1; n1; n2; c2; s1; s2] =>
      if forallb Str.is_digit [y1; y2; y3; y4]
         && bool_decide ([d1; d2; sp; c1; c2] = ["-"; "-"; " "; ":"; ":"]%char)
      then
        let y := Str.digits_val [y1; y2; y3; y4] in
        m ← two_digits m1 m2;
        d ← two_digits a1 a2;
        h ← two_digits h1 h2;
        mi ← two_digits n1 n2;
        sec ← two_digits s1 s2;
        if (1 <=? y) && (1 <=? m) && (m <=? 12) && (1 <=? d) && (d <=? days_in_month y m)
           && (h <=? 23) && (mi <=? 59) && (sec <=? 59)
        then Some ((((days_before_year y + days_before_month y m + (d - 1)) * 24 + h) * 60
                      + mi) * 60 + sec)
        else None
      else None
  | _ => None
  end.

(** A record as the ingestion hands it over. *)
Definition log_record (ts svc lvl msg : string) (ln : Z) : LogRecord :=
  mkRecord (Some ts) (Some svc) (Some lvl) (Some msg) (Some ln).

(** ** Floats of numeric captures

    [float(s)] of a run of digits is the double nearest to the integer
    it writes (ties to even), and [inf] past the largest double. Such a
    double is a whole number and is carried as that number. *)

Inductive pyfloat : Type :=
| Finite (z : Z)
| Inf.

#[global] Instance pyfloat_eq_dec : EqDecision pyfloat.
Proof. solve_decision. Defined.

(** The double nearest to the integer [n >= 0]: [n] itself below [2^53],
    else its 53 leading bits, rounded to nearest, ties to even. *)
Definition round_double (n : Z) : pyfloat :=
  if n <? 2 ^ 53 then Finite n
  else
    let e := Z.log2 n - 52 in
    let q := n / 2 ^ e in
    let r := n mod 2 ^ e in
    let half := 2 ^ (e - 1) in
    let q' := if (half <? r) || ((r =? half) && Z.odd q) then q + 1 else q in
    if 2 ^ 1024 <=? q' * 2 ^ e then Inf else Finite (q' * 2 ^ e).

(** [float(s)] for a capture of [\d+]. *)
Definition py_float (s : string) : result pyfloat :=
  let l := Str.chars s in
  if bool_decide (l ≠ []) && forallb Str.is_digit l
  then Ok (round_double (Str.digits_val l))
  else Raise ValueError.

(** [a > b]. *)
Definition float_gt (a b : pyfloat) : bool :=
  match a, b with
  | Finite x, Finite y => y <? x
  | Inf, Finite _ => true
  | _, Inf => false
  end.

(** [repr] of such a double, which is what an f-string renders: below
    [10^16] the integer and [.0]; from there on the shortest decimal that
    reads back as the same double (the nearest one of that length), in
    exponent form. *)
Definition round_trips (n c : Z) : bool := bool_decide (round_double c = Finite n).

Definition shortest_decimal (n : Z) : Z :=
  let digits := Z.of_nat (length (Str.chars (Str.of_Z n))) in
  fold_right
    (λ k next,
       let u := 10 ^ (digits - Z.of_nat k) in
       let lo := n / u * u in
       let hi := lo + u in
       match round_trips n lo, round_trips n hi with
       | true, true => if n - lo <=? hi - n then lo else hi
       | true, false => lo
       | false, true => hi
       | false, false => next
       end)
    n (seq 1 17).

Fixpoint drop_zeros (l : list ascii) : list ascii :=
  match l with
  | c :: tl => if bool_decide (c = "0"%char) then drop_zeros tl else l
  | [] => []
  end.

Definition float_repr (f : pyfloat) : string :=
  match f with
  | Inf => "inf"
  | Finite n =>
      if n <? 10 ^ 16 then Str.of_Z n +:+ ".0"
      else
        let l := Str.chars (Str.of_Z (shortest_decimal n)) in
        let exponent := Str.of_Z (Z.of_nat (length l) - 1) in
        match rev (drop_zeros (rev l)) with
        | [] => EmptyString
        | [d] => Str.of_chars [d] +:+ "e+" +:+ exponent
        | d :: frac => Str.of_chars (d :: "."%char :: frac) +:+ "e+" +:+ exponent
        end
  end.

(** ** NumericTrendDetector *)

(** [NUMERIC_PATTERNS], in the order of the table, each with its
    [re.IGNORECASE] flag: [(\d+)%], [(\d+)\s*ms], [retry\s*(\d+)],
    [(\d+)/(\d+)\s*connections?] and [(\d+)/(\d+)\s*req]. *)
Definition NUMERIC_PATTERNS : list (string * (bool * Re.regex)) :=
  [("disk_percent",
    (false, Re.seqs [Re.Group 1 (Re.Plus Re.Digit); Re.Chr "%"]));
   ("latency_ms",
    (false, Re.seqs [Re.Group 1 (Re.Plus Re.Digit); Re.Star Re.Space; Re.lit "ms"]));
   ("retry_count",
    (true, Re.seqs [Re.lit "retry"; Re.Star Re.Space; Re.Group 1 (Re.Plus Re.Digit)]));
   ("pool_usage",
    (true, Re.seqs [Re.Group 1 (Re.Plus Re.Digit); Re.Chr "/";
                    Re.Group 2 (Re.Plus Re.Digit); Re.Star Re.Space;
                    Re.lit "connection"; Re.Opt (Re.Chr "s")]));
   ("rate_value",
    (true, Re.seqs [Re.Group 1 (Re.Plus Re.Digit); Re.Chr "/";
                    Re.Group 2 (Re.Plus Re.Digit); Re.Star Re.Space; Re.lit "req"]))].

(** A value read off a message, with the timestamp of its record:
    [(ts, val)]. *)
Definition reading : Type := (string * pyfloat)%type.

(** [pattern_values], a [defaultdict(list)]: the names in the order of
    their first value, each with its values in the order they were read. *)
Definition values_dict : Type := list (string * list reading).

(** [pattern_values[name].append(r)]. *)
Fixpoint values_push (name : string) (r : reading) (d : values_dict) : values_dict :=
  match d with
  | [] => [(name, [r])]
  | kv :: tl =>
      if bool_decide (fst kv = name) then (fst kv, snd kv ++ [r]) :: tl
      else kv :: values_push name r tl
  end.

(** A loop whose body can raise. *)
Fixpoint fold_result {A B} (f : A → B → result A) (l : list B) (a : A) : result A :=
  match l with
  | [] => Ok a
  | x :: tl => a' ← f a x; fold_result f tl a'
  end.

(** The body of the [try] on one pattern and one record. *)
Definition trend_try (name ts : string) (m : Re.rmatch_obj) (d : values_dict)
    : result values_dict :=
  g ← Re.group 1 m;
  val ← py_float g;
  Ok (values_push name (ts, val) d).

Definition trend_pattern_step (e : LogRecord) (d : values_dict)
    (np : string * (bool * Re.regex)) : result values_dict :=
  match Re.search (fst (snd np)) (snd (snd np)) (get_message e) with
  | Some m => try_pass (trend_try (fst np) (get_timestamp e) m d) d
  | None => Ok d
  end.

(** The first loop over the records of a service. *)
Definition collect_values (entries : list LogRecord) : result values_dict :=
  fold_result (λ d e, fold_result (trend_pattern_step e) NUMERIC_PATTERNS d) entries [].

(** A trend signal: the keys [service], [signal_type], [metric] and
    [evidence]. *)
Record TrendSignal : Type := mkTrend {
  trend_service : string;
  trend_signal_type : string;
  trend_metric : string;
  trend_evidence : list string
}.

#[global] Instance TrendSignal_eq_dec : EqDecision TrendSignal.
Proof. solve_decision. Defined.

(** The test on the values of one name: at least 2 of them, the last
    greater than the first. *)
Definition trend_signal (svc : string) (kv : string * list reading)
    : option TrendSignal :=
  match snd kv with
  | first :: _ :: _ =>
      let last := List.last (snd kv) first in
      if float_gt (snd last) (snd first)
      then Some (mkTrend svc "numeric_trend" (fst kv)
                   [fst kv +:+ ": " +:+ float_repr (snd first) +:+ " -> "
                      +:+ float_repr (snd last) +:+ " (trending up)";
                    "From entries at " +:+ fst first +:+ " to " +:+ fst last])
      else None
  | _ => None
  end.

Definition trends_of (svc : string) (entries : list LogRecord)
    : result (list TrendSignal) :=
  d ← collect_values entries;
  Ok (omap (trend_signal svc) (d : values_dict)).

Fixpoint _detect_numeric_trends (entries_by_service : by_service)
    : result (list TrendSignal) :=
  match entries_by_service with
  | [] => Ok []
  | (svc, entries) :: tl =>
      here ← trends_of svc entries;
      rest ← _detect_numeric_trends tl;
      Ok (here ++ rest)
  end.

(** ** The agents *)

(** The state an agent reads: the keys [log_entries] and [issues], each
    [None] when the key is absent. *)
Record State : Type := mkState {
  state_log_entries : option (list LogRecord);
  state_issues : option (list json)
}.

(** What a run of an agent comes to: its output, an exception, or the
    one call of the collaborator, with the data its prompt renders and
    what the agent makes of the reply. *)
Inductive agent_run (P A : Type) : Type :=
| Finished (out : A)
| Raised (e : exn)
| AskLLM (prompt : P) (k : string → result A).

Arguments Finished {P A} out.
Arguments Raised {P A} e.
Arguments AskLLM {P A} prompt k.

Module PredictiveRisk.

(** [all_signals = freq_signals + trend_signals + pattern_signals]. *)
Definition all_signals (strptime : string → option Z)
    (entries_by_service : by_service) : result (list (Signal + TrendSignal)) :=
  let freq_signals := _detect_frequency_acceleration strptime entries_by_service in
  trend_signals ← _detect_numeric_trends entries_by_service;
  pattern_signals ← _detect_known_patterns entries_by_service;
  Ok (map inl freq_signals ++ map inr trend_signals ++ map inl pattern_signals).

Definition no_predictions : RiskOutput := mkRiskOutput [] None "predictive_risk".

(** [run]: the prompt renders [all_signals]. *)
Definition run (strptime : string → option Z) (state : State)
    : agent_run (list (Signal + TrendSignal)) RiskOutput :=
  let log_entries := default [] (state_log_entries state) in
  match log_entries with
  | [] => Finished no_predictions
  | _ :: _ =>
      match group_by_service log_entries with
      | [] => Finished no_predictions
      | (_ :: _) as entries_by_service =>
          match all_signals strptime entries_by_service with
          | Raise e => Raised e
          | Ok [] => Finished no_predictions
          | Ok ((_ :: _) as signals) => AskLLM signals risk_postprocess
          end
      end
  end.

End PredictiveRisk.

Module RootCause.

(** [all_services]: the service names of the batch that are not empty,
    without [unknown]. *)
Definition service_names (log_entries : list LogRecord) : gset string :=
  list_to_set
    (List.filter (λ s, negb (bool_decide (s = EmptyString)))
       (map (λ e, default EmptyString (service e)) log_entries))
  ∖ {[ "unknown" ]}.

Definition no_chains : ChainOutput := mkChainOutput [] None "root_cause".

(** [run]: the prompt renders [candidates] and [issues[:10]]. [iter] is
    the order in which the iteration over a set of names yields them. *)
Definition run (strptime : string → option Z) (iter : gset string → list string)
    (state : State)
    : agent_run (list (list LogRecord) * list json) ChainOutput :=
  let log_entries := default [] (state_log_entries state) in
  let issues := default [] (state_issues state) in
  match log_entries with
  | [] => Finished no_chains
  | _ :: _ =>
      let actionable := List.filter is_actionable log_entries in
      if (length actionable <? 2)%nat then Finished no_chains
      else
        let all_services := iter (service_names log_entries) in
        let time_groups := _build_time_groups strptime actionable TIME_WINDOW in
        let cross_refs := _find_cross_references actionable all_services in
        match _merge_candidates time_groups cross_refs with
        | [] => Finished no_chains
        | (_ :: _) as candidates => AskLLM (candidates, firstn 10 issues) chain_postprocess
        end
  end.

End RootCause.

(** * Part II: what the properties are stated with *)

(** ** The specification's words

    Definitions that follow the text of the specification, to be compared
    with the ones above. *)

(** The leading records that satisfy [P], and what comes after them. *)
Fixpoint run_of {A} (P : A → bool) (l : list A) : list A :=
  match l with
  | x :: tl => if P x then x :: run_of P tl else []
  | [] => []
  end.

Fixpoint after_run {A} (P : A → bool) (l : list A) : list A :=
  match l with
  | x :: tl => if P x then after_run P tl else l
  | [] => []
  end.

(** An instant is within [window] seconds of the start of a group. *)
Definition within (window start : Z) (x : Z * LogRecord) : bool :=
  fst x - start <=? window.

(** A closed group is kept only if its size is at least 2. *)
Definition kept (g : list LogRecord) : list (list LogRecord) :=
  if (2 <=? length g)%nat then [g] else [].

(** The greedy pass: a group is its first record and the records that
    follow it within the window of that first record; the next record
    anchors the next group. *)
Equations? greedy_groups (window : Z) (l : list (Z * LogRecord))
  : list (list LogRecord) by wf (length l) lt :=
  greedy_groups window [] := [];
  greedy_groups window (x :: rest) :=
    kept (snd x :: map snd (run_of (within window (fst x)) rest))
      ++ greedy_groups window (after_run (within window (fst x)) rest).
Proof.
  assert (Hshorter : ∀ (P : Z * LogRecord → bool) (k : list (Z * LogRecord)),
            (length (after_run P k) <= length k)%nat).
  { intros P k. induction k as [|y tl IH]; simpl; [lia|].
    destruct (P y); simpl; lia. }
  simpl. apply Nat.lt_succ_r, Hshorter.
Qed.

(** The gaps between consecutive instants. *)
Fixpoint gaps_between (instants : list Z) : list Z :=
  match instants with
  | t0 :: (t1 :: _) as tl => (t1 - t0) :: gaps_between tl
  | _ => []
  end.

(** The number of gap-to-gap comparisons in which the gap decreases. *)
Fixpoint drops (gaps : list Z) : nat :=
  match gaps with
  | g0 :: (g1 :: _) as tl => (if g1 <? g0 then S (drops tl) else drops tl)
  | _ => 0%nat
  end.

(** The number of gap-to-gap comparisons. *)
Definition comparisons (gaps : list Z) : nat := (length gaps - 1)%nat.

(** ** Notions of the proofs and sample records *)

Definition ts_record (ts : string) (ln : Z) : LogRecord :=
  log_record ts "api" "ERROR" "request failed" ln.

(** Gaps of 100, 60 and 20 seconds: both comparisons decrease. *)
Definition accelerating_batch : list LogRecord :=
  [ts_record "2024-05-01 10:00:00" 1; ts_record "2024-05-01 10:01:40" 2;
   ts_record "2024-05-01 10:02:40" 3; ts_record "2024-05-01 10:03:00" 4].

Definition accelerating_gaps : list Z := [100; 60; 20].

(** Gaps of 10, 5, 20 and 30 seconds: one of the three comparisons
    decreases, which is half of the comparisons and less than half of the
    gaps. *)
Definition uneven_batch : list LogRecord :=
  [ts_record "2024-05-01 10:00:00" 1; ts_record "2024-05-01 10:00:10" 2;
   ts_record "2024-05-01 10:00:15" 3; ts_record "2024-05-01 10:00:35" 4;
   ts_record "2024-05-01 10:01:05" 5].

(** The records of [l] that are actionable and go under the key [svc]. *)
Definition selected (svc : string) (e : LogRecord) : bool :=
  is_actionable e && bool_decide (service_key e = svc).

Definition missing_service_record : LogRecord :=
  mkRecord (Some "2024-05-01 10:00:00") None (Some "ERROR") (Some "timeout") (Some 1).

(** A record as the specification has it, with the empty service. *)
Definition empty_service_record : LogRecord :=
  log_record "2024-05-01 10:00:00" EmptyString "ERROR" "timeout" 1.

(** What holds of the dictionary of a merge: a record sits under its own
    line number, the keys are distinct, and the records are records of
    the list that was merged. *)
Definition dict_ok (l : list LogRecord) (d : list (Z * LogRecord)) : Prop :=
  NoDup (map fst d)
  ∧ Forall (λ kv, get_line_number (snd kv) = fst kv ∧ snd kv ∈ l) d.

(** The merged candidate of a cluster and a time group. *)
Definition merged_entries (cluster tg : list LogRecord) : list LogRecord :=
  map snd (dict_of_entries (cluster ++ tg)).

(** What a tier offers, in order: a candidate with its set of line
    numbers. *)
Definition offer : Type := (list LogRecord * gset Z)%type.

Definition add_all (offers : list offer) (st : mc_state) : mc_state :=
  fold_left (λ st o, mc_add (fst o) (snd o) st) offers st.

Definition overlap_offer (cluster tg : list LogRecord) : option offer :=
  if (2 <=? size (line_set cluster ∩ line_set tg))%nat
  then Some (merged_entries cluster tg,
             list_to_set (map fst (dict_of_entries (cluster ++ tg))))
  else None.

Definition overlap_offers (time_groups cross_refs : list (list LogRecord))
  : list offer :=
  flat_map (λ cluster, omap (overlap_offer cluster) time_groups) cross_refs.

Definition as_is_offers (clusters : list (list LogRecord)) : list offer :=
  map (λ c, (c, line_set c)) clusters.

(** The sets seen are the line-number sets of the candidates, and no set
    is seen twice. *)
Definition mc_inv (st : mc_state) : Prop :=
  seen_sets st = map line_set (candidates st) ∧ NoDup (seen_sets st).

Definition offers_ok (offers : list offer) : Prop :=
  Forall (λ o, snd o = line_set (fst o)) offers.

Definition chain_record (svc msg : string) (ln : Z) : LogRecord :=
  log_record "2024-05-01 10:00:00" svc "ERROR" msg ln.

(** Cross-ref clusters that share no two line numbers with a time
    group, and time groups next to them. *)
Definition lone_cluster : list LogRecord :=
  [chain_record "api" "db timeout" 1; chain_record "db" "api hung" 2].

Definition lone_group : list LogRecord :=
  [chain_record "web" "slow" 5; chain_record "cache" "miss storm" 6].

Definition overlap_cluster : list LogRecord :=
  [chain_record "api" "db timeout" 1; chain_record "db" "pool exhausted" 2;
   chain_record "web" "api unavailable" 3].

Definition overlap_group : list LogRecord :=
  [chain_record "db" "pool exhausted" 2; chain_record "web" "api unavailable" 3;
   chain_record "cache" "eviction storm" 4].

(** Three records that refer to one another, within one minute. *)
Definition incident_batch : list LogRecord :=
  [log_record "2024-05-01 10:00:00" "api" "ERROR" "db timeout" 1;
   log_record "2024-05-01 10:00:05" "db" "CRITICAL" "pool exhausted, api calls queued" 2;
   log_record "2024-05-01 10:00:20" "web" "WARN" "api unavailable" 3;
   log_record "2024-05-01 10:00:30" "web" "INFO" "retrying" 4].

(** Two actionable records of two services that carry the same line
    number, five seconds apart, neither naming the other service. *)
Definition same_line_batch : list LogRecord :=
  [log_record "2024-05-01 10:00:00" "api" "ERROR" "request timeout" 7;
   log_record "2024-05-01 10:00:05" "db" "ERROR" "slow query" 7].

(** The conversion [int(m.group(n))] of a numeric capture. *)
Definition capture_int (n : nat) (m : Re.rmatch_obj) : result Z :=
  g ← Re.group n m; py_int g.

Definition message_record (msg : string) : LogRecord :=
  log_record "2024-05-01 10:00:00" "db" "WARN" msg 1.

(** A pool message whose current count has 4301 digits, past the limit
    of a conversion. *)
Definition overlong_pool_record : LogRecord :=
  message_record
    ("connection pool " +:+ Str.of_chars (repeat "9"%char 4301) +:+ "/100 connections").

(** The value under [k] is a text, or [k] is absent. *)
Definition text_or_absent (k : string) (d : list (string * json)) : Prop :=
  match assoc k d with
  | Some (JStr _) | None => True
  | Some _ => False
  end.

(** The enumerated field [k] of the object [d], normalized. *)
Definition enum_value (k : string) (d : list (string * json)) : string :=
  let raw := Str.upper (match assoc k d with
                        | Some (JStr s) => s
                        | _ => "MEDIUM"
                        end) in
  if bool_decide (raw ∈ allowed_levels) then raw else "MEDIUM".

(** An event of a chain, field by field. *)
Definition event_of (d : list (string * json)) : ChainEvent :=
  mkEvent (default (JStr "unknown") (assoc "service" d))
    (default (JStr EmptyString) (assoc "event" d))
    (default (JStr EmptyString) (assoc "timestamp" d))
    (default (JInt 0) (assoc "line_number" d)).

(** A run of the JSON reader on [l] that did not stop for lack of fuel
    and, when it returned, consumed some of [l]. *)
Definition fuel_ok {A} (run : result (A * list ascii)) (l : list ascii) : Prop :=
  run ≠ Raise RecursionError
  ∧ ∀ v r, run = Ok (v, r) → (length r < length l)%nat.

(** The state of the matcher [i] characters further. *)
Definition advance (st : Re.mstate) (i : nat) : Re.mstate :=
  Re.MState (Re.m_pos st + i) (skipn i (Re.m_rest st)) (Re.m_caps st).

(** The body of a repetition of one character of a class. *)
Definition class_body {R} (p : ascii → bool) (st : Re.mstate)
    (k : Re.mstate → option R) : option R :=
  Re.step_char p st k.

(** The end of the disk pattern, [(\d+)%], and what a search returns at
    the end of a match that started at [start]. *)
Definition percent_tail : Re.regex :=
  Re.Seq (Re.Group 1 (Re.Plus Re.Digit)) (Re.Seq (Re.Chr "%") Re.Eps).

Definition found (start : nat) (st : Re.mstate) : option Re.rmatch_obj :=
  Some (Re.MatchObj start (Re.m_pos st) (Re.m_rest st) (Re.m_caps st)).

(** ** Notions of the properties of the detectors and the agents *)

(** Three records, the first two 50 seconds apart, the third 130 seconds
    after the first. *)
Definition spread_batch : list LogRecord :=
  [ts_record "2024-05-01 10:02:10" 3; ts_record "2024-05-01 10:00:00" 1;
   ts_record "2024-05-01 10:00:50" 2].

(** The records of a batch at a set of indices, in the order of the
    indices. *)
Definition cluster_at (entries : list LogRecord) (s : gset nat) : list LogRecord :=
  omap (λ i, entries !! i) (sorted_indices s).

(** The message of a record names a service other than its own, both in
    lower case. *)
Definition refers_to_other (all_services : list string) (e : LogRecord) : bool :=
  existsb (λ svc, negb (bool_decide (Str.lower svc = lower_service e))
                  && Str.contains (Str.lower svc) (Str.lower (get_message e)))
    all_services.

(** No index is in two of the sets. *)
Fixpoint pairwise_disjoint (l : list (gset nat)) : Prop :=
  match l with
  | [] => True
  | s :: tl => Forall (λ t, s ## t) tl ∧ pairwise_disjoint tl
  end.

(** The index is the one of a record that names another service. *)
Definition referring_index (entries : list LogRecord) (all_services : list string)
    (i : nat) : Prop :=
  ∃ e, entries !! i = Some e ∧ refers_to_other all_services e = true.

Definition referring_set (entries : list LogRecord) (all_services : list string)
    (s : gset nat) : Prop :=
  ∀ i, i ∈ s → referring_index entries all_services i.

(** Gaps of 10, 10 and 20 seconds: no gap is shorter than the one
    before it. *)
Definition steady_batch : list LogRecord :=
  [ts_record "2024-05-01 10:00:00" 1; ts_record "2024-05-01 10:00:10" 2;
   ts_record "2024-05-01 10:00:20" 3; ts_record "2024-05-01 10:00:40" 4].

(** What a frequency signal says of the instants: its first line of
    evidence, the gaps, and its count of records. *)
Definition gaps_and_count (s : Signal) : option string * option nat :=
  (head (evidence s), entry_count s).

(** The service and the pattern a signal is for. *)
Definition signal_tag (s : Signal) : string * option string :=
  (sig_service s, pattern s).

(** A pool message whose count is too large for a double. *)
Definition overflowing_pool_record : LogRecord :=
  message_record
    ("connection pool " +:+ Str.of_chars (repeat "9"%char 400) +:+ "/1 connections").

Definition failed_login (ln : Z) : LogRecord :=
  log_record "2024-05-01 10:00:00" "auth" "WARN" "Failed login for admin" ln.

(** The message of the record matches the circuit-breaker signature. *)
Definition circuit_match (e : LogRecord) : bool :=
  bool_decide (is_Some (Re.search true circuit_breaker_re (get_message e))).

(** What a pattern of the table reads off a record: the value, with the
    timestamp of the record. *)
Definition reading_of (np : string * (bool * Re.regex)) (e : LogRecord)
    : option reading :=
  match Re.search (fst (snd np)) (snd (snd np)) (get_message e) with
  | Some m =>
      match Re.group 1 m ≫= py_float with
      | Ok val => Some (get_timestamp e, val)
      | Raise _ => None
      end
  | None => None
  end.

(** The readings of a pattern over the records of a service, in their
    order. *)
Definition readings_of (np : string * (bool * Re.regex)) (entries : list LogRecord)
    : list reading :=
  omap (reading_of np) entries.

(** The values under a name, none when the name is not a key. *)
Fixpoint values_of (name : string) (d : values_dict) : list reading :=
  match d with
  | [] => []
  | kv :: tl => if bool_decide (fst kv = name) then snd kv else values_of name tl
  end.

(** The pattern of a name in a table. *)
Fixpoint pattern_of (name : string) (table : list (string * (bool * Re.regex)))
    : option (string * (bool * Re.regex)) :=
  match table with
  | [] => None
  | np :: tl => if bool_decide (fst np = name) then Some np else pattern_of name tl
  end.

(** One turn of the loops of the collection, without its [try]. *)
Definition push_reading (e : LogRecord) (d : values_dict)
    (np : string * (bool * Re.regex)) : values_dict :=
  match reading_of np e with
  | Some r => values_push (fst np) r d
  | None => d
  end.

(** The dictionary of the collection over the records of a service. *)
Definition collected (entries : list LogRecord) : values_dict :=
  fold_left (λ d e, fold_left (push_reading e) NUMERIC_PATTERNS d) entries [].

(** The rounding of [n >= 2^53] to 53 bits. *)
Definition rounded (n : Z) : Z :=
  let e := Z.log2 n - 52 in
  let q := n / 2 ^ e in
  let r := n mod 2 ^ e in
  let half := 2 ^ (e - 1) in
  (if (half <? r) || ((r =? half) && Z.odd q) then q + 1 else q) * 2 ^ e.

Definition disk_reading (ts pct : string) : LogRecord :=
  log_record ts "db" "WARN" ("disk usage at " +:+ pct +:+ "% on /var") 1.

(** The first pattern of the table. *)
Definition disk_percent_pattern : string * (bool * Re.regex) :=
  ("disk_percent", (false, Re.seqs [Re.Group 1 (Re.Plus Re.Digit); Re.Chr "%"])).

(** The service a signal of the prompt is for. *)
Definition signal_service (s : Signal + TrendSignal) : string :=
  match s with
  | inl s => sig_service s
  | inr t => trend_service t
  end.

(** What the prompt of a run renders, when the run calls the
    collaborator. *)
Definition asked {P A} (r : agent_run P A) : option P :=
  match r with
  | AskLLM prompt _ => Some prompt
  | _ => None
  end.

(** A batch with a circuit-breaker message and two disk readings. *)
Definition risk_batch : list LogRecord :=
  [log_record "2024-05-01 10:00:00" "db" "WARN" "disk usage at 85% on /var" 1;
   log_record "2024-05-01 10:00:30" "api" "INFO" "request served" 2;
   log_record "2024-05-01 10:01:00" "db" "ERROR" "disk usage at 92% on /var" 3;
   log_record "2024-05-01 10:01:30" "api" "ERROR" "circuit breaker open for db" 4].

(** A reply in a fence: the opening fence with its tag, a line break,
    the body, a line break, the closing fence. *)
Definition fenced (tag body : string) : string :=
  Str.of_chars (Str.chars "```" ++ Str.chars tag ++ [Re.newline]
                ++ Str.chars body ++ [Re.newline] ++ Str.chars "```").

(** The keys under which the clusterer files the index of a record: for
    every service that the message names and that is not its own, the
    name of that service and the service of the record, in lower case. *)
Definition xref_keys (all_services : list string) (e : LogRecord) : list string :=
  flat_map
    (λ svc, if negb (bool_decide (Str.lower svc = lower_service e))
               && Str.contains (Str.lower svc) (Str.lower (get_message e))
            then [Str.lower svc; lower_service e] else [])
    all_services.

(** The index [i] is filed under the key [k]. *)
Definition filed_under (d : index_dict) (k : string) (i : nat) : Prop :=
  ∃ s, (k, s) ∈ d ∧ i ∈ s.

(** * Part III: properties *)

(** ** The stable sort *)

Section StableSortFacts.
Context {A : Type} (key : A → Z).

Lemma insert_by_perm (x : A) (l : list A) : insert_by key x l ≡ₚ x :: l.
Proof.
  induction l as [|y tl IH]; simpl; [done|].
  destruct (key x <=? key y); [done|].
  rewrite IH. apply Permutation_swap.
Qed.

Lemma sort_by_perm (l : list A) : sort_by key l ≡ₚ l.
Proof.
  induction l as [|x tl IH]; simpl; [done|].
  by rewrite insert_by_perm, IH.
Qed.

Lemma insert_by_sorted (x : A) (l : list A) :
  StronglySorted (key_le key) l → StronglySorted (key_le key) (insert_by key x l).
Proof.
  induction 1 as [|y tl Hs IH Hall]; simpl.
  - repeat constructor.
  - destruct (Z.leb_spec (key x) (key y)) as [Hle|Hgt].
    + constructor; [by constructor|].
      constructor; [done|].
      eapply Forall_impl; [exact Hall|]. unfold key_le. intros; simpl in *. lia.
    + constructor; [done|].
      rewrite insert_by_perm. constructor; [unfold key_le; lia | done].
Qed.

Lemma sort_by_sorted (l : list A) : StronglySorted (key_le key) (sort_by key l).
Proof.
  induction l; simpl; [constructor | by apply insert_by_sorted].
Qed.

(** A list that is in order already is left as it is: equal keys keep
    the order they came in. *)
Lemma insert_by_head (x : A) (l : list A) :
  Forall (key_le key x) l → insert_by key x l = x :: l.
Proof.
  destruct 1 as [|y tl Hy _]; simpl; [done|].
  unfold key_le in Hy. by destruct (Z.leb_spec (key x) (key y)); [|lia].
Qed.

Lemma sort_by_id (l : list A) : StronglySorted (key_le key) l → sort_by key l = l.
Proof.
  induction 1 as [|x tl Hs IH Hall]; simpl; [done|].
  rewrite IH. by apply insert_by_head.
Qed.

Lemma sort_by_length (l : list A) : length (sort_by key l) = length l.
Proof. apply Permutation_length, sort_by_perm. Qed.

End StableSortFacts.

(** ** TimeWindowGrouper *)

Lemma close_group_kept (groups : list (list LogRecord)) (cur : list LogRecord) :
  close_group groups cur = groups ++ kept cur.
Proof.
  unfold close_group, kept. destruct (2 <=? length cur)%nat; [done|].
  by rewrite app_nil_r.
Qed.

(** The loop, from any state, closes what the greedy pass closes. *)
Lemma tg_loop_greedy (window : Z) (l : list (Z * LogRecord)) :
  ∀ groups cur start,
    let st := tg_loop window (TgState groups cur start) l in
    close_group (tg_groups st) (tg_current st)
    = groups ++ kept (cur ++ map snd (run_of (within window start) l))
        ++ greedy_groups window (after_run (within window start) l).
Proof.
  unfold tg_loop.
  induction l as [|x tl IH]; intros groups cur start; simpl.
  - simp greedy_groups. by rewrite close_group_kept, !app_nil_r.
  - unfold tg_step at 2 4, within at 1 3. simpl.
    destruct (fst x - start <=? window) eqn:Hin; simpl.
    + rewrite IH. by rewrite <- app_assoc.
    + rewrite IH. simp greedy_groups. rewrite close_group_kept, app_nil_r.
      by rewrite <- !app_assoc.
Qed.

Lemma build_time_groups_greedy (strptime : string → option Z)
    (entries : list LogRecord) (window : Z) :
  _build_time_groups strptime entries window
  = greedy_groups window (sorted_timed strptime entries).
Proof.
  unfold _build_time_groups.
  destruct (sorted_timed strptime entries) as [|x0 rest]; [by simp greedy_groups|].
  pose proof (tg_loop_greedy window rest [] [snd x0] (fst x0)) as H.
  simpl in H. rewrite H. by simp greedy_groups.
Qed.

Lemma sorted_timed_sorted (strptime : string → option Z) (entries : list LogRecord) :
  StronglySorted (key_le fst) (sorted_timed strptime entries).
Proof. apply sort_by_sorted. Qed.

Lemma sorted_timed_perm (strptime : string → option Z) (entries : list LogRecord) :
  sorted_timed strptime entries ≡ₚ timed_of strptime entries.
Proof. apply sort_by_perm. Qed.

(** The records of [timed] are those of the batch that parse, in order. *)
Lemma timed_of_omap (strptime : string → option Z) (entries : list LogRecord) :
  timed_of strptime entries
  = omap (λ e, (λ dt, (dt, e)) <$> _parse_timestamp strptime (get_timestamp e)) entries.
Proof.
  induction entries as [|e tl IH]; simpl; [done|].
  destruct (_parse_timestamp strptime (get_timestamp e)); simpl; by rewrite IH.
Qed.

(** Three records at [t0], [t0 + 50] and [t0 + 130], in any order of
    arrival, sort into that order. *)
Lemma sorted_timed_three (strptime : string → option Z) (l : list LogRecord)
    (e0 e1 e2 : LogRecord) (t0 : Z) :
  l ≡ₚ [e0; e1; e2] →
  _parse_timestamp strptime (get_timestamp e0) = Some t0 →
  _parse_timestamp strptime (get_timestamp e1) = Some (t0 + 50) →
  _parse_timestamp strptime (get_timestamp e2) = Some (t0 + 130) →
  sorted_timed strptime l = [(t0, e0); (t0 + 50, e1); (t0 + 130, e2)].
Proof.
  intros Hp H0 H1 H2.
  set (lt := λ a b : Z * LogRecord, fst a < fst b).
  assert (AntiSymm (=) lt) by (intros a b; unfold lt; lia).
  assert (Hperm : sorted_timed strptime l ≡ₚ [(t0, e0); (t0 + 50, e1); (t0 + 130, e2)]).
  { rewrite sorted_timed_perm, timed_of_omap, Hp. simpl.
    by rewrite H0, H1, H2. }
  apply (StronglySorted_unique lt); [| |exact Hperm].
  - pose proof (sorted_timed_sorted strptime l) as Hs.
    assert (Hnd : NoDup (map fst (sorted_timed strptime l))).
    { rewrite Hperm. simpl.
      repeat (apply NoDup_cons; split;
              [rewrite ?elem_of_cons, ?elem_of_nil; lia|]).
      constructor. }
    revert Hs Hnd. generalize (sorted_timed strptime l). clear.
    induction 1 as [|x tl Hs IH Hall]; intros Hnd; [constructor|].
    simpl in Hnd. apply NoDup_cons in Hnd as [Hx Hnd].
    constructor; [by apply IH|].
    apply Forall_forall. intros y Hy.
    rewrite Forall_forall in Hall. specialize (Hall y Hy).
    unfold key_le in Hall. unfold lt.
    assert (fst x ≠ fst y).
    { intros Heq. apply Hx. rewrite Heq. by apply list_elem_of_fmap_2. }
    lia.
  - repeat constructor; unfold lt; simpl; lia.
Qed.

(** C2. The time-window grouper sorts the time-parsable records by
    instant (ascending, a permutation of them) and makes the greedy
    single pass over them: a record within [window] seconds of the start
    of the current group (its first record) joins it, any other one closes
    it (kept only from size 2) and anchors the next. With a window of 60
    and records at [t0], [t0 + 50] and [t0 + 130], in any order, the
    result is the one group of the first two. *)
Theorem time_window_grouper_greedy (strptime : string → option Z)
    (entries : list LogRecord) (window : Z) :
  StronglySorted (key_le fst) (sorted_timed strptime entries)
  ∧ sorted_timed strptime entries ≡ₚ timed_of strptime entries
  ∧ _build_time_groups strptime entries window
    = greedy_groups window (sorted_timed strptime entries)
  ∧ (∀ (e0 e1 e2 : LogRecord) (t0 : Z),
       entries ≡ₚ [e0; e1; e2] →
       _parse_timestamp strptime (get_timestamp e0) = Some t0 →
       _parse_timestamp strptime (get_timestamp e1) = Some (t0 + 50) →
       _parse_timestamp strptime (get_timestamp e2) = Some (t0 + 130) →
       _build_time_groups strptime entries 60 = [[e0; e1]]).
Proof.
  split; [apply sorted_timed_sorted|].
  split; [apply sorted_timed_perm|].
  split; [apply build_time_groups_greedy|].
  intros e0 e1 e2 t0 Hp H0 H1 H2.
  rewrite build_time_groups_greedy.
  rewrite (sorted_timed_three strptime entries e0 e1 e2 t0 Hp H0 H1 H2).
  simp greedy_groups. simpl. unfold within; simpl.
  replace (t0 + 50 - t0 <=? 60) with true by (symmetry; apply Z.leb_le; lia).
  simpl.
  replace (t0 + 130 - t0 <=? 60) with false by (symmetry; apply Z.leb_gt; lia).
  simpl. simp greedy_groups. simpl. by simp greedy_groups.
Qed.

Lemma time_window_grouper_greedy_witness :
  _build_time_groups strptime_iso
    [ts_record "2024-05-01 10:02:10" 3; ts_record "2024-05-01 10:00:00" 1;
     ts_record "2024-05-01 10:00:50" 2] 60
  = [[ts_record "2024-05-01 10:00:00" 1; ts_record "2024-05-01 10:00:50" 2]].
Proof.
  refine (proj2 (proj2 (proj2 (time_window_grouper_greedy strptime_iso _ 60)))
            (ts_record "2024-05-01 10:00:00" 1) (ts_record "2024-05-01 10:00:50" 2)
            (ts_record "2024-05-01 10:02:10" 3) 63850154400 _ _ _ _).
  - apply Permutation_cons_append.
  - reflexivity.
  - reflexivity.
  - reflexivity.
Defined.

(** Two records in the order of their instants. *)
Lemma sorted_timed_two (strptime : string → option Z) (e0 e1 : LogRecord) (t0 t1 : Z) :
  _parse_timestamp strptime (get_timestamp e0) = Some t0 →
  _parse_timestamp strptime (get_timestamp e1) = Some t1 →
  t0 <= t1 →
  sorted_timed strptime [e0; e1] = [(t0, e0); (t1, e1)].
Proof.
  intros H0 H1 Hle. unfold sorted_timed. simpl. rewrite H0, H1.
  apply sort_by_id. repeat constructor. unfold key_le; simpl; lia.
Qed.

(** C10. The boundary of the window is inclusive. In the loop, a record
    at most [window] seconds after the start of the group, and so one
    exactly [window] seconds after it, is appended to the group; a record
    more than [window] seconds after it closes the group and anchors the
    next. So a record exactly [window] seconds after the first one shares
    its group, one second more and it does not; with the default of 60 as
    with any window. *)
Theorem time_window_boundary_inclusive (strptime : string → option Z)
    (window : Z) (st : tg_state) (dt : Z) (e : LogRecord) :
  (dt - tg_start st <= window →
     tg_step window st (dt, e)
     = TgState (tg_groups st) (tg_current st ++ [e]) (tg_start st))
  ∧ (dt = tg_start st + window →
       tg_step window st (dt, e)
       = TgState (tg_groups st) (tg_current st ++ [e]) (tg_start st))
  ∧ (window < dt - tg_start st →
       tg_step window st (dt, e)
       = TgState (close_group (tg_groups st) (tg_current st)) [e] dt)
  ∧ (∀ (e0 e1 : LogRecord) (t0 : Z),
       0 <= window →
       _parse_timestamp strptime (get_timestamp e0) = Some t0 →
       _parse_timestamp strptime (get_timestamp e1) = Some (t0 + window) →
       _build_time_groups strptime [e0; e1] window = [[e0; e1]])
  ∧ (∀ (e0 e1 : LogRecord) (t0 t1 : Z),
       _parse_timestamp strptime (get_timestamp e0) = Some t0 →
       _parse_timestamp strptime (get_timestamp e1) = Some t1 →
       t0 + window < t1 → t0 <= t1 →
       _build_time_groups strptime [e0; e1] window = [])
  ∧ TIME_WINDOW = 60.
Proof.
  assert (Hin : dt - tg_start st <= window →
     tg_step window st (dt, e)
     = TgState (tg_groups st) (tg_current st ++ [e]) (tg_start st)).
  { intros H. unfold tg_step. simpl.
    by replace (dt - tg_start st <=? window) with true by (symmetry; apply Z.leb_le; lia). }
  split; [exact Hin|].
  split; [intros ->; apply Hin; lia|].
  split.
  { intros H. unfold tg_step. simpl.
    by replace (dt - tg_start st <=? window) with false by (symmetry; apply Z.leb_gt; lia). }
  split; [|split; [|done]].
  - intros e0 e1 t0 Hw H0 H1. unfold _build_time_groups.
    rewrite (sorted_timed_two strptime e0 e1 t0 (t0 + window) H0 H1) by lia.
    simpl. unfold tg_step. simpl.
    by replace (t0 + window - t0 <=? window) with true by (symmetry; apply Z.leb_le; lia).
  - intros e0 e1 t0 t1 H0 H1 Hgt Hle. unfold _build_time_groups.
    rewrite (sorted_timed_two strptime e0 e1 t0 t1 H0 H1 Hle).
    simpl. unfold tg_step. simpl.
    by replace (t1 - t0 <=? window) with false by (symmetry; apply Z.leb_gt; lia).
Qed.

Lemma time_window_boundary_inclusive_witness :
  _build_time_groups strptime_iso
    [ts_record "2024-05-01 10:00:00" 1; ts_record "2024-05-01 10:01:00" 2] TIME_WINDOW
  = [[ts_record "2024-05-01 10:00:00" 1; ts_record "2024-05-01 10:01:00" 2]]
  ∧ _build_time_groups strptime_iso
      [ts_record "2024-05-01 10:00:00" 1; ts_record "2024-05-01 10:01:01" 2] TIME_WINDOW
    = [].
Proof.
  pose proof (time_window_boundary_inclusive strptime_iso TIME_WINDOW
                (TgState [] [] 0) 0 (ts_record "2024-05-01 10:00:00" 1))
    as (_ & _ & _ & Hsame & Hnext & _).
  split.
  - apply (Hsame _ _ 63850154400); [unfold TIME_WINDOW; lia|reflexivity|reflexivity].
  - apply (Hnext _ _ 63850154400 63850154461);
      [reflexivity|reflexivity|unfold TIME_WINDOW; lia|lia].
Defined.

(** ** FrequencyAccelerationDetector *)

Lemma gaps_of_cons (t0 t1 : Z) (tl : list Z) :
  gaps_of (t0 :: t1 :: tl) = (t1 - t0) :: gaps_of (t1 :: tl).
Proof.
  unfold gaps_of. simpl length.
  replace (S (S (length tl)) - 1)%nat with (S (length tl)) by lia.
  replace (S (length tl) - 1)%nat with (length tl) by lia.
  simpl. f_equal.
  rewrite <- seq_shift, map_map.
  apply map_ext_in. intros i Hi%in_seq.
  destruct i as [|i]; [lia|]. simpl. by rewrite Nat.sub_0_r.
Qed.

(** The gaps the loop computes by index are the gaps between
    consecutive instants. *)
Lemma gaps_of_between (instants : list Z) : gaps_of instants = gaps_between instants.
Proof.
  induction instants as [|t0 [|t1 tl] IH]; [done..|].
  rewrite gaps_of_cons, IH. done.
Qed.

Lemma filter_shift_length (P Q : nat → bool) (idx : list nat) :
  (∀ i, In i idx → P (S i) = Q i) →
  length (List.filter P (map S idx)) = length (List.filter Q idx).
Proof.
  induction idx as [|i idx IH]; intros HPQ; simpl; [done|].
  rewrite (HPQ i) by (by left).
  destruct (Q i); simpl; rewrite IH; auto; intros; apply HPQ; by right.
Qed.

Lemma decreasing_of_cons (g0 g1 : Z) (tl : list Z) :
  decreasing_of (g0 :: g1 :: tl)
  = if g1 <? g0 then S (decreasing_of (g1 :: tl)) else decreasing_of (g1 :: tl).
Proof.
  unfold decreasing_of. simpl length.
  replace (S (S (length tl)) - 1)%nat with (S (length tl)) by lia.
  replace (S (length tl) - 1)%nat with (length tl) by lia.
  assert (Htail :
    length (List.filter
              (λ i, at_index (g0 :: g1 :: tl) i <? at_index (g0 :: g1 :: tl) (i - 1))
              (seq 2 (length tl)))
    = length (List.filter (λ i, at_index (g1 :: tl) i <? at_index (g1 :: tl) (i - 1))
                (seq 1 (length tl)))).
  { rewrite <- seq_shift. apply filter_shift_length.
    intros i Hi%in_seq. destruct i as [|i]; [lia|].
    simpl. by rewrite Nat.sub_0_r. }
  simpl. unfold at_index at 1 2. simpl. rewrite Nat.sub_0_r.
  destruct (g1 <? g0); simpl; by rewrite Htail.
Qed.

(** The count the loop makes by index is the number of comparisons in
    which the gap decreases. *)
Lemma decreasing_of_drops (gaps : list Z) : decreasing_of gaps = drops gaps.
Proof.
  induction gaps as [|g0 [|g1 tl] IH]; [done..|].
  rewrite decreasing_of_cons, IH. done.
Qed.

Lemma gaps_between_length (instants : list Z) :
  length (gaps_between instants) = (length instants - 1)%nat.
Proof.
  induction instants as [|t0 [|t1 tl] IH]; [done..|].
  change (gaps_between (t0 :: t1 :: tl)) with ((t1 - t0) :: gaps_between (t1 :: tl)).
  simpl length in *. lia.
Qed.

(** A service fires exactly when it has three instants and its gaps
    pass the test. *)
Lemma frequency_signal_fires (strptime : string → option Z) (svc : string)
    (entries : list LogRecord) :
  let gaps := gaps_between (map fst (sorted_timed strptime entries)) in
  is_Some (frequency_signal strptime svc entries)
  ↔ (3 <= length (timed_of strptime entries)
     ∧ length gaps / 2 <= drops gaps ∧ 1 <= drops gaps)%nat.
Proof.
  intros gaps. unfold frequency_signal.
  assert (Hlen : length (sorted_timed strptime entries)
                 = length (timed_of strptime entries)) by apply sort_by_length.
  rewrite gaps_of_between. fold gaps.
  assert (Hg : length gaps = (length (timed_of strptime entries) - 1)%nat).
  { unfold gaps. by rewrite gaps_between_length, length_map, Hlen. }
  rewrite Hlen.
  destruct (Nat.ltb_spec (length (timed_of strptime entries)) 3) as [Hlt|Hge].
  { split; [by intros [? ?]|lia]. }
  unfold accelerating. rewrite decreasing_of_drops.
  replace (2 <=? length gaps)%nat with true by (symmetry; apply Nat.leb_le; lia).
  rewrite andb_true_l.
  set (c := ((length gaps / 2 <=? drops gaps) && (1 <=? drops gaps))%nat).
  assert (Hc : c = true ↔ (length gaps / 2 <= drops gaps ∧ 1 <= drops gaps)%nat).
  { unfold c. by rewrite andb_true_iff, !Nat.leb_le. }
  destruct c.
  - split; [intros _; split; [done|by apply Hc] | by eexists].
  - split; [by intros [? ?]|]. intros [_ H]. apply Hc in H. done.

Qed.

Lemma frequency_signal_service (strptime : string → option Z) (svc : string)
    (entries : list LogRecord) (s : Signal) :
  frequency_signal strptime svc entries = Some s → sig_service s = svc.
Proof.
  unfold frequency_signal.
  repeat match goal with |- context [if ?b then _ else _] => destruct b end;
    intros [= <-]; done.
Qed.

Lemma assoc_functional {K V} (l : list (K * V)) (k : K) (v1 v2 : V) :
  NoDup (map fst l) → (k, v1) ∈ l → (k, v2) ∈ l → v1 = v2.
Proof.
  induction l as [|[k' v'] tl IH]; simpl; intros Hnd H1 H2.
  - by apply elem_of_nil in H1.
  - apply NoDup_cons in Hnd as [Hk Hnd].
    apply elem_of_cons in H1 as [H1|H1], H2 as [H2|H2].
    + congruence.
    + injection H1 as -> ->. exfalso. apply Hk.
      by apply (list_elem_of_fmap_2 fst) in H2.
    + injection H2 as -> ->. exfalso. apply Hk.
      by apply (list_elem_of_fmap_2 fst) in H1.
    + by apply IH.
Qed.

(** C1 (as amended). For a service with at least 3 time-parsable
    records, the detector fires a signal exactly when the count of
    strictly decreasing gap-to-gap comparisons over the gaps of the sorted
    instants is at least half of the number of gaps (floor division; the
    number of gaps, one more than the number of comparisons) and at
    least 1. *)
Theorem frequency_acceleration_fires (strptime : string → option Z)
    (entries_by_service : by_service) (svc : string) (entries : list LogRecord) :
  NoDup (map fst entries_by_service) →
  (svc, entries) ∈ entries_by_service →
  (3 <= length (timed_of strptime entries))%nat →
  let gaps := gaps_between (map fst (sorted_timed strptime entries)) in
  (∃ s, s ∈ _detect_frequency_acceleration strptime entries_by_service
        ∧ sig_service s = svc)
  ↔ (length gaps / 2 <= drops gaps ∧ 1 <= drops gaps)%nat.
Proof.
  intros Hnd Hin Hlen gaps.
  pose proof (frequency_signal_fires strptime svc entries) as Hfires.
  simpl in Hfires. fold gaps in Hfires.
  unfold _detect_frequency_acceleration. split.
  - intros (s & Hs & Hsvc).
    apply list_elem_of_omap in Hs as ([k es] & Hkv & Hsig). simpl in Hsig.
    pose proof (frequency_signal_service _ _ _ _ Hsig) as Hk.
    rewrite Hsvc in Hk. subst k.
    rewrite (assoc_functional _ _ _ _ Hnd Hin Hkv) in Hfires.
    apply Hfires. by eexists.
  - intros Hrule.
    destruct (proj2 Hfires (conj Hlen Hrule)) as [s Hs].
    exists s. split; [|by eapply frequency_signal_service].
    apply list_elem_of_omap. by exists (svc, entries).
Qed.

Lemma frequency_acceleration_fires_witness :
  (∃ s, s ∈ _detect_frequency_acceleration strptime_iso [("api", accelerating_batch)]
        ∧ sig_service s = "api")
  ↔ (length accelerating_gaps / 2 <= drops accelerating_gaps)%nat
    ∧ (1 <= drops accelerating_gaps)%nat.
Proof.
  apply (frequency_acceleration_fires strptime_iso
           [("api", accelerating_batch)] "api" accelerating_batch).
  - repeat constructor. by intros ?%elem_of_nil.
  - by apply list_elem_of_singleton.
  - vm_compute. lia.
Defined.

(** C1 as stated fails on [uneven_batch]: the count of decreasing
    comparisons is at least half of the number of comparisons and at
    least 1, and no signal fires. *)
Lemma frequency_half_of_comparisons_counterexample :
  let gaps := gaps_between (map fst (sorted_timed strptime_iso uneven_batch)) in
  (3 <= length (timed_of strptime_iso uneven_batch))%nat
  ∧ gaps = [10; 5; 20; 30]
  ∧ (comparisons gaps / 2 <= drops gaps ∧ 1 <= drops gaps)%nat
  ∧ frequency_signal strptime_iso "api" uneven_batch = None
  ∧ _detect_frequency_acceleration strptime_iso [("api", uneven_batch)] = [].
Proof.
  vm_compute. repeat split; lia.
Qed.

(** ** The actionable-level filter *)

Lemma dict_append_keys (svc : string) (e : LogRecord) (d : by_service) :
  map fst (dict_append svc e d)
  = if bool_decide (svc ∈ map fst d) then map fst d else map fst d ++ [svc].
Proof.
  induction d as [|[k es] tl IH]; simpl; [done|].
  - destruct (bool_decide_reflect (k = svc)) as [->|Hne]; simpl.
    + rewrite bool_decide_eq_true_2; [done|]. by left.
    + rewrite IH.
      destruct (bool_decide_reflect (svc ∈ map fst tl)) as [Hin|Hnin].
      * rewrite bool_decide_eq_true_2; [done|]. by right.
      * rewrite bool_decide_eq_false_2; [done|].
        intros [?|?]%elem_of_cons; congruence.
Qed.

Lemma dict_append_elem (svc : string) (e : LogRecord) (d : by_service)
    (k : string) (es : list LogRecord) :
  NoDup (map fst d) →
  (k, es) ∈ dict_append svc e d
  ↔ (k ≠ svc ∧ (k, es) ∈ d)
    ∨ (k = svc ∧ ((∃ es0, (svc, es0) ∈ d ∧ es = es0 ++ [e])
                  ∨ ((svc ∉ map fst d) ∧ es = [e]))).
Proof.
  induction d as [|[k' es'] tl IH]; simpl; intros Hnd.
  - rewrite list_elem_of_singleton.
    split; [intros [= -> ->]|]; [|set_solver].
    right. split; [done|]. right. split; [|done]. by intros ?%elem_of_nil.
  - apply NoDup_cons in Hnd as [Hk' Hnd]. specialize (IH Hnd).
    assert (Hfst : ∀ v, (k', v) ∈ tl → False).
    { intros v Hv. apply Hk'. by apply (list_elem_of_fmap_2 fst) in Hv. }
    assert (Hkeys : ∀ v, (svc, v) ∈ tl → svc ∈ map fst tl).
    { intros v Hv. by apply (list_elem_of_fmap_2 fst) in Hv. }
    destruct (bool_decide_reflect (k' = svc)) as [->|Hne]; simpl.
    + rewrite !elem_of_cons. split.
      * intros [[= -> ->]|Hin].
        -- right. split; [done|]. left. exists es'. split; [by left|done].
        -- left. split; [|by right]. intros ->. by eapply Hfst.
      * intros [[Hks [Heq|Hin]]|[-> H]].
        -- congruence.
        -- by right.
        -- destruct H as [(es0 & [Heq|Hin]%elem_of_cons & ->)|[Hnin _]].
           ++ left. congruence.
           ++ exfalso. by eapply Hfst.
           ++ exfalso. apply Hnin. by left.
    + rewrite !elem_of_cons, IH. split.
      * intros [Heq|[[Hks Hin]|[-> H]]].
        -- injection Heq as -> ->. left. split; [congruence|by left].
        -- left. split; [done|by right].
        -- right. split; [done|]. destruct H as [(es0 & Hin & ->)|[Hnin ->]].
           ++ left. exists es0. split; [by right|done].
           ++ right. split; [|done]. intros [?|?]; congruence.
      * intros [[Hks [Heq|Hin]]|[-> H]].
        -- by left.
        -- right. left. done.
        -- right. right. split; [done|].
           destruct H as [(es0 & [Heq|Hin]%elem_of_cons & ->)|[Hnin ->]].
           ++ congruence.
           ++ left. by exists es0.
           ++ right. split; [|done]. intros Hin. apply Hnin. by right.
Qed.

Lemma group_by_service_snoc (l : list LogRecord) (e : LogRecord) :
  group_by_service (l ++ [e]) = group_step (group_by_service l) e.
Proof. unfold group_by_service. by rewrite fold_left_app. Qed.

Lemma selected_snoc (svc : string) (l : list LogRecord) (e : LogRecord) :
  List.filter (selected svc) (l ++ [e])
  = List.filter (selected svc) l ++ (if selected svc e then [e] else []).
Proof. rewrite List.filter_app. simpl. by destruct (selected svc e). Qed.

(** The dictionary holds, for every key, the records selected for it, in
    the order of the batch, and has a key only when there is one. *)
Lemma group_by_service_spec (l : list LogRecord) :
  NoDup (map fst (group_by_service l))
  ∧ ∀ svc es, (svc, es) ∈ group_by_service l
              ↔ es = List.filter (selected svc) l ∧ es ≠ [].
Proof.
  induction l as [|e l [IHnd IH]] using rev_ind.
  - split; [constructor|]. intros svc es. simpl. split.
    + by intros ?%elem_of_nil.
    + by intros [-> ?].
  - rewrite group_by_service_snoc. unfold group_step.
    destruct (is_actionable e) eqn:Hact.
    + split.
      * rewrite dict_append_keys. case_bool_decide as Hin; [done|].
        apply NoDup_app. split; [done|]. split; [|repeat constructor; by intros ?%elem_of_nil].
        intros x Hx ->%list_elem_of_singleton. done.
      * intros svc es. rewrite dict_append_elem by done.
        rewrite selected_snoc. unfold selected at 2. rewrite Hact. simpl.
        split.
        -- intros [[Hne Hin]|[-> [(es0 & Hin & ->)|[Hnin ->]]]].
           ++ apply IH in Hin as [-> Hnil].
              rewrite bool_decide_eq_false_2 by congruence.
              by rewrite app_nil_r.
           ++ apply IH in Hin as [-> Hnil].
              rewrite bool_decide_eq_true_2 by done.
              split; [done|]. by intros [? ?]%app_eq_nil.
           ++ rewrite bool_decide_eq_true_2 by done.
              destruct (List.filter (selected (service_key e)) l) as [|x xs] eqn:Hf;
                [done|].
              exfalso. apply Hnin.
              apply (list_elem_of_fmap_2' fst _ (service_key e, x :: xs)); [|done].
              apply IH. by rewrite Hf.
        -- intros [-> Hnil].
           destruct (bool_decide_reflect (service_key e = svc)) as [Heq|Hne].
           ++ subst svc. right. split; [done|].
              destruct (List.filter (selected (service_key e)) l) as [|x xs] eqn:Hf.
              ** right. split; [|done].
                 intros ((k & es0) & Hk & Hin)%list_elem_of_fmap. simpl in Hk. subst k.
                 apply IH in Hin as [-> Hnil']. by rewrite Hf in Hnil'.
              ** left. exists (x :: xs). split; [|done]. apply IH. by rewrite Hf.
           ++ left. split; [congruence|]. apply IH.
              rewrite app_nil_r in Hnil |- *. done.
    + split; [done|]. intros svc es. rewrite IH, selected_snoc.
      assert (Hsel : selected svc e = false) by (unfold selected; by rewrite Hact).
      rewrite Hsel. by rewrite app_nil_r.
Qed.

(** C7 (as amended). The filter keeps exactly the records whose level is
    one of CRITICAL, ERROR, WARN, WARNING and partitions them by service:
    every key holds the kept records of its service in the order of the
    batch, and only services with a kept record have a key. A record
    without a service goes under the key [unknown]; a record whose service
    is a text, the empty one too, goes under that text. *)
Theorem actionable_filter_partition (log_entries : list LogRecord) :
  NoDup (map fst (group_by_service log_entries))
  ∧ (∀ svc es,
       (svc, es) ∈ group_by_service log_entries
       ↔ es = List.filter
                (λ e, bool_decide (get_level e ∈ ["CRITICAL"; "ERROR"; "WARN"; "WARNING"])
                      && bool_decide (service_key e = svc)) log_entries
         ∧ es ≠ [])
  ∧ (∀ e, service e = None → service_key e = "unknown")
  ∧ (∀ e s, service e = Some s → service_key e = s).
Proof.
  destruct (group_by_service_spec log_entries) as [Hnd Hspec].
  split; [done|]. split; [exact Hspec|].
  split; unfold service_key; [by intros e ->|by intros e s ->].
Qed.

Lemma actionable_filter_partition_witness :
  service_key missing_service_record = "unknown"
  ∧ group_by_service
      [log_record "2024-05-01 10:00:00" "api" "INFO" "started" 1;
       missing_service_record;
       log_record "2024-05-01 10:00:02" "api" "WARN" "slow" 3]
    = [("unknown", [missing_service_record]);
       ("api", [log_record "2024-05-01 10:00:02" "api" "WARN" "slow" 3])].
Proof.
  split; [|reflexivity].
  apply (proj1 (proj2 (proj2 (actionable_filter_partition [])))). reflexivity.
Defined.

(** C7 as stated fails on [empty_service_record]: its service is the
    empty text, it is kept, and it is grouped under the empty text, not
    under [unknown]. *)
Lemma empty_service_counterexample :
  service empty_service_record = Some EmptyString
  ∧ group_by_service [empty_service_record] = [(EmptyString, [empty_service_record])]
  ∧ "unknown" ∉ map fst (group_by_service [empty_service_record]).
Proof.
  split; [reflexivity|]. split; [reflexivity|].
  simpl. intros [H|H%elem_of_nil]%elem_of_cons; [discriminate H|done].
Qed.

(** ** CandidateMerger *)

(** *** The dictionary of a merge *)

Lemma dict_set_keys (k : Z) (e : LogRecord) (d : list (Z * LogRecord)) :
  map fst (dict_set k e d)
  = if bool_decide (k ∈ map fst d) then map fst d else map fst d ++ [k].
Proof.
  induction d as [|[k' v] tl IH]; simpl; [done|].
  destruct (bool_decide_reflect (k' = k)) as [->|Hne]; simpl.
  - rewrite bool_decide_eq_true_2; [done|]. by left.
  - rewrite IH.
    destruct (bool_decide_reflect (k ∈ map fst tl)) as [Hin|Hnin].
    + rewrite bool_decide_eq_true_2; [done|]. by right.
    + rewrite bool_decide_eq_false_2; [done|].
      intros [?|?]%elem_of_cons; congruence.
Qed.

Lemma dict_set_elem (k : Z) (e : LogRecord) (d : list (Z * LogRecord))
    (kv : Z * LogRecord) :
  kv ∈ dict_set k e d → kv = (k, e) ∨ kv ∈ d.
Proof.
  induction d as [|[k' v] tl IH]; simpl.
  - intros ->%list_elem_of_singleton. by left.
  - destruct (bool_decide (k' = k)); intros [->|Hin]%elem_of_cons.
    + by left.
    + right. by right.
    + right. by left.
    + destruct (IH Hin) as [->|?]; [by left|]. right. by right.
Qed.

Lemma dict_set_ok (l : list LogRecord) (e : LogRecord) (d : list (Z * LogRecord)) :
  e ∈ l → dict_ok l d → dict_ok l (dict_set (get_line_number e) e d).
Proof.
  intros He [Hnd Hall]. split.
  - rewrite dict_set_keys. case_bool_decide as Hin; [done|].
    apply NoDup_app. split; [done|].
    split; [|repeat constructor; by intros ?%elem_of_nil].
    by intros x Hx ->%list_elem_of_singleton.
  - apply Forall_forall. intros kv [->|Hkv]%dict_set_elem; [done|].
    rewrite Forall_forall in Hall. by apply Hall.
Qed.

Lemma dict_fold_ok (l l' : list LogRecord) (d : list (Z * LogRecord)) :
  (∀ e, e ∈ l' → e ∈ l) → dict_ok l d →
  dict_ok l (fold_left (λ d e, dict_set (get_line_number e) e d) l' d).
Proof.
  revert d. induction l' as [|e tl IH]; intros d Hsub Hok; simpl; [done|].
  apply IH; [intros x Hx; apply Hsub; by right|].
  apply dict_set_ok; [apply Hsub; by left|done].
Qed.

Lemma dict_fold_keys (l' : list LogRecord) (d : list (Z * LogRecord)) :
  list_to_set (map fst (fold_left (λ d e, dict_set (get_line_number e) e d) l' d))
  = (list_to_set (map fst d) ∪ line_set l' : gset Z).
Proof.
  revert d. induction l' as [|e tl IH]; intros d; simpl.
  - unfold line_set. simpl. by rewrite union_empty_r_L.
  - rewrite IH, dict_set_keys. unfold line_set. simpl.
    case_bool_decide as Hin.
    + apply set_eq. intros x. rewrite !elem_of_union, elem_of_singleton.
      rewrite !elem_of_list_to_set. split; [naive_solver|].
      intros [?|[->|?]]; auto.
    + rewrite list_to_set_app_L. simpl. rewrite union_empty_r_L.
      by rewrite (assoc_L (∪)).
Qed.

Lemma dict_of_entries_ok (l : list LogRecord) : dict_ok l (dict_of_entries l).
Proof.
  apply dict_fold_ok; [done|]. split; [constructor|constructor].
Qed.

Lemma dict_of_entries_keys (l : list LogRecord) :
  list_to_set (map fst (dict_of_entries l)) = line_set l.
Proof.
  unfold dict_of_entries. rewrite dict_fold_keys. simpl. by rewrite union_empty_l_L.
Qed.

Lemma merged_line_numbers (cluster tg : list LogRecord) :
  map get_line_number (merged_entries cluster tg)
  = map fst (dict_of_entries (cluster ++ tg)).
Proof.
  unfold merged_entries. rewrite map_map.
  destruct (dict_of_entries_ok (cluster ++ tg)) as [_ Hall].
  induction Hall as [|kv d [Hkv _] _ IH]; simpl; [done|]. by rewrite Hkv, IH.
Qed.

Lemma merged_NoDup (cluster tg : list LogRecord) :
  NoDup (map get_line_number (merged_entries cluster tg)).
Proof. rewrite merged_line_numbers. apply dict_of_entries_ok. Qed.

Lemma merged_line_set (cluster tg : list LogRecord) :
  line_set (merged_entries cluster tg) = line_set cluster ∪ line_set tg.
Proof.
  unfold line_set at 1. rewrite merged_line_numbers, dict_of_entries_keys.
  unfold line_set. by rewrite map_app, list_to_set_app_L.
Qed.

Lemma merged_members (cluster tg : list LogRecord) (e : LogRecord) :
  e ∈ merged_entries cluster tg → e ∈ cluster ∨ e ∈ tg.
Proof.
  unfold merged_entries. intros (kv & -> & Hkv)%list_elem_of_fmap.
  destruct (dict_of_entries_ok (cluster ++ tg)) as [_ Hall].
  rewrite Forall_forall in Hall. apply Hall in Hkv as [_ Hin].
  by apply elem_of_app in Hin.
Qed.

Lemma merged_length (cluster tg : list LogRecord) :
  (2 <= size (line_set cluster ∩ line_set tg))%nat →
  (2 <= length (merged_entries cluster tg))%nat.
Proof.
  intros Hov.
  rewrite <- (length_map get_line_number).
  rewrite <- (size_list_to_set (C:=gset Z)) by apply merged_NoDup.
  fold (line_set (merged_entries cluster tg)). rewrite merged_line_set.
  etrans; [exact Hov|]. apply subseteq_size.
  intros x [? _]%elem_of_intersection. apply elem_of_union. by left.
Qed.

(** *** The tiers as lists of offers *)

Lemma add_all_app (o1 o2 : list offer) (st : mc_state) :
  add_all (o1 ++ o2) st = add_all o2 (add_all o1 st).
Proof. unfold add_all. apply fold_left_app. Qed.

Lemma overlap_inner_offers (cluster : list LogRecord)
    (time_groups : list (list LogRecord)) (st : mc_state) :
  fold_left (overlap_step cluster) time_groups st
  = add_all (omap (overlap_offer cluster) time_groups) st.
Proof.
  revert st. induction time_groups as [|tg tl IH]; intros st; simpl; [done|].
  rewrite IH. unfold overlap_step, overlap_offer, merged_entries.
  by destruct (2 <=? size (line_set cluster ∩ line_set tg))%nat.
Qed.

Lemma overlap_tier_offers (time_groups cross_refs : list (list LogRecord))
    (st : mc_state) :
  overlap_tier time_groups cross_refs st
  = add_all (overlap_offers time_groups cross_refs) st.
Proof.
  unfold overlap_tier, overlap_offers.
  revert st. induction cross_refs as [|c tl IH]; intros st; simpl; [done|].
  by rewrite IH, overlap_inner_offers, add_all_app.
Qed.

Lemma as_is_tier_offers (clusters : list (list LogRecord)) (st : mc_state) :
  as_is_tier clusters st = add_all (as_is_offers clusters) st.
Proof.
  unfold as_is_tier, as_is_offers, add_all.
  revert st. induction clusters as [|c tl IH]; intros st; simpl; [done|].
  by rewrite IH.
Qed.

Lemma mc_add_inv (c : list LogRecord) (s : gset Z) (st : mc_state) :
  s = line_set c → mc_inv st → mc_inv (mc_add c s st).
Proof.
  intros -> [Hseen Hnd]. unfold mc_add. case_bool_decide as Hin; [done|].
  split; simpl.
  - by rewrite map_app, Hseen.
  - apply NoDup_app. split; [done|].
    split; [|repeat constructor; by intros ?%elem_of_nil].
    by intros x Hx ->%list_elem_of_singleton.
Qed.

Lemma add_all_inv (offers : list offer) (st : mc_state) :
  offers_ok offers → mc_inv st → mc_inv (add_all offers st).
Proof.
  intros Hok. revert st. induction Hok as [|o tl Ho _ IH]; intros st Hinv; simpl;
    [done|].
  apply IH. by apply mc_add_inv.
Qed.

(** A candidate of the result was there before or was offered. *)
Lemma add_all_candidates (offers : list offer) (st : mc_state) (c : list LogRecord) :
  c ∈ candidates (add_all offers st) →
  c ∈ candidates st ∨ ∃ s, (c, s) ∈ offers.
Proof.
  revert st. induction offers as [|[c' s'] tl IH]; intros st; simpl; [by left|].
  intros Hc. destruct (IH _ Hc) as [Hin|[s Hs]].
  - unfold mc_add in Hin. simpl in Hin. case_bool_decide; [by left|].
    simpl in Hin. apply elem_of_app in Hin as [?| ->%list_elem_of_singleton];
      [by left|].
    right. exists s'. by left.
  - right. exists s. by right.
Qed.

(** The candidates and the sets seen only grow. *)
Lemma add_all_grows (offers : list offer) (st : mc_state) :
  ∃ cs ss, candidates (add_all offers st) = candidates st ++ cs
           ∧ seen_sets (add_all offers st) = seen_sets st ++ ss.
Proof.
  revert st. induction offers as [|[c s] tl IH]; intros st; simpl.
  - exists [], []. by rewrite !app_nil_r.
  - destruct (IH (mc_add c s st)) as (cs & ss & -> & ->).
    unfold mc_add. simpl. case_bool_decide; simpl; [by eauto|].
    exists ([c] ++ cs), ([s] ++ ss). by rewrite !app_assoc.
Qed.

(** Every set offered is seen in the end. *)
Lemma add_all_seen (offers : list offer) (st : mc_state) (o : offer) :
  o ∈ offers → snd o ∈ seen_sets (add_all offers st).
Proof.
  revert st. induction offers as [|o' tl IH]; intros st; simpl.
  - by intros ?%elem_of_nil.
  - intros [->|Hin]%elem_of_cons; [|by apply IH].
    destruct (add_all_grows tl (mc_add (fst o') (snd o') st)) as (cs & ss & _ & ->).
    apply elem_of_app. left. unfold mc_add. case_bool_decide; [done|].
    simpl. apply elem_of_app. right. by left.
Qed.

Lemma mc_inv_empty : mc_inv (McState [] []).
Proof. split; [done|constructor]. Qed.

Lemma overlap_offers_ok (time_groups cross_refs : list (list LogRecord)) :
  offers_ok (overlap_offers time_groups cross_refs).
Proof.
  apply Forall_forall. intros o Ho.
  apply list_elem_of_In, in_flat_map in Ho as (cluster & _ & Ho).
  apply list_elem_of_In, list_elem_of_omap in Ho as (tg & _ & Ho).
  unfold overlap_offer in Ho.
  destruct (2 <=? size (line_set cluster ∩ line_set tg))%nat; [|done].
  injection Ho as <-. simpl.
  rewrite merged_line_set, dict_of_entries_keys.
  unfold line_set. by rewrite map_app, list_to_set_app_L.
Qed.

Lemma mc_inv_no_candidates (st : mc_state) :
  mc_inv st → candidates st = [] → st = McState [] [].
Proof.
  destruct st as [cs ss]. intros [Hseen _] Hcs. simpl in *. by subst.
Qed.

Lemma overlap_tier_inv (time_groups cross_refs : list (list LogRecord)) :
  mc_inv (overlap_tier time_groups cross_refs (McState [] [])).
Proof.
  rewrite overlap_tier_offers.
  apply add_all_inv; [apply overlap_offers_ok|apply mc_inv_empty].
Qed.

Lemma as_is_offers_ok (clusters : list (list LogRecord)) :
  offers_ok (as_is_offers clusters).
Proof. apply Forall_forall. by intros o (c & -> & _)%list_elem_of_fmap. Qed.

Lemma as_is_tier_inv (clusters : list (list LogRecord)) :
  mc_inv (as_is_tier clusters (McState [] [])).
Proof.
  rewrite as_is_tier_offers.
  apply add_all_inv; [apply as_is_offers_ok|apply mc_inv_empty].
Qed.

(** The as-is tier, from nothing, yields nothing only for no clusters. *)
Lemma as_is_tier_nil (clusters : list (list LogRecord)) :
  candidates (as_is_tier clusters (McState [] [])) = [] ↔ clusters = [].
Proof.
  split; [|by intros ->].
  destruct clusters as [|c tl]; [done|]. intros Hnil. exfalso.
  unfold as_is_tier in Hnil. simpl in Hnil.
  fold (as_is_tier tl (mc_add c (line_set c) (McState [] []))) in Hnil.
  rewrite as_is_tier_offers in Hnil.
  destruct (add_all_grows (as_is_offers tl) (mc_add c (line_set c) (McState [] [])))
    as (cs & ss & Hc & _).
  rewrite Hc in Hnil. by destruct cs.
Qed.

(** The result is the output of the first tier that is not empty. *)
Lemma merge_candidates_by_tier (time_groups cross_refs : list (list LogRecord)) :
  let tier1 := candidates (overlap_tier time_groups cross_refs (McState [] [])) in
  let tier2 := candidates (as_is_tier cross_refs (McState [] [])) in
  let tier3 := candidates (as_is_tier time_groups (McState [] [])) in
  _merge_candidates time_groups cross_refs
  = match tier1 with
    | _ :: _ => tier1
    | [] => match tier2 with
            | _ :: _ => tier2
            | [] => tier3
            end
    end.
Proof.
  intros tier1 tier2 tier3.
  assert (Hgen :
    candidates
      (if_no_candidates (as_is_tier time_groups)
         (if_no_candidates (as_is_tier cross_refs)
            (overlap_tier time_groups cross_refs (McState [] []))))
    = match tier1 with
      | _ :: _ => tier1
      | [] => match tier2 with
              | _ :: _ => tier2
              | [] => tier3
              end
      end).
  { pose proof (overlap_tier_inv time_groups cross_refs) as Hinv1.
    subst tier1. unfold if_no_candidates at 2.
    destruct (candidates (overlap_tier time_groups cross_refs (McState [] [])))
      as [|c1 cs1] eqn:H1.
    - rewrite (mc_inv_no_candidates _ Hinv1 H1).
      pose proof (as_is_tier_inv cross_refs) as Hinv2.
      subst tier2. unfold if_no_candidates.
      destruct (candidates (as_is_tier cross_refs (McState [] []))) as [|c2 cs2] eqn:H2.
      + by rewrite (mc_inv_no_candidates _ Hinv2 H2).
      + by rewrite H2.
    - unfold if_no_candidates. by rewrite H1. }
  unfold _merge_candidates.
  destruct time_groups as [|tg tgs], cross_refs as [|cr crs]; exact Hgen.
Qed.

(** C3. The three tiers are evaluated in order and exclude one another:
    the result is the output of the overlap merge when that is not empty,
    else the cross-ref clusters as they are when that is not empty, else
    the time groups as they are; each tier here is computed on its own,
    from no candidates. The cross-ref tier is empty only without cross-ref
    clusters, so time groups are emitted as they are only then, and never
    next to cross-ref clusters emitted as they are: a cluster and a group
    that share no line number yield the cluster alone. *)
Theorem merge_tiers_exclusive (time_groups cross_refs : list (list LogRecord)) :
  let tier1 := candidates (overlap_tier time_groups cross_refs (McState [] [])) in
  let tier2 := candidates (as_is_tier cross_refs (McState [] [])) in
  let tier3 := candidates (as_is_tier time_groups (McState [] [])) in
  _merge_candidates time_groups cross_refs
  = match tier1 with
    | _ :: _ => tier1
    | [] => match tier2 with
            | _ :: _ => tier2
            | [] => tier3
            end
    end
  ∧ (tier2 = [] ↔ cross_refs = [])
  ∧ _merge_candidates [lone_group] [lone_cluster] = [lone_cluster]
  ∧ _merge_candidates [lone_group] [] = [lone_group].
Proof.
  intros tier1 tier2 tier3.
  split; [apply merge_candidates_by_tier|].
  split; [apply as_is_tier_nil|]. by vm_compute.
Qed.

Lemma overlap_offers_elem (time_groups cross_refs : list (list LogRecord)) (o : offer) :
  o ∈ overlap_offers time_groups cross_refs
  ↔ ∃ cluster tg, cluster ∈ cross_refs ∧ tg ∈ time_groups
                  ∧ overlap_offer cluster tg = Some o.
Proof.
  unfold overlap_offers. rewrite list_elem_of_In, in_flat_map. split.
  - intros (cluster & Hc & Ho).
    apply list_elem_of_In, list_elem_of_omap in Ho as (tg & Htg & Ho).
    exists cluster, tg. by rewrite list_elem_of_In.
  - intros (cluster & tg & Hc & Htg & Ho). exists cluster.
    split; [by apply list_elem_of_In|].
    apply list_elem_of_In, list_elem_of_omap. by exists tg.
Qed.

Lemma overlap_offer_Some (cluster tg : list LogRecord) (o : offer) :
  overlap_offer cluster tg = Some o
  ↔ (2 <= size (line_set cluster ∩ line_set tg))%nat
    ∧ o = (merged_entries cluster tg,
           list_to_set (map fst (dict_of_entries (cluster ++ tg)))).
Proof.
  unfold overlap_offer.
  destruct (Nat.leb_spec 2 (size (line_set cluster ∩ line_set tg))).
  - split; [by intros [= <-]|by intros [_ ->]].
  - split; [done|lia].
Qed.

(** A candidate of the overlap merge is the merge of a pair that shares
    two line numbers. *)
Lemma overlap_tier_candidates (time_groups cross_refs : list (list LogRecord))
    (c : list LogRecord) :
  c ∈ candidates (overlap_tier time_groups cross_refs (McState [] [])) →
  ∃ cluster tg, cluster ∈ cross_refs ∧ tg ∈ time_groups
                ∧ (2 <= size (line_set cluster ∩ line_set tg))%nat
                ∧ c = merged_entries cluster tg.
Proof.
  rewrite overlap_tier_offers.
  intros [Hc|[s Hs]]%add_all_candidates; [by apply elem_of_nil in Hc|].
  apply overlap_offers_elem in Hs as (cluster & tg & Hcl & Htg & Ho).
  apply overlap_offer_Some in Ho as [Hov [= -> _]].
  by exists cluster, tg.
Qed.

(** C4. In the overlap merge, a cross-ref cluster and a time group whose
    line-number sets share at least 2 members are merged into a candidate
    whose line numbers are the union of those of both, each line number
    once; the tier emits one candidate with that set of line numbers,
    every candidate it emits is such a merge, and no two of them have the
    same set of line numbers. *)
Theorem overlap_merge_union (time_groups cross_refs : list (list LogRecord)) :
  let tier1 := candidates (overlap_tier time_groups cross_refs (McState [] [])) in
  (∀ cluster tg,
     cluster ∈ cross_refs → tg ∈ time_groups →
     (2 <= size (line_set cluster ∩ line_set tg))%nat →
     line_set (merged_entries cluster tg) = line_set cluster ∪ line_set tg
     ∧ NoDup (map get_line_number (merged_entries cluster tg))
     ∧ ∃ c, c ∈ tier1 ∧ line_set c = line_set cluster ∪ line_set tg)
  ∧ (∀ c, c ∈ tier1 →
       ∃ cluster tg, cluster ∈ cross_refs ∧ tg ∈ time_groups
                     ∧ (2 <= size (line_set cluster ∩ line_set tg))%nat
                     ∧ c = merged_entries cluster tg)
  ∧ NoDup (map line_set tier1).
Proof.
  intros tier1.
  destruct (overlap_tier_inv time_groups cross_refs) as [Hseen Hnd].
  split; [|split].
  - intros cluster tg Hcl Htg Hov.
    split; [apply merged_line_set|]. split; [apply merged_NoDup|].
    set (o := (merged_entries cluster tg,
               list_to_set (map fst (dict_of_entries (cluster ++ tg))) : gset Z)).
    assert (Ho : o ∈ overlap_offers time_groups cross_refs).
    { apply overlap_offers_elem. exists cluster, tg.
      split; [done|]. split; [done|]. by apply overlap_offer_Some. }
    apply (add_all_seen _ (McState [] [])) in Ho.
    rewrite <- overlap_tier_offers, Hseen in Ho.
    apply list_elem_of_fmap in Ho as (c & Hc & Hin).
    exists c. split; [done|]. rewrite <- Hc. simpl.
    rewrite dict_of_entries_keys. unfold line_set.
    by rewrite map_app, list_to_set_app_L.
  - apply overlap_tier_candidates.
  - subst tier1. by rewrite <- Hseen.
Qed.

Lemma overlap_merge_union_witness :
  line_set (merged_entries overlap_cluster overlap_group)
  = line_set overlap_cluster ∪ line_set overlap_group
  ∧ NoDup (map get_line_number (merged_entries overlap_cluster overlap_group))
  ∧ ∃ c, c ∈ candidates (overlap_tier [overlap_group] [overlap_cluster] (McState [] []))
         ∧ line_set c = line_set overlap_cluster ∪ line_set overlap_group.
Proof.
  apply (proj1 (overlap_merge_union [overlap_group] [overlap_cluster])).
  - by apply list_elem_of_singleton.
  - by apply list_elem_of_singleton.
  - vm_compute. lia.
Defined.

(** *** The clusters of a run *)

Lemma run_after_split {A} (P : A → bool) (l : list A) :
  l = run_of P l ++ after_run P l.
Proof.
  induction l as [|x tl IH]; simpl; [done|].
  destruct (P x); simpl; [by rewrite <- IH|done].
Qed.

(** A group of the greedy pass has two records or more, all of them
    records of the list, in its order. *)
Lemma greedy_groups_members (window : Z) (l : list (Z * LogRecord))
    (g : list LogRecord) :
  g ∈ greedy_groups window l → (2 <= length g)%nat ∧ sublist g (map snd l).
Proof.
  funelim (greedy_groups window l); simp greedy_groups.
  - by intros ?%elem_of_nil.
  - intros [Hg|Hg]%elem_of_app.
    + unfold kept in Hg.
      destruct (Nat.leb_spec 2
        (length (snd x :: map snd (run_of (within window (fst x)) rest))));
        [|by apply elem_of_nil in Hg].
      apply list_elem_of_singleton in Hg as ->. split; [done|].
      simpl. apply sublist_skip.
      rewrite (run_after_split (within window (fst x)) rest) at 2.
      rewrite map_app. by apply sublist_inserts_r.
    + destruct (H g Hg) as [Hlen Hsub]. split; [done|].
      simpl. apply sublist_cons.
      rewrite (run_after_split (within window (fst x)) rest).
      rewrite map_app. by apply sublist_inserts_l.
Qed.

Lemma timed_of_sublist (strptime : string → option Z) (entries : list LogRecord) :
  sublist (map snd (timed_of strptime entries)) entries.
Proof.
  induction entries as [|e tl IH]; simpl; [done|].
  destruct (_parse_timestamp strptime (get_timestamp e)); simpl;
    [by apply sublist_skip|by apply sublist_cons].
Qed.

(** A time group has two records or more, and they are records of the
    sorted list of the batch, in its order. *)
Lemma time_group_members (strptime : string → option Z) (entries : list LogRecord)
    (window : Z) (g : list LogRecord) :
  g ∈ _build_time_groups strptime entries window →
  (2 <= length g)%nat ∧ sublist g (map snd (sorted_timed strptime entries)).
Proof. rewrite build_time_groups_greedy. apply greedy_groups_members. Qed.

Lemma time_group_NoDup (strptime : string → option Z) (entries : list LogRecord)
    (window : Z) (g : list LogRecord) :
  g ∈ _build_time_groups strptime entries window →
  NoDup (map get_line_number entries) →
  NoDup (map get_line_number g).
Proof.
  intros [_ Hsub]%time_group_members Hnd.
  eapply sublist_NoDup; [|by apply (fmap_sublist get_line_number), Hsub].
  change (NoDup (get_line_number <$> (snd <$> sorted_timed strptime entries))).
  rewrite sorted_timed_perm.
  eapply sublist_NoDup; [exact Hnd|].
  apply (fmap_sublist get_line_number), timed_of_sublist.
Qed.

Lemma time_group_elem (strptime : string → option Z) (entries : list LogRecord)
    (window : Z) (g : list LogRecord) (e : LogRecord) :
  g ∈ _build_time_groups strptime entries window → e ∈ g → e ∈ entries.
Proof.
  intros [_ Hsub]%time_group_members He.
  eapply elem_of_sublist; [|apply (timed_of_sublist strptime)].
  change (e ∈ snd <$> timed_of strptime entries).
  rewrite <- sorted_timed_perm. by eapply elem_of_sublist.
Qed.

Lemma sorted_indices_NoDup (s : gset nat) : NoDup (sorted_indices s).
Proof.
  unfold sorted_indices. rewrite sort_by_perm. apply NoDup_elements.
Qed.

(** Records taken at distinct indices of a batch with distinct line
    numbers have distinct line numbers. *)
Lemma lookup_cluster_NoDup (entries : list LogRecord) (idx : list nat) :
  NoDup (map get_line_number entries) → NoDup idx →
  NoDup (map get_line_number (omap (λ i, entries !! i) idx)).
Proof.
  intros Hnd. induction 1 as [|i idx Hi Hidx IH]; simpl; [constructor|].
  destruct (entries !! i) as [e|] eqn:He; [|done].
  simpl. apply NoDup_cons. split; [|done].
  intros (e' & Hln & He')%list_elem_of_fmap.
  apply list_elem_of_omap in He' as (j & Hj & Hlook).
  assert (i = j); [|by subst].
  eapply (NoDup_lookup _ i j (get_line_number e) Hnd).
  - change ((get_line_number <$> entries) !! i = Some (get_line_number e)).
    by rewrite list_lookup_fmap, He.
  - change ((get_line_number <$> entries) !! j = Some (get_line_number e)).
    by rewrite list_lookup_fmap, Hlook, Hln.
Qed.

Lemma lookup_cluster_elem (entries : list LogRecord) (idx : list nat) (e : LogRecord) :
  e ∈ omap (λ i, entries !! i) idx → e ∈ entries.
Proof.
  intros (i & _ & Hi)%list_elem_of_omap. by eapply list_elem_of_lookup_2.
Qed.

(** A cross-ref cluster has two records or more, taken at distinct
    indices of the batch. *)
Lemma xref_clusters_members (entries : list LogRecord) (all_services : list string)
    (c : list LogRecord) :
  c ∈ _find_cross_references entries all_services →
  (2 <= length c)%nat ∧ ∃ idx, NoDup idx ∧ c = omap (λ i, entries !! i) idx.
Proof.
  unfold _find_cross_references.
  generalize (map snd (xref_scan all_services 0 entries [])) as sets.
  intros sets.
  assert (Hgen : ∀ st,
    (∀ c, c ∈ fst st →
          (2 <= length c)%nat ∧ ∃ idx, NoDup idx ∧ c = omap (λ i, entries !! i) idx) →
    ∀ c, c ∈ fst (fold_left (xref_build_step entries) sets st) →
         (2 <= length c)%nat ∧ ∃ idx, NoDup idx ∧ c = omap (λ i, entries !! i) idx).
  { induction sets as [|s tl IH]; intros st Hst; simpl; [done|].
    apply IH. unfold xref_build_step.
    destruct (2 <=? size (s ∖ snd st))%nat; [|done].
    destruct (Nat.leb_spec 2
      (length (omap (λ i, entries !! i) (sorted_indices (s ∖ snd st))))); [|done].
    simpl. intros c' [Hc'| ->%list_elem_of_singleton]%elem_of_app; [by apply Hst|].
    split; [done|]. exists (sorted_indices (s ∖ snd st)).
    split; [apply sorted_indices_NoDup|done]. }
  apply Hgen. simpl. by intros c' ?%elem_of_nil.
Qed.

(** A candidate of the merger is a merge of the first tier, a cross-ref
    cluster or a time group. *)
Lemma merge_candidates_origin (time_groups cross_refs : list (list LogRecord))
    (c : list LogRecord) :
  c ∈ _merge_candidates time_groups cross_refs →
  c ∈ candidates (overlap_tier time_groups cross_refs (McState [] []))
  ∨ c ∈ cross_refs ∨ c ∈ time_groups.
Proof.
  rewrite (merge_candidates_by_tier time_groups cross_refs).
  assert (Has_is : ∀ cl, c ∈ candidates (as_is_tier cl (McState [] [])) → c ∈ cl).
  { intros cl. rewrite as_is_tier_offers.
    intros [Hc|[s Hs]]%add_all_candidates; [by apply elem_of_nil in Hc|].
    unfold as_is_offers in Hs.
    by apply list_elem_of_fmap in Hs as (c' & [= -> _] & Hin). }
  destruct (candidates (overlap_tier time_groups cross_refs (McState [] [])));
    [|by left].
  destruct (candidates (as_is_tier cross_refs (McState [] []))) eqn:H2.
  - intros Hc. right. right. by apply Has_is.
  - intros Hc. right. left. apply Has_is. by rewrite H2.
Qed.

(** C5 (as amended). Every cluster the merger produces from a batch has
    at least 2 records, all of them actionable records of the batch. A
    cluster of the overlap merge never has two records with the same
    line number; the clusters of the two other tiers are emitted as they
    are, and have no two records with the same line number when the
    actionable records of the batch have pairwise distinct line
    numbers. *)
Theorem clusters_size_and_dedup (strptime : string → option Z)
    (all_services : list string) (log_entries : list LogRecord)
    (c : list LogRecord) :
  c ∈ causal_candidates strptime all_services log_entries →
  let actionable := List.filter is_actionable log_entries in
  (2 <= length c)%nat
  ∧ (∀ e, e ∈ c → e ∈ actionable)
  ∧ (c ∈ candidates
           (overlap_tier (_build_time_groups strptime actionable TIME_WINDOW)
              (_find_cross_references actionable all_services) (McState [] [])) →
     NoDup (map get_line_number c))
  ∧ (NoDup (map get_line_number actionable) → NoDup (map get_line_number c)).
Proof.
  intros Hc actionable. unfold causal_candidates in Hc. fold actionable in Hc.
  destruct (length actionable <? 2)%nat; [by apply elem_of_nil in Hc|].
  set (tgs := _build_time_groups strptime actionable TIME_WINDOW) in *.
  set (crs := _find_cross_references actionable all_services) in *.
  assert (Htier1 : ∀ c, c ∈ candidates (overlap_tier tgs crs (McState [] [])) →
    ∃ cluster tg, cluster ∈ crs ∧ tg ∈ tgs
                  ∧ (2 <= size (line_set cluster ∩ line_set tg))%nat
                  ∧ c = merged_entries cluster tg)
    by apply overlap_tier_candidates.
  assert (Hxref_in : ∀ cl e, cl ∈ crs → e ∈ cl → e ∈ actionable).
  { intros cl e (_ & idx & _ & ->)%xref_clusters_members.
    apply lookup_cluster_elem. }
  assert (Htg_in : ∀ g e, g ∈ tgs → e ∈ g → e ∈ actionable).
  { intros g e. apply time_group_elem. }
  split; [|split; [|split]].
  - apply merge_candidates_origin in Hc as [H1|[H2|H3]].
    + destruct (Htier1 c H1) as (cluster & tg & _ & _ & Hov & ->).
      by apply merged_length.
    + by apply xref_clusters_members in H2 as [? _].
    + by apply time_group_members in H3 as [? _].
  - intros e He. apply merge_candidates_origin in Hc as [H1|[H2|H3]].
    + destruct (Htier1 c H1) as (cluster & tg & Hcl & Htg & _ & ->).
      apply merged_members in He as [He|He]; eauto.
    + eauto.
    + eauto.
  - intros H1. destruct (Htier1 c H1) as (cluster & tg & _ & _ & _ & ->).
    apply merged_NoDup.
  - intros Hnd. apply merge_candidates_origin in Hc as [H1|[H2|H3]].
    + destruct (Htier1 c H1) as (cluster & tg & _ & _ & _ & ->).
      apply merged_NoDup.
    + apply xref_clusters_members in H2 as (_ & idx & Hidx & ->).
      by apply lookup_cluster_NoDup.
    + by eapply time_group_NoDup.
Qed.

Lemma clusters_size_and_dedup_witness :
  let c := firstn 3 incident_batch in
  let actionable := List.filter is_actionable incident_batch in
  (2 <= length c)%nat
  ∧ (∀ e, e ∈ c → e ∈ actionable)
  ∧ (c ∈ candidates
           (overlap_tier (_build_time_groups strptime_iso actionable TIME_WINDOW)
              (_find_cross_references actionable ["api"; "db"; "web"]) (McState [] [])) →
     NoDup (map get_line_number c))
  ∧ (NoDup (map get_line_number actionable) → NoDup (map get_line_number c)).
Proof.
  apply (clusters_size_and_dedup strptime_iso ["api"; "db"; "web"] incident_batch).
  vm_compute. by left.
Defined.

(** C5 as stated fails on [same_line_batch]: in either order of the
    service names, the one cluster produced is the time group as it is,
    and its two records have the line number 7. *)
Lemma same_line_number_counterexample :
  causal_candidates strptime_iso ["api"; "db"] same_line_batch = [same_line_batch]
  ∧ causal_candidates strptime_iso ["db"; "api"] same_line_batch = [same_line_batch]
  ∧ map get_line_number same_line_batch = [7; 7].
Proof. vm_compute. done. Qed.

(** ** KnownPatternDetector *)

Lemma try_pass_Some {A} (body : result (option A)) (a : A) :
  try_pass body None = Ok (Some a) → body = Ok (Some a).
Proof. destruct body as [r|[]]; simpl; congruence. Qed.

(** Above 0.75 as a double is above three quarters as a fraction. *)
Lemma truediv_gt_075_sound (current total : Z) :
  0 < total → truediv_gt_075 current total = Ok true → 3 * total < 4 * current.
Proof.
  unfold truediv_gt_075. intros Hpos.
  destruct ((2 ^ 1024 - 2 ^ 970) * total <=? current); [done|].
  intros [= H%Z.ltb_lt].
  change (2 ^ 54) with (4 * 2 ^ 52) in H.
  assert (0 < 2 ^ 52) by done. nia.
Qed.

(** For a total below [2^52] the test on doubles is the test on
    fractions. *)
Lemma truediv_gt_075_exact (current total : Z) :
  0 < total < 2 ^ 52 → current < 2 ^ 1000 →
  truediv_gt_075 current total = Ok (3 * total <? 4 * current).
Proof.
  unfold truediv_gt_075. intros [Hpos Hlt] Hc.
  assert (H1000 : 2 ^ 1000 < 2 ^ 1024 - 2 ^ 970) by done.
  destruct (Z.leb_spec ((2 ^ 1024 - 2 ^ 970) * total) current) as [Hov|_]; [nia|].
  f_equal. change (2 ^ 54) with (4 * 2 ^ 52).
  assert (H52 : 0 < 2 ^ 52) by done. revert Hlt H52. generalize (2 ^ 52). intros p Hlt H52.
  destruct (Z.ltb_spec (3 * total) (4 * current));
    [apply Z.ltb_lt|apply Z.ltb_ge]; nia.
Qed.

Lemma disk_record_fires (svc : string) (e : LogRecord) (s : Signal) :
  disk_record svc e = Ok (Some s) →
  ∃ m g pct,
    Re.search true disk_critical_re (get_message e) = Some m
    ∧ Re.group 1 m = Ok g ∧ py_int g = Ok pct ∧ 80 < pct.
Proof.
  unfold disk_record.
  destruct (Re.search true disk_critical_re (get_message e)) as [m|]; [|done].
  intros H%try_pass_Some. unfold disk_try in H.
  destruct (Re.group 1 m) as [g|] eqn:Hg; [|done]. simpl in H.
  destruct (py_int g) as [pct|] eqn:Hpct; [|done]. simpl in H.
  destruct (Z.ltb_spec 80 pct); [|done].
  by exists m, g, pct.
Qed.

Lemma pool_record_fires (svc : string) (e : LogRecord) (s : Signal) :
  pool_record svc e = Ok (Some s) →
  ∃ m g1 g2 current total,
    is_Some (Re.search true pool_exhaustion_re (get_message e))
    ∧ Re.search false ratio_re (get_message e) = Some m
    ∧ Re.group 1 m = Ok g1 ∧ py_int g1 = Ok current
    ∧ Re.group 2 m = Ok g2 ∧ py_int g2 = Ok total
    ∧ 0 < total ∧ 3 * total < 4 * current.
Proof.
  unfold pool_record.
  destruct (Re.search true pool_exhaustion_re (get_message e)) as [mp|]; [|done].
  destruct (Re.search false ratio_re (get_message e)) as [m|]; [|done].
  intros H%try_pass_Some. unfold pool_try in H.
  destruct (Re.group 1 m) as [g1|] eqn:Hg1; [|done]. simpl in H.
  destruct (py_int g1) as [current|] eqn:Hc; [|done]. simpl in H.
  destruct (Re.group 2 m) as [g2|] eqn:Hg2; [|done]. simpl in H.
  destruct (py_int g2) as [total|] eqn:Ht; [|done]. simpl in H.
  destruct (Z.ltb_spec 0 total) as [Hpos|]; [|done].
  destruct (truediv_gt_075 current total) as [[|]|] eqn:Hdiv; try done.
  exists m, g1, g2, current, total.
  split; [by eexists|]. do 6 (split; [done|]). by apply truediv_gt_075_sound.
Qed.

Lemma group_raises (n : nat) (m : Re.rmatch_obj) (x : exn) :
  Re.group n m = Raise x → x = IndexError.
Proof.
  unfold Re.group. destruct (List.find _ (Re.mo_caps m)) as [[? l]|]; congruence.
Qed.

Lemma py_int_raises (s : string) (x : exn) : py_int s = Raise x → x = ValueError.
Proof.
  unfold py_int.
  repeat match goal with |- context [if ?b then _ else _] => destruct b end;
    congruence.
Qed.

(** The disk check never raises; the pool check can raise nothing but
    the [OverflowError] of a quotient too large for a double. *)
Lemma disk_record_total (svc : string) (e : LogRecord) :
  ∃ r, disk_record svc e = Ok r.
Proof.
  unfold disk_record.
  destruct (Re.search true disk_critical_re (get_message e)) as [m|]; [|by eexists].
  unfold disk_try.
  destruct (Re.group 1 m) as [g|x] eqn:Hg; simpl.
  - destruct (py_int g) as [pct|x] eqn:Hpct; simpl.
    + destruct (80 <? pct); by eexists.
    + apply py_int_raises in Hpct as ->. by eexists.
  - apply group_raises in Hg as ->. by eexists.
Qed.

Lemma pool_record_raises (svc : string) (e : LogRecord) (x : exn) :
  pool_record svc e = Raise x → x = OverflowError.
Proof.
  unfold pool_record.
  destruct (Re.search true pool_exhaustion_re (get_message e)) as [mp|]; [|done].
  destruct (Re.search false ratio_re (get_message e)) as [m|]; [|done].
  unfold pool_try.
  destruct (Re.group 1 m) as [g1|x1] eqn:Hg1; simpl;
    [|by apply group_raises in Hg1 as ->].
  destruct (py_int g1) as [current|x1] eqn:Hc; simpl;
    [|by apply py_int_raises in Hc as ->].
  destruct (Re.group 2 m) as [g2|x2] eqn:Hg2; simpl;
    [|by apply group_raises in Hg2 as ->].
  destruct (py_int g2) as [total|x2] eqn:Ht; simpl;
    [|by apply py_int_raises in Ht as ->].
  destruct (0 <? total); simpl; [|done].
  unfold truediv_gt_075.
  destruct ((2 ^ 1024 - 2 ^ 970) * total <=? current); simpl; [congruence|].
  by destruct ((3 * 2 ^ 52 + 1) * total <? 2 ^ 54 * current).
Qed.

Lemma scan_first_skip (check : LogRecord → result (option Signal))
    (e : LogRecord) (tl : list LogRecord) :
  check e = Ok None → scan_first check (e :: tl) = scan_first check tl.
Proof. intros H. simpl. by rewrite H. Qed.

Lemma pool_record_malformed (svc : string) (e : LogRecord) (m : Re.rmatch_obj) :
  Re.search false ratio_re (get_message e) = Some m →
  capture_int 1 m = Raise ValueError ∨ capture_int 2 m = Raise ValueError →
  pool_record svc e = Ok None.
Proof.
  unfold pool_record, capture_int. intros -> Hbad.
  destruct (Re.search true pool_exhaustion_re (get_message e)); [|done].
  unfold pool_try.
  destruct (Re.group 1 m) as [g1|x1] eqn:Hg1; simpl in *;
    [|by apply group_raises in Hg1 as ->].
  destruct (py_int g1) as [current|x1] eqn:Hc; simpl;
    [|by apply py_int_raises in Hc as ->].
  destruct Hbad as [Hbad|Hbad]; [done|].
  destruct (Re.group 2 m) as [g2|x2] eqn:Hg2; simpl in *;
    [|by apply group_raises in Hg2 as ->].
  by rewrite Hbad.
Qed.

(** ** The greedy repetition and the disk capture *)

Lemma advance_0 (st : Re.mstate) : advance st 0 = st.
Proof. destruct st. unfold advance. simpl. by rewrite Nat.add_0_r. Qed.

Lemma advance_advance (st : Re.mstate) (i j : nat) :
  advance (advance st i) j = advance st (i + j).
Proof.
  unfold advance. simpl. rewrite skipn_skipn, Nat.add_assoc.
  by rewrite (Nat.add_comm j i).
Qed.

Lemma advance_S (st : Re.mstate) (x : ascii) (tl : list ascii) (i : nat) :
  Re.m_rest st = x :: tl →
  advance (Re.MState (S (Re.m_pos st)) tl (Re.m_caps st)) i = advance st (S i).
Proof.
  intros Hrest. unfold advance. simpl. rewrite Hrest. simpl.
  by rewrite Nat.add_succ_r.
Qed.

(** A repetition that found nothing found nothing at any length. *)
Lemma star_class_none {R} (p : ascii → bool) (k : Re.mstate → option R) (f : nat) :
  ∀ st, Re.star_loop (class_body p) k f st = None →
        ∀ j, (j <= length (run_of p (Re.m_rest st)))%nat → (j <= f)%nat →
             k (advance st j) = None.
Proof.
  induction f as [|f IH]; intros st Hnone j Hrun Hf.
  - assert (j = 0%nat) as -> by lia. by rewrite advance_0.
  - simpl in Hnone. unfold class_body at 1, Re.step_char, Re.or_else in Hnone.
    destruct (Re.m_rest st) as [|x tl] eqn:Hrest.
    + simpl in Hrun. assert (j = 0%nat) as -> by lia. by rewrite advance_0.
    + simpl in Hrun. destruct (p x) eqn:Hp.
      * simpl in Hnone, Hrun.
        replace (length tl <? S (length tl))%nat with true in Hnone
          by (symmetry; apply Nat.ltb_lt; lia).
        destruct (Re.star_loop (class_body p) k f _) eqn:Hloop; [done|].
        destruct j as [|j]; [by rewrite advance_0|].
        rewrite <- (advance_S st x tl j Hrest).
        apply (IH _ Hloop); simpl; lia.
      * simpl in Hrun. assert (j = 0%nat) as -> by lia. by rewrite advance_0.
Qed.

(** A repetition returns what its continuation returns at the greatest
    length at which it returns something. *)
Lemma star_class_max {R} (p : ascii → bool) (k : Re.mstate → option R) (f : nat) :
  ∀ st m, Re.star_loop (class_body p) k f st = Some m →
    ∃ i, (i <= length (run_of p (Re.m_rest st)))%nat ∧ (i <= f)%nat
         ∧ k (advance st i) = Some m
         ∧ ∀ j, (i < j)%nat → (j <= length (run_of p (Re.m_rest st)))%nat →
                (j <= f)%nat → k (advance st j) = None.
Proof.
  induction f as [|f IH]; intros st m Hm.
  - exists 0%nat. rewrite advance_0. simpl in Hm.
    repeat split; [lia|lia|done|intros; lia].
  - simpl in Hm. unfold class_body at 1, Re.step_char, Re.or_else in Hm.
    assert (Hzero : k st = Some m → length (run_of p (Re.m_rest st)) = 0%nat →
      ∃ i, (i <= length (run_of p (Re.m_rest st)))%nat ∧ (i <= S f)%nat
           ∧ k (advance st i) = Some m
           ∧ ∀ j, (i < j)%nat → (j <= length (run_of p (Re.m_rest st)))%nat →
                  (j <= S f)%nat → k (advance st j) = None).
    { intros Hk Hlen. exists 0%nat. rewrite advance_0.
      repeat split; [lia|lia|done|intros; lia]. }
    destruct (Re.m_rest st) as [|x tl] eqn:Hrest; [by apply Hzero|].
    destruct (p x) eqn:Hp; [|apply Hzero; [done|simpl; by rewrite Hp]].
    simpl in Hm.
    replace (length tl <? S (length tl))%nat with true in Hm
      by (symmetry; apply Nat.ltb_lt; lia).
    destruct (Re.star_loop (class_body p) k f _) as [m'|] eqn:Hloop.
    + injection Hm as ->.
      destruct (IH _ _ Hloop) as (i & Hi & Hif & Hk & Hmax). simpl in Hi, Hmax.
      exists (S i). rewrite <- (advance_S st x tl i Hrest).
      simpl. rewrite Hp. simpl.
      repeat split; [lia|lia|done|].
      intros [|j] Hj Hjr Hjf; [lia|].
      rewrite <- (advance_S st x tl j Hrest). apply Hmax; lia.
    + exists 0%nat. rewrite advance_0. simpl. rewrite Hp. simpl.
      repeat split; [lia|lia|done|].
      intros [|j] Hj Hjr Hjf; [lia|].
      rewrite <- (advance_S st x tl j Hrest).
      apply (star_class_none p k f _ Hloop); simpl; lia.
Qed.

(** A repetition returns something when its continuation does at some
    length within the fuel. *)
Lemma star_class_some {R} (p : ascii → bool) (k : Re.mstate → option R) (f : nat)
    (st : Re.mstate) (i : nat) :
  (i <= length (run_of p (Re.m_rest st)))%nat → (i <= f)%nat →
  is_Some (k (advance st i)) →
  is_Some (Re.star_loop (class_body p) k f st).
Proof.
  intros Hi Hf Hk.
  destruct (Re.star_loop (class_body p) k f st) as [m|] eqn:Hloop; [by eexists|].
  rewrite (star_class_none p k f st Hloop i Hi Hf) in Hk. by destruct Hk.
Qed.

Lemma percent_char (c : ascii) : Re.char_eq true "%" c = true → c = "%"%char.
Proof.
  destruct c as [[] [] [] [] [] [] [] []]; vm_compute; intros H; done.
Qed.

(** The end of the pattern matches a run of digits and the percent sign
    after it, and captures the run. *)
Lemma percent_tail_sound (start : nat) (st : Re.mstate) (m : Re.rmatch_obj) :
  Re.rmatch true percent_tail st (found start) = Some m →
  ∃ i d0 tl tl2,
    Re.m_rest st = d0 :: tl ∧ Str.is_digit d0 = true
    ∧ (i <= length (run_of Str.is_digit tl))%nat
    ∧ skipn i tl = "%"%char :: tl2
    ∧ Re.mo_caps m = (1%nat, firstn (S i) (d0 :: tl)) :: Re.m_caps st.
Proof.
  unfold percent_tail. cbn [Re.rmatch]. unfold Re.step_char at 1.
  destruct (Re.m_rest st) as [|d0 tl] eqn:Hrest; [done|].
  destruct (Str.is_digit d0) eqn:Hd0; [|done].
  intros Hm. apply (star_class_max Str.is_digit) in Hm
    as (i & Hi & _ & Hk & _).
  simpl in Hi. unfold advance, Re.step_char in Hk.
  cbn [Re.m_rest Re.m_pos Re.m_caps] in Hk.
  destruct (skipn i tl) as [|c tl2] eqn:Hskip; [done|].
  destruct (Re.char_eq true "%" c) eqn:Hc; [|done].
  apply percent_char in Hc as ->. injection Hk as <-. simpl.
  exists i, d0, tl, tl2. repeat split; try done.
  by replace (S (Re.m_pos st + i) - Re.m_pos st)%nat with (S i) by lia.
Qed.

Lemma percent_tail_complete (start : nat) (st : Re.mstate) (i : nat)
    (d0 : ascii) (tl tl2 : list ascii) :
  Re.m_rest st = d0 :: tl → Str.is_digit d0 = true →
  (i <= length (run_of Str.is_digit tl))%nat →
  skipn i tl = "%"%char :: tl2 →
  is_Some (Re.rmatch true percent_tail st (found start)).
Proof.
  intros Hrest Hd0 Hi Hskip.
  unfold percent_tail. cbn [Re.rmatch]. unfold Re.step_char at 1.
  rewrite Hrest, Hd0.
  apply (star_class_some Str.is_digit _ _ _ i); simpl; [done| |].
  - assert (length (run_of Str.is_digit tl) <= length tl)%nat; [|lia].
    rewrite (run_after_split Str.is_digit tl) at 2. rewrite length_app. lia.
  - unfold advance, Re.step_char. cbn [Re.m_rest Re.m_pos Re.m_caps].
    rewrite Hskip. by eexists.
Qed.

Lemma lit_chars_sound {R} (ic : bool) (l : list ascii) :
  ∀ (st : Re.mstate) (k : Re.mstate → option R) (m : R),
    Re.rmatch ic (fold_right (λ c r, Re.Seq (Re.Chr c) r) Re.Eps l) st k = Some m →
    ∃ st1, Re.m_caps st1 = Re.m_caps st ∧ k st1 = Some m.
Proof.
  induction l as [|c cs IH]; intros st k m; simpl.
  - intros Hk. by exists st.
  - unfold Re.step_char. destruct (Re.m_rest st) as [|x tl]; [done|].
    destruct (Re.char_eq ic c x); [|done].
    intros (st1 & Hcaps & Hk)%IH. by exists st1.
Qed.

Lemma run_of_extend {A} (p : A → bool) (l tl : list A) (x : A) (i : nat) :
  (i <= length (run_of p l))%nat → skipn i l = x :: tl → p x = true →
  (S i <= length (run_of p l))%nat.
Proof.
  revert i. induction l as [|y l' IH]; intros i Hi Hskip Hp.
  - by destruct i.
  - simpl in *. destruct i as [|i].
    + injection Hskip as -> ->. rewrite Hp. simpl. lia.
    + destruct (p y); simpl in *; [|lia].
      apply le_n_S, IH; [lia|done|done].
Qed.

Lemma digit_not_newline (c : ascii) :
  Str.is_digit c = true → negb (bool_decide (c = Re.newline)) = true.
Proof. destruct c as [[] [] [] [] [] [] [] []]; by vm_compute. Qed.

Lemma digit_value (c : ascii) : Str.is_digit c = true → 0 <= Str.digit_val c <= 9.
Proof. destruct c as [[] [] [] [] [] [] [] []]; vm_compute; intuition congruence. Qed.

(** Where the disk pattern matches, its capture is one digit: the
    repetition before the capture takes every digit but the last. *)
Lemma disk_match_capture (pos : nat) (rest : list ascii) (m : Re.rmatch_obj) :
  Re.match_at true disk_critical_re false pos rest = Some m →
  ∃ d, Str.is_digit d = true ∧ Re.mo_caps m = [(1%nat, [d])].
Proof.
  unfold Re.match_at.
  change disk_critical_re
    with (Re.Seq (Re.lit "disk") (Re.Seq (Re.Star Re.Any) percent_tail)).
  cbn [Re.rmatch andb]. unfold Re.lit.
  intros (st1 & Hcaps & Hm)%lit_chars_sound. simpl in Hcaps.
  apply (star_class_max (λ x, negb (bool_decide (x = Re.newline)))) in Hm
    as (i & Hi & Hif & Hk & Hmax).
  change (Re.rmatch true percent_tail (advance st1 i) (found pos) = Some m) in Hk.
  destruct (percent_tail_sound _ _ _ Hk)
    as (j & d0 & tl & tl2 & Hrest & Hd0 & Hj & Hskip & Hm).
  simpl in Hrest, Hm. rewrite Hcaps in Hm.
  destruct j as [|j]; [by exists d0|]. exfalso.
  destruct tl as [|d1 tl']; [done|]. simpl in Hj, Hskip.
  destruct (Str.is_digit d1) eqn:Hd1; simpl in Hj; [|lia].
  assert (Hnext : is_Some (Re.rmatch true percent_tail (advance st1 (S i)) (found pos))).
  { apply (percent_tail_complete pos _ j d1 tl' tl2); [|done|lia|done].
    unfold advance. simpl. unfold advance in Hrest. simpl in Hrest.
    change (S i) with (1 + i)%nat.
    by rewrite <- (skipn_skipn 1 i), Hrest. }
  rewrite Hmax in Hnext; [by destruct Hnext|lia| |].
  - eapply run_of_extend; [done|exact Hrest|by apply digit_not_newline].
  - assert (length (skipn i (Re.m_rest st1)) = S (length (d1 :: tl'))) as Hlen
      by (by rewrite Hrest).
    rewrite length_skipn in Hlen. simpl in Hlen. lia.
Qed.

Lemma search_from_match (ic : bool) (r : Re.regex) (rest : list ascii) :
  ∀ pos m, Re.search_from ic r pos rest = Some m →
           ∃ pos' rest', Re.match_at ic r false pos' rest' = Some m.
Proof.
  induction rest as [|c tl IH]; intros pos m; simpl; unfold Re.or_else.
  - destruct (Re.match_at ic r false pos []) eqn:Hm; [|done].
    intros [= <-]. by exists pos, [].
  - destruct (Re.match_at ic r false pos (c :: tl)) eqn:Hm.
    + intros [= <-]. by exists pos, (c :: tl).
    + apply IH.
Qed.

(** The disk check fires on no record, whatever the message: the
    percentage it reads is a single digit. *)
Lemma disk_record_never_fires (svc : string) (e : LogRecord) :
  disk_record svc e = Ok None.
Proof.
  destruct (disk_record_total svc e) as [[s|] Hr]; [|done]. exfalso.
  apply disk_record_fires in Hr as (m & g & pct & Hsearch & Hg & Hpct & Hgt).
  apply search_from_match in Hsearch as (pos & rest & Hm).
  apply disk_match_capture in Hm as (d & Hd & Hcaps).
  unfold Re.group in Hg. rewrite Hcaps in Hg. simpl in Hg. injection Hg as <-.
  unfold py_int in Hpct. simpl in Hpct. rewrite Hd in Hpct. simpl in Hpct.
  injection Hpct as <-. pose proof (digit_value d Hd).
  unfold Str.digits_val in Hgt. simpl in Hgt. lia.
Qed.

(** The test of the disk check on a match, whatever the match. *)
Lemma disk_try_fires (svc : string) (e : LogRecord) (m : Re.rmatch_obj) (s : Signal) :
  disk_try svc e m = Ok (Some s) →
  ∃ g pct, Re.group 1 m = Ok g ∧ py_int g = Ok pct ∧ 80 < pct.
Proof.
  unfold disk_try.
  destruct (Re.group 1 m) as [g|] eqn:Hg; [|done]. simpl.
  destruct (py_int g) as [pct|] eqn:Hpct; [|done]. simpl.
  destruct (Z.ltb_spec 80 pct); [|done]. by exists g, pct.
Qed.

Lemma disk_try_at_most_80 (svc : string) (e : LogRecord) (m : Re.rmatch_obj)
    (g : string) (pct : Z) :
  Re.group 1 m = Ok g → py_int g = Ok pct → pct <= 80 →
  disk_try svc e m = Ok None.
Proof.
  intros Hg Hpct Hle. unfold disk_try. rewrite Hg. simpl. rewrite Hpct. simpl.
  by destruct (Z.ltb_spec 80 pct); [lia|].
Qed.

(** C6. The numeric thresholds are strict. The test of the disk check
    fires on a match only when the captured percentage is greater than
    80, and not at 80 or below; a message with exactly 80% does not fire
    (on the pattern of the source the capture is a single digit, and the
    disk check fires on no record at all). The pool check fires only when
    the total is positive and current over total is greater than 0.75:
    75/100 does not fire, 76/100 does. A capture that does not convert to
    an integer fires nothing; the disk check never raises, the pool check
    raises nothing but the overflow of a quotient, and the scan of the
    service goes on with the next record after a record that fires
    nothing. *)
Theorem known_pattern_thresholds_strict (svc : string) (e : LogRecord) :
  (∀ m s, disk_try svc e m = Ok (Some s) →
          ∃ g pct, Re.group 1 m = Ok g ∧ py_int g = Ok pct ∧ 80 < pct)
  ∧ (∀ m g pct, Re.group 1 m = Ok g → py_int g = Ok pct → pct <= 80 →
                disk_try svc e m = Ok None)
  ∧ disk_record svc e = Ok None
  ∧ (∀ s, pool_record svc e = Ok (Some s) →
        ∃ m g1 g2 current total,
          is_Some (Re.search true pool_exhaustion_re (get_message e))
          ∧ Re.search false ratio_re (get_message e) = Some m
          ∧ Re.group 1 m = Ok g1 ∧ py_int g1 = Ok current
          ∧ Re.group 2 m = Ok g2 ∧ py_int g2 = Ok total
          ∧ 0 < total ∧ 3 * total < 4 * current)
  ∧ disk_record svc (message_record "disk at 80%") = Ok None
  ∧ pool_record svc (message_record "connection pool 75/100 connections") = Ok None
  ∧ pool_record svc (message_record "connection pool 76/100 connections")
    = Ok (Some (known_signal svc "pool_exhaustion"
                  ["Pool at 76/100 (76%)";
                   "Entry: connection pool 76/100 connections"]))
  ∧ (∀ m, Re.search false ratio_re (get_message e) = Some m →
          capture_int 1 m = Raise ValueError ∨ capture_int 2 m = Raise ValueError →
          pool_record svc e = Ok None)
  ∧ (∀ x, pool_record svc e = Raise x → x = OverflowError)
  ∧ (∀ check tl, check e = Ok None →
                 scan_first check (e :: tl) = scan_first check tl).
Proof.
  split; [apply disk_try_fires|].
  split; [apply disk_try_at_most_80|].
  split; [apply disk_record_never_fires|].
  split; [apply pool_record_fires|].
  split; [by vm_compute|]. split; [by vm_compute|]. split; [by vm_compute|].
  split; [apply pool_record_malformed|].
  split; [apply pool_record_raises|].
  intros check tl. apply scan_first_skip.
Qed.

Lemma known_pattern_thresholds_strict_witness :
  (∃ g pct, Re.group 1 (Re.MatchObj 0 11 [] [(1%nat, Str.chars "81")]) = Ok g
            ∧ py_int g = Ok pct ∧ 80 < pct)
  ∧ disk_try "db" (message_record "disk at 80%")
      (Re.MatchObj 0 11 [] [(1%nat, Str.chars "80")]) = Ok None
  ∧ pool_record "db" overlong_pool_record = Ok None
  ∧ scan_first (pool_record "db")
      [overlong_pool_record; message_record "connection pool 76/100 connections"]
    = Ok [known_signal "db" "pool_exhaustion"
            ["Pool at 76/100 (76%)"; "Entry: connection pool 76/100 connections"]].
Proof.
  pose proof (known_pattern_thresholds_strict "db" (message_record "disk at 80%"))
    as (Hfires & Hnot & _).
  pose proof (known_pattern_thresholds_strict "db" overlong_pool_record)
    as (_ & _ & _ & _ & _ & _ & _ & Hbad & _ & Hskip).
  assert (Hnone : pool_record "db" overlong_pool_record = Ok None).
  { assert (Hchk :
      match Re.search false ratio_re (get_message overlong_pool_record) with
      | Some m => match capture_int 1 m with
                  | Raise ValueError => true
                  | _ => false
                  end
      | None => false
      end = true) by (vm_compute; reflexivity).
    destruct (Re.search false ratio_re (get_message overlong_pool_record))
      as [m|] eqn:Hm; [|discriminate Hchk].
    apply (Hbad m eq_refl). left.
    by destruct (capture_int 1 m) as [?|[]]. }
  split; [|split; [|split; [exact Hnone|]]].
  - apply (Hfires (Re.MatchObj 0 11 [] [(1%nat, Str.chars "81")])
             (known_signal "db" "disk_critical"
                ["Disk usage at 81% (threshold: 80%)"; "Entry: disk at 80%"])).
    reflexivity.
  - apply (Hnot _ "80" 80); [reflexivity|reflexivity|lia].
  - rewrite (Hskip (pool_record "db") _ Hnone). by vm_compute.
Defined.

(** On some messages the disk check reads the last digit before the
    percent sign: the repetition before the capture is greedy. *)
Example disk_capture_examples :
  capture_int 1 <$> Re.search true disk_critical_re "disk at 81%" = Some (Ok 1)
  ∧ disk_record "db" (message_record "disk at 81%") = Ok None
  ∧ capture_int 1 <$> Re.search true disk_critical_re "Disk usage 95% on /var"
    = Some (Ok 5)
  ∧ disk_record "db" (message_record "Disk usage 95% on /var") = Ok None.
Proof. by vm_compute. Qed.

(** ** ResponseNormalizer *)

(** C8 (as amended). For every reply that, after the optional fence
    stripping, is not valid JSON (its decoding fails with a decoding
    error), either stage returns an empty result list and an error
    message, its fixed prefix followed by the first 200 characters of the
    offending text, and no exception escapes. *)
Theorem invalid_json_is_recoverable (content : string) :
  Json.loads (strip_fence content) = Raise JSONDecodeError →
  risk_postprocess content
  = Ok (mkRiskOutput []
          (Some ("Predictive risk agent returned invalid JSON: "
                 +:+ Str.take 200 (strip_fence content)))
          "predictive_risk")
  ∧ chain_postprocess content
    = Ok (mkChainOutput []
            (Some ("Root cause agent returned invalid JSON: "
                   +:+ Str.take 200 (strip_fence content)))
            "root_cause").
Proof.
  intros H. unfold risk_postprocess, chain_postprocess. by rewrite H.
Qed.

Lemma invalid_json_is_recoverable_witness :
  risk_postprocess "Sorry, I cannot assess these signals."
  = Ok (mkRiskOutput []
          (Some "Predictive risk agent returned invalid JSON: Sorry, I cannot assess these signals.")
          "predictive_risk")
  ∧ chain_postprocess "Sorry, I cannot assess these signals."
    = Ok (mkChainOutput []
            (Some "Root cause agent returned invalid JSON: Sorry, I cannot assess these signals.")
            "root_cause").
Proof.
  apply (invalid_json_is_recoverable "Sorry, I cannot assess these signals.").
  by vm_compute.
Defined.

(** C8 as stated fails on replies that are valid JSON and no array. The
    reply [{}] parses as an empty object: the risk stage returns the empty
    list with no error message. The reply [42] parses as a number: both
    stages raise [TypeError] when they iterate over it. *)
Lemma non_array_json_counterexample :
  Json.loads (strip_fence "{}") = Ok (JDict [])
  ∧ risk_postprocess "{}" = Ok (mkRiskOutput [] None "predictive_risk")
  ∧ Json.loads (strip_fence "42") = Ok (JInt 42)
  ∧ risk_postprocess "42" = Raise TypeError
  ∧ chain_postprocess "42" = Raise TypeError.
Proof. by vm_compute. Qed.

Lemma enum_field_value (k : string) (d : list (string * json)) :
  text_or_absent k d → enum_field (JDict d) k = Ok (enum_value k d).
Proof.
  unfold text_or_absent, enum_field, enum_value, py_get.
  destruct (assoc k d) as [[]|]; simpl; done.
Qed.

Lemma enum_value_allowed (k : string) (d : list (string * json)) :
  enum_value k d ∈ allowed_levels.
Proof.
  unfold enum_value. case_bool_decide as H; [done|].
  unfold allowed_levels. apply elem_of_cons. right. by left.
Qed.

Lemma normalize_events (evts : list (list (string * json))) :
  mapM normalize_event (map JDict evts) = Ok (map event_of evts).
Proof.
  induction evts as [|d tl IH]; simpl; [done|]. by rewrite IH.
Qed.

(** C9 (as amended). An object whose enumerated field ([risk_level];
    [confidence]) is a text or absent (and, for a chain, whose [chain] is
    a list of objects and whose [affected_services] has a length, when
    they are present) is normalized field by field: the enumerated field
    is upper-cased and replaced by MEDIUM when it is not HIGH, MEDIUM or
    LOW; any other field that is absent takes its default, the empty
    text, the empty list, 0 or [unknown], except [blast_radius], whose
    default is the number of affected services (0 when these are absent);
    an absent key never raises. The fenced reply of the specification
    yields one prediction, MEDIUM, all other fields at their defaults. *)
Theorem normalization_field_by_field :
  (∀ d, text_or_absent "risk_level" d →
        normalize_prediction (JDict d)
        = Ok (mkRisk (default (JStr "unknown") (assoc "service" d))
                (enum_value "risk_level" d)
                (default (JStr EmptyString) (assoc "prediction" d))
                (default (JList []) (assoc "evidence" d))
                (default (JStr EmptyString) (assoc "preventive_action" d))
                (default (JStr "unknown") (assoc "time_horizon" d))))
  ∧ (∀ d evts n,
       text_or_absent "confidence" d →
       default (JList []) (assoc "chain" d) = JList (map JDict evts) →
       py_len (default (JList []) (assoc "affected_services" d)) = Ok n →
       normalize_chain (JDict d)
       = Ok (mkChain (map event_of evts)
               (default (JStr EmptyString) (assoc "root_cause" d))
               (default (JInt n) (assoc "blast_radius" d))
               (default (JList []) (assoc "affected_services" d))
               (enum_value "confidence" d)
               (default (JStr EmptyString) (assoc "summary" d))))
  ∧ (∀ k d, enum_value k d ∈ ["HIGH"; "MEDIUM"; "LOW"])
  ∧ normalize_prediction (JDict [])
    = Ok (mkRisk (JStr "unknown") "MEDIUM" (JStr EmptyString) (JList [])
            (JStr EmptyString) (JStr "unknown"))
  ∧ normalize_chain (JDict [])
    = Ok (mkChain [] (JStr EmptyString) (JInt 0) (JList []) "MEDIUM" (JStr EmptyString))
  ∧ risk_postprocess
      ("```json" +:+ String Re.newline
         ("[{" +:+ String "034" ("risk_level" +:+ String "034" (":" +:+ String "034"
            ("critical" +:+ String "034" ("}]" +:+ String Re.newline "```"))))))
    = Ok (mkRiskOutput
            [mkRisk (JStr "unknown") "MEDIUM" (JStr EmptyString) (JList [])
               (JStr EmptyString) (JStr "unknown")]
            None "predictive_risk").
Proof.
  split; [|split; [|split; [|split; [|split]]]].
  - intros d Hd. unfold normalize_prediction.
    rewrite (enum_field_value _ _ Hd). done.
  - intros d evts n Hd Hchain Hlen. unfold normalize_chain.
    rewrite (enum_field_value _ _ Hd). simpl.
    rewrite Hchain. simpl. rewrite normalize_events. simpl.
    rewrite Hlen. done.
  - apply enum_value_allowed.
  - done.
  - done.
  - by vm_compute.
Qed.

Lemma normalization_field_by_field_witness :
  normalize_prediction (JDict [("risk_level", JStr "high"); ("service", JStr "db")])
  = Ok (mkRisk (JStr "db") "HIGH" (JStr EmptyString) (JList [])
          (JStr EmptyString) (JStr "unknown"))
  ∧ normalize_chain
      (JDict [("confidence", JStr "certain");
              ("chain", JList [JDict [("service", JStr "db")]]);
              ("affected_services", JList [JStr "db"; JStr "api"])])
    = Ok (mkChain [mkEvent (JStr "db") (JStr EmptyString) (JStr EmptyString) (JInt 0)]
            (JStr EmptyString) (JInt 2) (JList [JStr "db"; JStr "api"]) "MEDIUM"
            (JStr EmptyString)).
Proof.
  destruct normalization_field_by_field as (Hrisk & Hchain & _).
  split.
  - apply (Hrisk [("risk_level", JStr "high"); ("service", JStr "db")]). exact I.
  - exact (Hchain [("confidence", JStr "certain");
                   ("chain", JList [JDict [("service", JStr "db")]]);
                   ("affected_services", JList [JStr "db"; JStr "api"])]
             [[("service", JStr "db")]] 2 I eq_refl eq_refl).
Defined.

(** C9 as stated fails on two objects. When [blast_radius] is absent
    and two services are affected, its value is 2, none of the defaults
    the claim lists. When [risk_level] is a number, the normalization
    raises [AttributeError]. *)
Lemma blast_radius_default_counterexample :
  assoc "blast_radius" [("affected_services", JList [JStr "db"; JStr "api"])] = None
  ∧ cc_blast_radius
      <$> normalize_chain (JDict [("affected_services", JList [JStr "db"; JStr "api"])])
    = Ok (JInt 2)
  ∧ normalize_prediction (JDict [("risk_level", JInt 5)]) = Raise AttributeError.
Proof. by vm_compute. Qed.

(** ** The fuel of the JSON reader

    [Json.loads] gives its reader enough fuel: it never stops for lack
    of it, whatever the text. *)

Lemma skip_ws_length (l : list ascii) : (length (Json.skip_ws l) <= length l)%nat.
Proof.
  induction l as [|c tl IH]; simpl; [lia|]. destruct (Json.is_ws c); simpl; lia.
Qed.

Lemma hex4_length (l r : list ascii) (n : N) :
  Json.hex4 l = Some (n, r) → (length r + 4 = length l)%nat.
Proof.
  unfold Json.hex4. destruct l as [|a [|b [|c [|d tl]]]]; try done.
  destruct (Json.hex_val a), (Json.hex_val b), (Json.hex_val c), (Json.hex_val d);
    simpl; try done.
  intros [= _ <-]. simpl. lia.
Qed.

Lemma unicode_escape_length (l r cs : list ascii) :
  Json.unicode_escape l = Some (cs, r) → (length r < length l)%nat.
Proof.
  unfold Json.unicode_escape.
  destruct (Json.hex4 l) as [[n tl]|] eqn:H4; simpl; [|done].
  apply hex4_length in H4. intros H.
  repeat case_match; try discriminate; injection H as _ <-; subst;
    repeat match goal with
           | Hh : Json.hex4 _ = Some _ |- _ => apply hex4_length in Hh
           end;
    simpl in *; lia.
Qed.

Lemma scan_string_fuel (f : nat) :
  ∀ l acc, (length l <= f)%nat →
    Json.scan_string f l acc ≠ Raise RecursionError
    ∧ ∀ s r, Json.scan_string f l acc = Ok (s, r) → (length r < length l)%nat.
Proof.
  induction f as [|f IH]; intros l acc Hf.
  - destruct l; simpl in *; [|lia]. done.
  - destruct l as [|c tl]; [done|]. simpl in Hf. simpl.
    case_bool_decide; [split; [done|intros s r [= _ <-]; simpl; lia]|].
    case_bool_decide.
    + destruct tl as [|e tl2]; [done|]. simpl in Hf.
      case_bool_decide.
      * destruct (Json.unicode_escape tl2) as [[cs tl3]|] eqn:Hu; [|done].
        apply unicode_escape_length in Hu.
        destruct (IH tl3 (rev cs ++ acc)) as [Hne Hlen]; [lia|].
        split; [done|]. intros s r Hs. apply Hlen in Hs. simpl. lia.
      * destruct (Json.simple_escape e); [|done].
        destruct (IH tl2 (a :: acc)) as [Hne Hlen]; [lia|].
        split; [done|]. intros s r Hs. apply Hlen in Hs. simpl. lia.
    + destruct (Str.code c <? 32)%N; [done|].
      destruct (IH tl (c :: acc)) as [Hne Hlen]; [lia|].
      split; [done|]. intros s r Hs. apply Hlen in Hs. simpl. lia.
Qed.

Lemma span_digits_length (l d r : list ascii) :
  Json.span_digits l = (d, r) → (length d + length r = length l)%nat.
Proof.
  revert d r. induction l as [|c tl IH]; simpl; intros d r.
  - by intros [= <- <-].
  - destruct (Str.is_digit c).
    + destruct (Json.span_digits tl) as [d' r'] eqn:Hs. intros [= <- <-].
      specialize (IH d' r' eq_refl). simpl. lia.
    + by intros [= <- <-].
Qed.

Lemma int_part_length (l d r : list ascii) :
  Json.int_part l = Some (d, r) → (length r < length l)%nat.
Proof.
  unfold Json.int_part. destruct l as [|c tl]; [done|].
  case_bool_decide; [intros [= _ <-]; simpl; lia|].
  destruct (Str.is_digit c); [|done].
  destruct (Json.span_digits tl) as [d' r'] eqn:Hs. intros [= _ <-].
  apply span_digits_length in Hs. simpl. lia.
Qed.

Lemma frac_part_length (l d r : list ascii) :
  Json.frac_part l = (d, r) → (length r <= length l)%nat.
Proof.
  unfold Json.frac_part. destruct l as [|c tl]; [by intros [= _ <-]|].
  case_bool_decide; [|by intros [= _ <-]].
  destruct (Json.span_digits tl) as [[|x d'] r'] eqn:Hs; intros [= _ <-]; [done|].
  apply span_digits_length in Hs. simpl in *. lia.
Qed.

Lemma exp_part_length (l d r : list ascii) :
  Json.exp_part l = (d, r) → (length r <= length l)%nat.
Proof.
  unfold Json.exp_part. destruct l as [|c tl]; [by intros [= _ <-]|].
  destruct (bool_decide (c = "e"%char) || bool_decide (c = "E"%char));
    [|by intros [= _ <-]].
  destruct (match tl with
            | [] => ([], tl)
            | s :: tl2 =>
                if bool_decide (s = "-"%char) || bool_decide (s = "+"%char)
                then ([s], tl2) else ([], tl)
            end) as [sign tl2] eqn:Hsign.
  assert (length tl2 <= length tl)%nat.
  { destruct tl as [|s tl']; [by injection Hsign as _ <-|].
    destruct (bool_decide (s = "-"%char) || bool_decide (s = "+"%char));
      injection Hsign as _ <-; simpl; lia. }
  destruct (Json.span_digits tl2) as [[|x d'] r'] eqn:Hs; intros [= _ <-]; [done|].
  apply span_digits_length in Hs. simpl in *. lia.
Qed.

Lemma scan_number_length (l r : list ascii) (v : result json) :
  Json.scan_number l = Some (v, r) → (length r < length l)%nat.
Proof.
  unfold Json.scan_number.
  destruct (match l with
            | [] => ([], l)
            | c :: tl => if bool_decide (c = "-"%char) then ([c], tl) else ([], l)
            end) as [sign l1] eqn:Hsign.
  assert (length l1 <= length l)%nat.
  { destruct l as [|c tl]; [by injection Hsign as _ <-|].
    destruct (bool_decide (c = "-"%char)); injection Hsign as _ <-; simpl; lia. }
  destruct (Json.int_part l1) as [[digits l2]|] eqn:Hint; simpl; [|done].
  apply int_part_length in Hint.
  destruct (Json.frac_part l2) as [frac l3] eqn:Hfrac.
  apply frac_part_length in Hfrac.
  destruct (Json.exp_part l3) as [exp l4] eqn:Hexp.
  apply exp_part_length in Hexp.
  destruct frac, exp; intros [= _ <-]; lia.
Qed.

Lemma strip_prefix_length (p l r : list ascii) :
  Json.strip_prefix p l = Some r → (length p + length r = length l)%nat.
Proof.
  revert l. induction p as [|a p IH]; intros l; simpl.
  - by intros [= <-].
  - destruct l as [|b l']; [done|]. destruct (bool_decide (a = b)); [|done].
    intros Hr%IH. simpl. lia.
Qed.

Lemma scan_literal_length (l r : list ascii) (v : json) :
  Json.scan_literal Json.literals l = Some (v, r) → (length r < length l)%nat.
Proof.
  assert (Hnames : Forall (λ nv, (0 < length (Str.chars (fst nv)))%nat) Json.literals).
  { unfold Json.literals. repeat constructor. }
  induction Hnames as [|[name v'] table Hname _ IH]; [done|].
  cbn [Json.scan_literal].
  destruct (Json.strip_prefix (Str.chars name) l) as [r'|] eqn:Hp; [|exact IH].
  intros [= _ <-]. apply strip_prefix_length in Hp. simpl in Hname. lia.
Qed.

Lemma scan_number_value (l r : list ascii) (v : result json) :
  Json.scan_number l = Some (v, r) → v ≠ Raise RecursionError.
Proof.
  unfold Json.scan_number.
  destruct (match l with
            | [] => ([], l)
            | c :: tl => if bool_decide (c = "-"%char) then ([c], tl) else ([], l)
            end) as [sign l1].
  destruct (Json.int_part l1) as [[digits l2]|]; simpl; [|done].
  destruct (Json.frac_part l2) as [frac l3].
  destruct (Json.exp_part l3) as [exp l4].
  destruct frac, exp; intros [= <- _]; try done.
  destruct (py_int (Str.of_chars digits)) as [z|x] eqn:Hz; simpl; [done|].
  apply py_int_raises in Hz as ->. done.
Qed.

Lemma fuel_ok_raise {A} (e : exn) (l : list ascii) :
  e ≠ RecursionError → fuel_ok (Raise e : result (A * list ascii)) l.
Proof. intros He. split; [congruence|done]. Qed.

Lemma fuel_ok_ret {A} (v : A) (r l : list ascii) :
  (length r < length l)%nat → fuel_ok (Ok (v, r)) l.
Proof. intros Hr. split; [done|]. by intros v' r' [= _ <-]. Qed.

Lemma fuel_ok_bind {A B} (run : result (A * list ascii))
    (k : A * list ascii → result (B * list ascii)) (l0 l : list ascii) :
  fuel_ok run l0 →
  (∀ v r, (length r < length l0)%nat → fuel_ok (k (v, r)) l) →
  fuel_ok (run ≫= k) l.
Proof.
  intros [Hne Hlen] Hk. destruct run as [[v r]|e]; simpl.
  - apply Hk. by apply (Hlen v r).
  - apply fuel_ok_raise. congruence.
Qed.

Lemma scan_string_fuel_ok (tl acc : list ascii) :
  fuel_ok (Json.scan_string (length tl) tl acc) tl.
Proof. by apply scan_string_fuel. Qed.

(** With twice the length of the text and one more (two more inside an
    array or an object), the reader does not run out of fuel. *)
Lemma scan_fuel (f : nat) :
  (∀ l, (2 * length l + 1 <= f)%nat → fuel_ok (Json.scan_once f l) l)
  ∧ (∀ l acc, (2 * length l + 2 <= f)%nat → fuel_ok (Json.scan_elements f l acc) l)
  ∧ (∀ l acc, (2 * length l + 2 <= f)%nat → fuel_ok (Json.scan_members f l acc) l).
Proof.
  induction f as [|f (IHonce & IHelems & IHmembers)].
  { repeat split; intros; lia. }
  split; [|split].
  - intros [|c tl] Hf; [by apply fuel_ok_raise|]. simpl in Hf.
    cbn [Json.scan_once].
    case_bool_decide.
    { eapply fuel_ok_bind; [apply scan_string_fuel_ok|].
      intros s r Hr. apply fuel_ok_ret. simpl. lia. }
    pose proof (skip_ws_length tl) as Hws.
    case_bool_decide.
    { destruct (Json.skip_ws tl) as [|c2 r]; [by apply fuel_ok_raise|].
      simpl in Hws. case_bool_decide; [apply fuel_ok_ret; simpl; lia|].
      destruct (IHmembers (c2 :: r) []) as [Hne Hlen]; [simpl; lia|].
      split; [done|]. intros v r' Hv. apply Hlen in Hv. simpl in *. lia. }
    case_bool_decide.
    { destruct (Json.skip_ws tl) as [|c2 r]; [by apply fuel_ok_raise|].
      simpl in Hws. case_bool_decide; [apply fuel_ok_ret; simpl; lia|].
      destruct (IHelems (c2 :: r) []) as [Hne Hlen]; [simpl; lia|].
      split; [done|]. intros v r' Hv. apply Hlen in Hv. simpl in *. lia. }
    destruct (Json.scan_literal Json.literals (c :: tl)) as [[v r]|] eqn:Hlit.
    { apply fuel_ok_ret. by apply scan_literal_length in Hlit. }
    destruct (Json.scan_number (c :: tl)) as [[v r]|] eqn:Hnum;
      [|by apply fuel_ok_raise].
    pose proof (scan_number_value _ _ _ Hnum) as Hv.
    apply scan_number_length in Hnum.
    destruct v as [v|e]; simpl; [by apply fuel_ok_ret|].
    apply fuel_ok_raise. congruence.
  - intros l acc Hf. cbn [Json.scan_elements].
    eapply fuel_ok_bind; [apply IHonce; lia|].
    intros v r Hr. pose proof (skip_ws_length r) as Hws.
    destruct (Json.skip_ws r) as [|c r2]; [by apply fuel_ok_raise|]. simpl in Hws.
    case_bool_decide; [apply fuel_ok_ret; lia|].
    case_bool_decide; [|by apply fuel_ok_raise].
    pose proof (skip_ws_length r2) as Hws2.
    destruct (IHelems (Json.skip_ws r2) (acc ++ [v])) as [Hne Hlen]; [lia|].
    split; [done|]. intros v' r' Hv. apply Hlen in Hv. lia.
  - intros [|q tl] acc Hf; [by apply fuel_ok_raise|]. simpl in Hf.
    cbn [Json.scan_members].
    case_bool_decide; [|by apply fuel_ok_raise].
    eapply fuel_ok_bind; [apply scan_string_fuel_ok|].
    intros k r Hr. pose proof (skip_ws_length r) as Hws.
    destruct (Json.skip_ws r) as [|c r2]; [by apply fuel_ok_raise|]. simpl in Hws.
    case_bool_decide; [|by apply fuel_ok_raise].
    pose proof (skip_ws_length r2) as Hws2.
    eapply fuel_ok_bind; [apply IHonce; lia|].
    intros v r3 Hr3. pose proof (skip_ws_length r3) as Hws3.
    destruct (Json.skip_ws r3) as [|c2 r4]; [by apply fuel_ok_raise|]. simpl in Hws3.
    case_bool_decide; [apply fuel_ok_ret; simpl; lia|].
    case_bool_decide; [|by apply fuel_ok_raise].
    pose proof (skip_ws_length r4) as Hws4.
    destruct (IHmembers (Json.skip_ws r4) (Json.dict_put k v acc)) as [Hne Hlen];
      [lia|].
    split; [done|]. intros v' r' Hv. apply Hlen in Hv. simpl. lia.
Qed.

(** The reader never stops for lack of fuel: [Json.loads] raises no
    [RecursionError]. *)
Lemma loads_fuel (s : string) : Json.loads s ≠ Raise RecursionError.
Proof.
  unfold Json.loads.
  pose proof (skip_ws_length (Str.chars s)) as Hws.
  destruct (proj1 (scan_fuel (2 * length (Str.chars s) + 2))
              (Json.skip_ws (Str.chars s))) as [Hne _]; [lia|].
  destruct (Json.scan_once _ _) as [[v r]|e]; simpl; [|congruence].
  by destruct (Json.skip_ws r).
Qed.

(** ** The time groups of a batch *)

Lemma gaps_between_cons (t0 t1 : Z) (tl : list Z) :
  gaps_between (t0 :: t1 :: tl) = (t1 - t0) :: gaps_between (t1 :: tl).
Proof. done. Qed.

(** The greedy pass closes no group exactly when every record is more
    than the window after the one before it. *)
Lemma greedy_groups_nil (window : Z) (l : list (Z * LogRecord)) :
  greedy_groups window l = []
  ↔ Forall (λ gap, window < gap) (gaps_between (map fst l)).
Proof.
  funelim (greedy_groups window l); simp greedy_groups.
  - split; [constructor|done].
  - destruct rest as [|y tl].
    + simpl. simp greedy_groups. split; [constructor|done].
    + cbn [map]. rewrite gaps_between_cons, Forall_cons.
      revert H. simpl. unfold within.
      destruct (Z.leb_spec (fst y - fst x) window) as [Hin|Hout]; intros H.
      * split; [|lia]. unfold kept. simpl. done.
      * unfold kept. simpl. rewrite H. split; [by split|by intros [_ ?]].
Qed.

Lemma run_of_Forall {A} (P : A → bool) (l : list A) : Forall (λ x, P x = true) (run_of P l).
Proof.
  induction l as [|x tl IH]; simpl; [constructor|].
  destruct (P x) eqn:HP; constructor; done.
Qed.

Lemma StronglySorted_app_r {A} (R : A → A → Prop) (l1 l2 : list A) :
  StronglySorted R (l1 ++ l2) → StronglySorted R l2.
Proof.
  induction l1 as [|x l1 IH]; simpl; [done|].
  intros H. apply StronglySorted_inv in H as [H _]. by apply IH.
Qed.

(** A group of the greedy pass over a sorted list is a segment of the
    list whose instants lie within the window of one another. *)
Lemma greedy_groups_span (window : Z) (l : list (Z * LogRecord)) (g : list LogRecord) :
  StronglySorted (key_le fst) l →
  g ∈ greedy_groups window l →
  ∃ pre seg post,
    l = pre ++ seg ++ post ∧ g = map snd seg
    ∧ ∀ x y, x ∈ seg → y ∈ seg → fst y - fst x <= window.
Proof.
  funelim (greedy_groups window l); simp greedy_groups.
  - by intros _ ?%elem_of_nil.
  - intros Hsorted [Hg|Hg]%elem_of_app.
    + unfold kept in Hg.
      destruct (Nat.leb_spec 2
        (length (snd x :: map snd (run_of (within window (fst x)) rest)))) as [Hlen|];
        [|by apply elem_of_nil in Hg].
      apply list_elem_of_singleton in Hg as ->.
      exists [], (x :: run_of (within window (fst x)) rest),
        (after_run (within window (fst x)) rest).
      split; [simpl; f_equal; apply run_after_split|]. split; [done|].
      apply StronglySorted_inv in Hsorted as [_ Hall].
      pose proof (run_of_Forall (within window (fst x)) rest) as Hrun.
      rewrite Forall_forall in Hall, Hrun.
      assert (Hrest : ∀ z, z ∈ run_of (within window (fst x)) rest →
                           fst x <= fst z <= fst x + window).
      { intros z Hz. split.
        - apply (Hall z). rewrite (run_after_split (within window (fst x)) rest).
          apply elem_of_app. by left.
        - apply Hrun in Hz. unfold within in Hz. apply Z.leb_le in Hz. lia. }
      assert (Hw : 0 <= window).
      { destruct (run_of (within window (fst x)) rest) as [|y tl] eqn:Hr;
          [simpl in Hlen; lia|].
        assert (Hy : y ∈ y :: tl) by (by left). specialize (Hrest y Hy). lia. }
      assert (Hbound : ∀ z, z ∈ x :: run_of (within window (fst x)) rest →
                            fst x <= fst z <= fst x + window).
      { intros z [->|Hz]%elem_of_cons; [lia|by apply Hrest]. }
      intros a b Ha%Hbound Hb%Hbound. lia.
    + assert (Hsuffix : StronglySorted (key_le fst) (after_run (within window (fst x)) rest)).
      { apply StronglySorted_inv in Hsorted as [Hs _].
        rewrite (run_after_split (within window (fst x)) rest) in Hs.
        by apply StronglySorted_app_r in Hs. }
      destruct (H g Hsuffix Hg) as (pre & seg & post & Hl & Hgs & Hspan).
      exists (x :: run_of (within window (fst x)) rest ++ pre), seg, post.
      split; [|done]. simpl. f_equal.
      rewrite <- app_assoc, <- Hl. apply run_after_split.
Qed.

(** The groups of the greedy pass, one after the other, are records of
    the list in its order, each position taken once. *)
Lemma greedy_groups_concat (window : Z) (l : list (Z * LogRecord)) :
  sublist (concat (greedy_groups window l)) (map snd l).
Proof.
  funelim (greedy_groups window l); simp greedy_groups; [done|].
  rewrite concat_app.
  rewrite (run_after_split (within window (fst x)) rest) at 3.
  simpl. rewrite map_app.
  unfold kept.
  destruct (2 <=? length (snd x :: map snd (run_of (within window (fst x)) rest)))%nat.
  - simpl. rewrite app_nil_r. apply sublist_skip.
    apply sublist_app; [done|exact H].
  - simpl. apply sublist_cons. by apply sublist_inserts_l.
Qed.

Lemma timed_of_parsed (strptime : string → option Z) (entries : list LogRecord)
    (x : Z * LogRecord) :
  x ∈ timed_of strptime entries →
  snd x ∈ entries ∧ _parse_timestamp strptime (get_timestamp (snd x)) = Some (fst x).
Proof.
  induction entries as [|e tl IH]; simpl; [by intros ?%elem_of_nil|].
  destruct (_parse_timestamp strptime (get_timestamp e)) as [dt|] eqn:Hdt.
  - intros [->|Hx]%elem_of_cons; [split; [by left|done]|].
    destruct (IH Hx). split; [by right|done].
  - intros Hx. destruct (IH Hx). split; [by right|done].
Qed.

(** X1. The time-window grouper returns no group exactly when, in the
    order of their instants, every time-parsable record comes more than
    [window] seconds after the one before it: two records within the
    window of each other always give a group. *)
Theorem time_groups_none_iff_sparse (strptime : string → option Z)
    (entries : list LogRecord) (window : Z) :
  _build_time_groups strptime entries window = []
  ↔ Forall (λ gap, window < gap)
      (gaps_between (map fst (sorted_timed strptime entries))).
Proof. rewrite build_time_groups_greedy. apply greedy_groups_nil. Qed.

(** X2. A time group is a run of consecutive records of the batch sorted
    by instant, and any two of its records are at most [window] seconds
    apart. *)
Theorem time_group_span (strptime : string → option Z) (entries : list LogRecord)
    (window : Z) (g : list LogRecord) :
  g ∈ _build_time_groups strptime entries window →
  ∃ pre seg post,
    sorted_timed strptime entries = pre ++ seg ++ post
    ∧ g = map snd seg
    ∧ ∀ x y, x ∈ seg → y ∈ seg → fst y - fst x <= window.
Proof.
  rewrite build_time_groups_greedy.
  apply greedy_groups_span, sorted_timed_sorted.
Qed.

Lemma time_group_span_witness :
  ∃ pre seg post,
    sorted_timed strptime_iso spread_batch = pre ++ seg ++ post
    ∧ [ts_record "2024-05-01 10:00:00" 1; ts_record "2024-05-01 10:00:50" 2]
      = map snd seg
    ∧ ∀ x y, x ∈ seg → y ∈ seg → fst y - fst x <= 60.
Proof.
  apply (time_group_span strptime_iso spread_batch 60).
  vm_compute. by left.
Defined.

Lemma concat_length_twice {A} (gs : list (list A)) :
  Forall (λ g, (2 <= length g)%nat) gs → (2 * length gs <= length (concat gs))%nat.
Proof.
  induction 1 as [|g gs Hg _ IH]; simpl; [lia|]. rewrite length_app. lia.
Qed.

(** X3. The time groups, one after the other, are records of the batch
    sorted by instant, in that order and each position taken at most
    once: no record is put in two groups, and there are at most half as
    many groups as records. Every record of a group is a record of the
    batch whose timestamp parses. *)
Theorem time_groups_disjoint (strptime : string → option Z)
    (entries : list LogRecord) (window : Z) :
  sublist (concat (_build_time_groups strptime entries window))
    (map snd (sorted_timed strptime entries))
  ∧ (2 * length (_build_time_groups strptime entries window) <= length entries)%nat
  ∧ Forall (λ g, Forall (λ e, e ∈ entries
                              ∧ is_Some (_parse_timestamp strptime (get_timestamp e))) g)
      (_build_time_groups strptime entries window).
Proof.
  assert (Hsub : sublist (concat (_build_time_groups strptime entries window))
                   (map snd (sorted_timed strptime entries))).
  { rewrite build_time_groups_greedy. apply greedy_groups_concat. }
  split; [exact Hsub|]. split.
  - etrans; [apply concat_length_twice|].
    + apply Forall_forall. intros g Hg. by apply time_group_members in Hg as [? _].
    + apply sublist_length in Hsub. etrans; [exact Hsub|].
      rewrite length_map. unfold sorted_timed. rewrite sort_by_length.
      rewrite <- (length_map snd). apply sublist_length, timed_of_sublist.
  - apply Forall_forall. intros g Hg. apply Forall_forall. intros e He.
    apply time_group_members in Hg as [_ Hsub'].
    assert (Hin : e ∈ snd <$> timed_of strptime entries).
    { rewrite <- sorted_timed_perm. by eapply elem_of_sublist. }
    apply list_elem_of_fmap in Hin as (x & -> & Hx).
    apply timed_of_parsed in Hx as [? Hp]. split; [done|]. by rewrite Hp.
Qed.

(** ** The candidates of a merge *)

Lemma tier_line_sets (st : mc_state) : mc_inv st → NoDup (map line_set (candidates st)).
Proof. intros [Hseen Hnd]. by rewrite <- Hseen. Qed.

Lemma merge_candidates_nil (time_groups cross_refs : list (list LogRecord)) :
  _merge_candidates time_groups cross_refs = []
  ↔ time_groups = [] ∧ cross_refs = [].
Proof.
  rewrite (merge_candidates_by_tier time_groups cross_refs).
  pose proof (as_is_tier_nil cross_refs) as H2.
  pose proof (as_is_tier_nil time_groups) as H3.
  destruct (candidates (overlap_tier time_groups cross_refs (McState [] [])))
    as [|c1 cs1] eqn:H1.
  - destruct (candidates (as_is_tier cross_refs (McState [] []))) as [|c2 cs2].
    + rewrite H3. split; [|by intros [? _]]. intros ->. split; [done|]. by apply H2.
    + split; [done|]. intros [_ Hcr]. by apply H2 in Hcr.
  - split; [done|]. intros [-> ->]. done.
Qed.

(** X4. The merger returns no candidate only when it is given neither a
    time group nor a cross-reference cluster: what the two groupers find
    is never all dropped. *)
Theorem merge_candidates_nil_iff (time_groups cross_refs : list (list LogRecord)) :
  _merge_candidates time_groups cross_refs = []
  ↔ time_groups = [] ∧ cross_refs = [].
Proof. apply merge_candidates_nil. Qed.

(** X5. No two candidates of the merger have the same set of line
    numbers, whichever tier produced them. *)
Theorem merge_candidates_distinct_line_sets (time_groups cross_refs : list (list LogRecord)) :
  NoDup (map line_set (_merge_candidates time_groups cross_refs)).
Proof.
  rewrite (merge_candidates_by_tier time_groups cross_refs).
  pose proof (tier_line_sets _ (overlap_tier_inv time_groups cross_refs)) as H1.
  pose proof (tier_line_sets _ (as_is_tier_inv cross_refs)) as H2.
  pose proof (tier_line_sets _ (as_is_tier_inv time_groups)) as H3.
  destruct (candidates (overlap_tier time_groups cross_refs (McState [] [])));
    [|done].
  by destruct (candidates (as_is_tier cross_refs (McState [] []))).
Qed.

(** ** The run of the root-cause agent *)

(** X6. The root-cause agent calls the collaborator exactly when the
    batch has two actionable records or more and they give a time group
    or a cross-reference cluster; the prompt then renders the merged
    candidates, of which there is one at least, and the first ten issues.
    In any other case the agent returns no chain and calls nobody. *)
Theorem root_cause_run_cases (strptime : string → option Z)
    (iter : gset string → list string) (state : State) :
  let log_entries := default [] (state_log_entries state) in
  let actionable := List.filter is_actionable log_entries in
  let time_groups := _build_time_groups strptime actionable TIME_WINDOW in
  let cross_refs :=
    _find_cross_references actionable (iter (RootCause.service_names log_entries)) in
  let called := (2 <= length actionable)%nat ∧ (time_groups ≠ [] ∨ cross_refs ≠ []) in
  (called →
     RootCause.run strptime iter state
     = AskLLM (_merge_candidates time_groups cross_refs,
               firstn 10 (default [] (state_issues state))) chain_postprocess
     ∧ _merge_candidates time_groups cross_refs ≠ [])
  ∧ (¬ called → RootCause.run strptime iter state = Finished RootCause.no_chains).
Proof.
  intros log_entries actionable time_groups cross_refs called.
  unfold RootCause.run. fold log_entries. fold actionable.
  fold time_groups. fold cross_refs.
  pose proof (merge_candidates_nil time_groups cross_refs) as Hnil.
  split.
  - intros [Hlen Hsome].
    assert (Hne : _merge_candidates time_groups cross_refs ≠ []).
    { intros [-> ->]%Hnil. by destruct Hsome. }
    split; [|done].
    destruct log_entries as [|e tl] eqn:Hlog; [subst actionable; simpl in Hlen; lia|].
    replace (length actionable <? 2)%nat with false
      by (symmetry; apply Nat.ltb_ge; lia).
    by destruct (_merge_candidates time_groups cross_refs).
  - intros Hnot.
    destruct log_entries as [|e tl] eqn:Hlog; [done|].
    destruct (Nat.ltb_spec (length actionable) 2) as [|Hlen]; [done|].
    destruct (_merge_candidates time_groups cross_refs) as [|c cs] eqn:Hm; [done|].
    exfalso. apply Hnot. split; [done|].
    assert (Hsome : ¬ (time_groups = [] ∧ cross_refs = [])).
    { intros H. apply Hnil in H. discriminate H. }
    destruct (decide (time_groups = [])) as [Htg|Htg]; [|by left].
    right. intros Hcr. by apply Hsome.
Qed.

(** ** The cross-reference clusters *)

Lemma pairwise_disjoint_snoc (l : list (gset nat)) (s : gset nat) :
  pairwise_disjoint l → Forall (λ t, t ## s) l → pairwise_disjoint (l ++ [s]).
Proof.
  induction l as [|t tl IH]; simpl; [done|].
  intros [Ht Htl] Hall. apply Forall_cons in Hall as [Hts Hall].
  split; [|by apply IH].
  apply Forall_app. split; [done|]. by repeat constructor.
Qed.

Lemma dict_add_sets (Q : gset nat → Prop) (k : string) (i : nat) (d : index_dict) :
  Q {[ i ]} → (∀ s, Q s → Q (s ∪ {[ i ]})) →
  Forall (λ kv, Q (snd kv)) d → Forall (λ kv, Q (snd kv)) (dict_add k i d).
Proof.
  intros Hone Hadd. induction 1 as [|kv tl Hkv Htl IH]; simpl.
  - by repeat constructor.
  - destruct (bool_decide (fst kv = k)); constructor; simpl; auto.
Qed.

Section XrefScan.
Context (entries : list LogRecord) (all_services : list string).


Lemma xref_dict_add (k : string) (i : nat) (d : index_dict) :
  referring_index entries all_services i →
  Forall (λ kv, referring_set entries all_services (snd kv)) d → Forall (λ kv, referring_set entries all_services (snd kv)) (dict_add k i d).
Proof.
  intros Hi. apply dict_add_sets.
  - by intros j ->%elem_of_singleton.
  - intros s Hs j [Hj| ->%elem_of_singleton]%elem_of_union; [by apply Hs|done].
Qed.

Lemma xref_step_good (i : nat) (entry : LogRecord) (d : index_dict) (svc : string) :
  entries !! i = Some entry → svc ∈ all_services →
  Forall (λ kv, referring_set entries all_services (snd kv)) d →
  Forall (λ kv, referring_set entries all_services (snd kv)) (xref_step i entry d svc).
Proof.
  intros Hi Hsvc Hd. unfold xref_step.
  destruct (negb (bool_decide (Str.lower svc = lower_service entry))
            && Str.contains (Str.lower svc) (Str.lower (get_message entry))) eqn:Hc;
    [|done].
  assert (Href : referring_index entries all_services i).
  { exists entry. split; [done|]. unfold refers_to_other.
    apply existsb_exists. exists svc. split; [by apply list_elem_of_In|done]. }
  apply xref_dict_add; [done|]. by apply xref_dict_add.
Qed.

Lemma xref_inner_good (i : nat) (entry : LogRecord) (svcs : list string) :
  entries !! i = Some entry → (∀ svc, svc ∈ svcs → svc ∈ all_services) →
  ∀ d, Forall (λ kv, referring_set entries all_services (snd kv)) d →
       Forall (λ kv, referring_set entries all_services (snd kv)) (fold_left (xref_step i entry) svcs d).
Proof.
  intros Hi. induction svcs as [|svc tl IH]; intros Hsub d Hd; simpl; [done|].
  apply IH; [intros x Hx; apply Hsub; by right|].
  apply xref_step_good; [done|apply Hsub; by left|done].
Qed.

Lemma xref_scan_good (tl : list LogRecord) :
  ∀ i d, (∀ j e, tl !! j = Some e → entries !! (i + j)%nat = Some e) →
         Forall (λ kv, referring_set entries all_services (snd kv)) d →
         Forall (λ kv, referring_set entries all_services (snd kv)) (xref_scan all_services i tl d).
Proof.
  induction tl as [|entry tl IH]; intros i d Hat Hd; simpl; [done|].
  apply IH.
  - intros j e Hj. replace (S i + j)%nat with (i + S j)%nat by lia. by apply Hat.
  - apply xref_inner_good; [|done|done].
    specialize (Hat 0%nat entry eq_refl). by rewrite Nat.add_0_r in Hat.
Qed.

(** The clusters are the records at sets of indices, no index in two of
    the sets, every index the one of a record that names another
    service. *)
Lemma xref_clusters_indexed :
  ∃ idxs,
    _find_cross_references entries all_services = map (cluster_at entries) idxs
    ∧ pairwise_disjoint idxs
    ∧ Forall (referring_set entries all_services) idxs.
Proof.
  unfold _find_cross_references.
  assert (Hsets : Forall (referring_set entries all_services) (map snd (xref_scan all_services 0 entries []))).
  { apply Forall_map. apply xref_scan_good; [|constructor]. by intros j e. }
  revert Hsets. generalize (map snd (xref_scan all_services 0 entries [])) as sets.
  intros sets Hsets.
  assert (Hgen : ∀ st idxs,
    fst st = map (cluster_at entries) idxs → Forall (λ s, s ⊆ snd st) idxs →
    pairwise_disjoint idxs → Forall (referring_set entries all_services) idxs →
    ∃ idxs',
      fst (fold_left (xref_build_step entries) sets st) = map (cluster_at entries) idxs'
      ∧ pairwise_disjoint idxs' ∧ Forall (referring_set entries all_services) idxs').
  { induction Hsets as [|s tl Hs Htl IH]; intros st idxs Hst Hseen Hdis Hgood; simpl.
    - by exists idxs.
    - unfold xref_build_step at 2.
      destruct (2 <=? size (s ∖ snd st))%nat; [|by eapply IH].
      fold (cluster_at entries (s ∖ snd st)).
      destruct (2 <=? length (cluster_at entries (s ∖ snd st)))%nat; [|by eapply IH].
      apply (IH _ (idxs ++ [s ∖ snd st])); simpl.
      + by rewrite Hst, map_app.
      + apply Forall_app. split.
        * eapply Forall_impl; [exact Hseen|]. intros t Ht. simpl in Ht. set_solver.
        * repeat constructor. set_solver.
      + apply pairwise_disjoint_snoc; [done|].
        eapply Forall_impl; [exact Hseen|]. intros t Ht. simpl in Ht. set_solver.
      + apply Forall_app. split; [done|]. repeat constructor.
        intros i Hi. apply Hs. set_solver. }
  apply (Hgen ([], ∅) []); simpl; done.
Qed.

End XrefScan.

Lemma cluster_at_elem (entries : list LogRecord) (s : gset nat) (e : LogRecord) :
  e ∈ cluster_at entries s ↔ ∃ i, i ∈ s ∧ entries !! i = Some e.
Proof.
  unfold cluster_at. rewrite list_elem_of_omap.
  split; intros (i & Hi & He); exists i; (split; [|done]).
  - unfold sorted_indices in Hi. rewrite sort_by_perm in Hi. by apply elem_of_elements.
  - unfold sorted_indices. rewrite sort_by_perm. by apply elem_of_elements.
Qed.

Lemma sorted_indices_increasing (s : gset nat) : StronglySorted lt (sorted_indices s).
Proof.
  pose proof (sorted_indices_NoDup s) as Hnd.
  pose proof (sort_by_sorted Z.of_nat (elements s)) as Hs.
  fold (sorted_indices s) in Hs. revert Hs Hnd.
  generalize (sorted_indices s). clear.
  induction 1 as [|x tl Hs IH Hall]; intros Hnd; [constructor|].
  apply NoDup_cons in Hnd as [Hx Hnd].
  constructor; [by apply IH|].
  apply Forall_forall. intros y Hy.
  rewrite Forall_forall in Hall. specialize (Hall y Hy). unfold key_le in Hall.
  assert (x ≠ y) by (by intros ->). lia.
Qed.

Lemma omap_lookup_nil {A} (idx : list nat) : omap (λ i, (@nil A) !! i) idx = [].
Proof. induction idx as [|i idx IH]; [done|]. exact IH. Qed.

Lemma omap_lookup_pred {A} (x : A) (l : list A) (idx : list nat) :
  Forall (λ j, (0 < j)%nat) idx →
  omap (λ j, (x :: l) !! j) idx = omap (λ j, l !! j) (map pred idx).
Proof.
  induction 1 as [|j idx Hj _ IH]; [done|]. cbn [omap list_omap map].
  destruct j as [|j]; [lia|]. simpl. by rewrite IH.
Qed.

Lemma sorted_pred (idx : list nat) :
  Forall (λ j, (0 < j)%nat) idx → StronglySorted lt idx → StronglySorted lt (map pred idx).
Proof.
  intros Hpos. induction 1 as [|j idx Hs IH Hall]; simpl; [constructor|].
  apply Forall_cons in Hpos as [Hj Hpos].
  constructor; [by apply IH|].
  apply Forall_map. rewrite Forall_forall in Hall, Hpos |- *.
  intros k Hk. specialize (Hall k Hk). specialize (Hpos k Hk). simpl. lia.
Qed.

(** The records at increasing indices come in the order of the list. *)
Lemma lookup_sorted_sublist {A} (l : list A) :
  ∀ idx, StronglySorted lt idx → sublist (omap (λ i, l !! i) idx) l.
Proof.
  induction l as [|x l IH]; intros idx Hs.
  - replace (omap (λ i, [] !! i) idx) with (@nil A); [constructor|].
    symmetry. apply omap_lookup_nil.
  - destruct idx as [|i idx]; [apply sublist_nil_l|].
    pose proof Hs as Hs'. apply StronglySorted_inv in Hs' as [Hs' Hall].
    destruct i as [|i].
    + cbn [omap list_omap]. simpl. apply sublist_skip.
      rewrite omap_lookup_pred by done. apply IH. by apply sorted_pred.
    + assert (Hpos : Forall (λ j, (0 < j)%nat) (S i :: idx)).
      { constructor; [lia|]. eapply Forall_impl; [exact Hall|]. simpl. lia. }
      rewrite omap_lookup_pred by done. apply sublist_cons.
      apply IH. by apply sorted_pred.
Qed.

Lemma lookup_NoDup {A} (l : list A) (idx : list nat) :
  NoDup l → NoDup idx → NoDup (omap (λ i, l !! i) idx).
Proof.
  intros Hnd. induction 1 as [|i idx Hi Hidx IH]; simpl; [constructor|].
  destruct (l !! i) as [e|] eqn:He; [|done].
  apply NoDup_cons. split; [|done].
  intros (j & Hj & Hlook)%list_elem_of_omap.
  assert (i = j) by (by eapply (NoDup_lookup l i j e)). by subst.
Qed.

Lemma clusters_concat_NoDup (entries : list LogRecord) (idxs : list (gset nat)) :
  NoDup entries → pairwise_disjoint idxs →
  NoDup (concat (map (cluster_at entries) idxs)).
Proof.
  intros Hnd. induction idxs as [|s tl IH]; simpl; [constructor|].
  intros [Hdis Htl]. apply NoDup_app. split; [|split; [|by apply IH]].
  - apply lookup_NoDup; [done|apply sorted_indices_NoDup].
  - intros e (i & Hi & Hlook)%cluster_at_elem Hin.
    apply list_elem_of_In, in_concat in Hin as (c & Hc & He).
    apply list_elem_of_In, list_elem_of_fmap in Hc as (t & -> & Ht).
    apply list_elem_of_In, cluster_at_elem in He as (j & Hj & Hlook').
    assert (i = j) by (by eapply (NoDup_lookup entries i j e)). subst j.
    rewrite Forall_forall in Hdis. specialize (Hdis t Ht). set_solver.
Qed.

(** X7. Every record of a cross-reference cluster is a record of the
    batch whose message names, in lower case, a service of [all_services]
    other than its own; a batch in which no message names another
    service has no cluster. *)
Theorem cross_reference_clusters_refer (entries : list LogRecord)
    (all_services : list string) :
  Forall (λ c, Forall (λ e, e ∈ entries ∧ refers_to_other all_services e = true) c)
    (_find_cross_references entries all_services)
  ∧ (Forall (λ e, refers_to_other all_services e = false) entries →
     _find_cross_references entries all_services = []).
Proof.
  assert (Hsound :
    Forall (λ c, Forall (λ e, e ∈ entries ∧ refers_to_other all_services e = true) c)
      (_find_cross_references entries all_services)).
  { destruct (xref_clusters_indexed entries all_services) as (idxs & -> & _ & Hgood).
    apply Forall_map. eapply Forall_impl; [exact Hgood|].
    intros s Hs. simpl. apply Forall_forall.
    intros e (i & Hi & Hlook)%cluster_at_elem.
    destruct (Hs i Hi) as (e' & Hlook' & Href).
    assert (e' = e) by congruence. subst e'.
    split; [by eapply list_elem_of_lookup_2|done]. }
  split; [exact Hsound|].
  intros Hnone.
  destruct (_find_cross_references entries all_services) as [|c cs] eqn:Hx; [done|].
  exfalso.
  assert (Hc : c ∈ _find_cross_references entries all_services)
    by (rewrite Hx; by left).
  apply xref_clusters_members in Hc as [Hlen _].
  apply Forall_cons in Hsound as [Hall _].
  destruct c as [|e c]; [simpl in Hlen; lia|].
  apply Forall_cons in Hall as [[Hin Href] _].
  rewrite Forall_forall in Hnone. rewrite (Hnone e Hin) in Href. done.
Qed.

(** X8. A cross-reference cluster lists records of the batch in the
    order of the batch, and no position of the batch is taken by two
    clusters: when the records of the batch are pairwise distinct, no
    record is in two clusters, nor twice in one. *)
Theorem cross_reference_clusters_disjoint (entries : list LogRecord)
    (all_services : list string) :
  Forall (λ c, sublist c entries) (_find_cross_references entries all_services)
  ∧ (NoDup entries → NoDup (concat (_find_cross_references entries all_services))).
Proof.
  destruct (xref_clusters_indexed entries all_services) as (idxs & -> & Hdis & _).
  split.
  - apply Forall_map, Forall_forall. intros s _. simpl.
    apply lookup_sorted_sublist, sorted_indices_increasing.
  - intros Hnd. by apply clusters_concat_NoDup.
Qed.

(** ** The frequency detector and the order of arrival *)

Lemma drops_sorted (gaps : list Z) : Sorted Z.le gaps → drops gaps = 0%nat.
Proof.
  induction 1 as [|g0 tl Hs IH Hhd]; [done|].
  destruct Hhd as [|g1 tl' Hle]; [done|].
  change (drops (g0 :: g1 :: tl'))
    with (if g1 <? g0 then S (drops (g1 :: tl')) else drops (g1 :: tl')).
  by destruct (Z.ltb_spec g1 g0); [lia|].
Qed.

(** X9. A service whose records arrive at a steady or slowing pace, no
    gap shorter than the one before it, gets no frequency signal,
    however many records it has. *)
Theorem steady_arrivals_never_fire (strptime : string → option Z)
    (entries_by_service : by_service) (svc : string) :
  (∀ entries, (svc, entries) ∈ entries_by_service →
     Sorted Z.le (gaps_between (map fst (sorted_timed strptime entries)))) →
  Forall (λ s, sig_service s ≠ svc)
    (_detect_frequency_acceleration strptime entries_by_service).
Proof.
  intros Hsteady. apply Forall_forall. intros s Hs Hsvc.
  unfold _detect_frequency_acceleration in Hs.
  apply list_elem_of_omap in Hs as ([k es] & Hkv & Hsig). simpl in Hsig.
  pose proof (frequency_signal_service _ _ _ _ Hsig) as Hk.
  rewrite Hsvc in Hk. subst k.
  assert (Hfires : is_Some (frequency_signal strptime svc es)) by (by eexists).
  apply frequency_signal_fires in Hfires as (_ & _ & Hone).
  rewrite (drops_sorted _ (Hsteady es Hkv)) in Hone. lia.
Qed.

Lemma steady_arrivals_never_fire_witness :
  Forall (λ s, sig_service s ≠ "api")
    (_detect_frequency_acceleration strptime_iso
       [("api", steady_batch); ("db", accelerating_batch)]).
Proof.
  apply (steady_arrivals_never_fire strptime_iso).
  intros entries [Heq|Hin]%elem_of_cons.
  - injection Heq as ->.
    replace (gaps_between (map fst (sorted_timed strptime_iso steady_batch)))
      with [10; 10; 20] by (by vm_compute).
    repeat constructor; lia.
  - apply list_elem_of_singleton in Hin. discriminate Hin.
Defined.

Lemma sorted_keys {A} (key : A → Z) (l : list A) :
  StronglySorted (key_le key) l → StronglySorted Z.le (map key l).
Proof.
  induction 1 as [|x tl Hs IH Hall]; simpl; [constructor|].
  constructor; [done|]. by apply Forall_map.
Qed.

Lemma timed_of_perm (strptime : string → option Z) (l l' : list LogRecord) :
  l ≡ₚ l' → timed_of strptime l ≡ₚ timed_of strptime l'.
Proof. intros Hp. rewrite !timed_of_omap. by rewrite Hp. Qed.

(** The instants of the sorted records do not depend on the order of
    the batch. *)
Lemma sorted_instants_perm (strptime : string → option Z) (l l' : list LogRecord) :
  l ≡ₚ l' →
  map fst (sorted_timed strptime l) = map fst (sorted_timed strptime l').
Proof.
  intros Hp.
  assert (AntiSymm (=) Z.le) by (intros a b; lia).
  apply (StronglySorted_unique Z.le).
  - apply sorted_keys, sorted_timed_sorted.
  - apply sorted_keys, sorted_timed_sorted.
  - change (fst <$> sorted_timed strptime l ≡ₚ fst <$> sorted_timed strptime l').
    rewrite !sorted_timed_perm. by rewrite (timed_of_perm strptime l l' Hp).
Qed.

(** X10. The frequency detector does not depend on the order in which
    the records of a service arrive: two batches with the same records
    fire together, with the same gaps in evidence and the same count. *)
Theorem frequency_order_independent (strptime : string → option Z) (svc : string)
    (entries entries' : list LogRecord) :
  entries ≡ₚ entries' →
  gaps_and_count <$> frequency_signal strptime svc entries
  = gaps_and_count <$> frequency_signal strptime svc entries'.
Proof.
  intros Hp. unfold frequency_signal.
  pose proof (sorted_instants_perm strptime entries entries' Hp) as Hinst.
  assert (Hlen : length (sorted_timed strptime entries)
                 = length (sorted_timed strptime entries')).
  { rewrite <- (length_map fst (sorted_timed strptime entries)), Hinst.
    apply length_map. }
  rewrite Hinst, Hlen.
  destruct (length (sorted_timed strptime entries') <? 3)%nat; [done|].
  by destruct ((2 <=? length (gaps_of (map fst (sorted_timed strptime entries'))))%nat
               && accelerating (gaps_of (map fst (sorted_timed strptime entries')))).
Qed.

Lemma frequency_order_independent_witness :
  gaps_and_count <$> frequency_signal strptime_iso "api" accelerating_batch
  = gaps_and_count <$> frequency_signal strptime_iso "api" (rev accelerating_batch).
Proof.
  apply (frequency_order_independent strptime_iso "api").
  apply Permutation_rev.
Defined.

(** ** The known patterns of a batch *)

Lemma scan_first_disk (svc : string) (entries : list LogRecord) :
  scan_first (disk_record svc) entries = Ok [].
Proof.
  induction entries as [|e tl IH]; simpl; [done|].
  by rewrite disk_record_never_fires.
Qed.

(** A scan yields nothing, or the signal of the first record that has
    one. *)
Lemma scan_first_out (check : LogRecord → result (option Signal))
    (entries : list LogRecord) (out : list Signal) :
  scan_first check entries = Ok out →
  out = [] ∨ ∃ e s, e ∈ entries ∧ check e = Ok (Some s) ∧ out = [s].
Proof.
  revert out. induction entries as [|e tl IH]; simpl; intros out.
  - intros [= <-]. by left.
  - destruct (check e) as [[s|]|x] eqn:He; simpl; [| |done].
    + intros [= <-]. right. exists e, s. split; [by left|done].
    + intros [H|(e' & s & Hin & Hc & ->)]%IH; [by left|].
      right. exists e', s. split; [by right|done].
Qed.

Lemma pool_record_signal (svc : string) (e : LogRecord) (s : Signal) :
  pool_record svc e = Ok (Some s) → signal_tag s = (svc, Some "pool_exhaustion").
Proof.
  unfold pool_record.
  destruct (Re.search true pool_exhaustion_re (get_message e)); [|done].
  destruct (Re.search false ratio_re (get_message e)) as [m|]; [|done].
  intros H%try_pass_Some. unfold pool_try in H.
  destruct (Re.group 1 m); [|done]. simpl in H.
  destruct (py_int _); [|done]. simpl in H.
  destruct (Re.group 2 m); [|done]. simpl in H.
  destruct (py_int _); [|done]. simpl in H.
  destruct (if 0 <? _ then _ else _) as [[|]|]; simpl in H; try done.
  by injection H as <-.
Qed.

Lemma circuit_record_signal (svc : string) (e : LogRecord) (s : Signal) :
  circuit_record svc e = Ok (Some s) → signal_tag s = (svc, Some "circuit_breaker").
Proof.
  unfold circuit_record.
  destruct (Re.search true circuit_breaker_re (get_message e)); [|done].
  by intros [= <-].
Qed.

Lemma scan_first_tags (check : LogRecord → result (option Signal))
    (tag : string * option string) (entries : list LogRecord) (out : list Signal) :
  (∀ e s, check e = Ok (Some s) → signal_tag s = tag) →
  scan_first check entries = Ok out →
  sublist (map signal_tag out) [tag].
Proof.
  intros Htag [->|(e & s & _ & Hc & ->)]%scan_first_out; [apply sublist_nil_l|].
  simpl. by rewrite (Htag e s Hc).
Qed.

Lemma brute_force_tags (svc : string) (entries : list LogRecord) :
  sublist (map signal_tag (brute_force_check svc entries)) [(svc, Some "brute_force")].
Proof.
  unfold brute_force_check.
  destruct (3 <=? length (auth_failures entries))%nat; [done|apply sublist_nil_l].
Qed.

(** The signals of a service: the brute-force one, then the pool one,
    then the circuit-breaker one, each at most once. *)
Lemma known_patterns_of_out (svc : string) (entries : list LogRecord)
    (out : list Signal) :
  known_patterns_of svc entries = Ok out →
  ∃ p c,
    scan_first (pool_record svc) entries = Ok p
    ∧ scan_first (circuit_record svc) entries = Ok c
    ∧ out = brute_force_check svc entries ++ p ++ c.
Proof.
  unfold known_patterns_of. rewrite scan_first_disk. simpl.
  destruct (scan_first (pool_record svc) entries) as [p|]; [|done]. simpl.
  destruct (scan_first (circuit_record svc) entries) as [c|]; [|done]. simpl.
  intros [= <-]. by exists p, c.
Qed.

Lemma known_patterns_of_tags (svc : string) (entries : list LogRecord)
    (out : list Signal) :
  known_patterns_of svc entries = Ok out →
  sublist (map signal_tag out)
    [(svc, Some "brute_force"); (svc, Some "pool_exhaustion");
     (svc, Some "circuit_breaker")].
Proof.
  intros (p & c & Hp & Hc & ->)%known_patterns_of_out.
  rewrite !map_app.
  apply (sublist_app _ [_] _ [_; _]); [apply brute_force_tags|].
  apply (sublist_app _ [_] _ [_]).
  - eapply scan_first_tags; [apply pool_record_signal|done].
  - eapply scan_first_tags; [apply circuit_record_signal|done].
Qed.

(** The signals of a batch are those of its services, in their order. *)
Lemma detect_known_patterns_out (entries_by_service : by_service) (out : list Signal) :
  _detect_known_patterns entries_by_service = Ok out →
  ∃ outs,
    Forall2 (λ kv o, known_patterns_of (fst kv) (snd kv) = Ok o) entries_by_service outs
    ∧ out = concat outs.
Proof.
  revert out. induction entries_by_service as [|[svc entries] tl IH]; simpl; intros out.
  - intros [= <-]. by exists [].
  - destruct (known_patterns_of svc entries) as [here|] eqn:Hhere; [|done]. simpl.
    destruct (_detect_known_patterns tl) as [rest|]; [|done]. simpl.
    intros [= <-]. destruct (IH rest eq_refl) as (outs & Hall & ->).
    exists (here :: outs). split; [by constructor|done].
Qed.

(** A signal of a batch is a signal of the service it names. *)
Lemma detect_known_patterns_elem (entries_by_service : by_service) (out : list Signal)
    (s : Signal) :
  _detect_known_patterns entries_by_service = Ok out → s ∈ out →
  ∃ entries o,
    (sig_service s, entries) ∈ entries_by_service
    ∧ known_patterns_of (sig_service s) entries = Ok o ∧ s ∈ o.
Proof.
  intros (outs & Hall & ->)%detect_known_patterns_out Hs.
  apply list_elem_of_In, in_concat in Hs as (o & Ho & Hs).
  apply list_elem_of_In in Ho, Hs.
  apply list_elem_of_lookup in Ho as [i Ho].
  destruct (Forall2_lookup_r _ _ _ _ _ Hall Ho) as ([svc entries] & Hkv & Hk).
  simpl in Hk.
  assert (Htag : signal_tag s ∈ map signal_tag o) by (by apply list_elem_of_fmap_2).
  pose proof (known_patterns_of_tags _ _ _ Hk) as Hsub.
  eapply elem_of_sublist in Htag; [|exact Hsub].
  assert (Hsvc : sig_service s = svc).
  { unfold signal_tag in Htag.
    repeat (apply elem_of_cons in Htag as [Htag|Htag]; [by injection Htag|]).
    by apply elem_of_nil in Htag. }
  subst svc. exists entries, o. split; [by eapply list_elem_of_lookup_2|done].
Qed.

(** X11. Whatever the batch, the known-pattern detector reports no
    [disk_critical] signal: the percentage it reads is the last digit
    before the percent sign. *)
Theorem disk_critical_never_reported (entries_by_service : by_service)
    (out : list Signal) :
  _detect_known_patterns entries_by_service = Ok out →
  Forall (λ s, pattern s ≠ Some "disk_critical") out.
Proof.
  intros Hout. apply Forall_forall. intros s Hs Hp.
  destruct (detect_known_patterns_elem _ _ _ Hout Hs) as (entries & o & _ & Hk & Ho).
  assert (Htag : signal_tag s ∈ map signal_tag o) by (by apply list_elem_of_fmap_2).
  eapply elem_of_sublist in Htag; [|exact (known_patterns_of_tags _ _ _ Hk)].
  unfold signal_tag in Htag. rewrite Hp in Htag.
  repeat (apply elem_of_cons in Htag as [Htag|Htag]; [discriminate Htag|]).
  by apply elem_of_nil in Htag.
Qed.

Lemma disk_critical_never_reported_witness :
  Forall (λ s, pattern s ≠ Some "disk_critical")
    [known_signal "db" "circuit_breaker"
       ["Circuit breaker or retry exhaustion detected";
        "Entry: circuit breaker open for storage"]].
Proof.
  apply (disk_critical_never_reported
           [("db", [message_record "Disk usage 95% on /var";
                    message_record "circuit breaker open for storage"])]).
  by vm_compute.
Defined.

(** X12. The known-pattern detector reports at most one signal for a
    service and a pattern, and only for services of the batch. *)
Theorem one_signal_per_service_and_pattern (entries_by_service : by_service)
    (out : list Signal) :
  NoDup (map fst entries_by_service) →
  _detect_known_patterns entries_by_service = Ok out →
  NoDup (map signal_tag out)
  ∧ Forall (λ s, sig_service s ∈ map fst entries_by_service) out.
Proof.
  intros Hnd Hout. split.
  - revert out Hnd Hout.
    induction entries_by_service as [|[svc entries] tl IH]; simpl; intros out Hnd.
    { intros [= <-]. constructor. }
    apply NoDup_cons in Hnd as [Hsvc Hnd].
    destruct (known_patterns_of svc entries) as [here|] eqn:Hhere; [|done]. simpl.
    destruct (_detect_known_patterns tl) as [rest|] eqn:Hrest; [|done]. simpl.
    intros [= <-]. rewrite map_app. apply NoDup_app.
    pose proof (known_patterns_of_tags _ _ _ Hhere) as Hsub.
    split; [|split; [|by apply IH]].
    + eapply sublist_NoDup; [|exact Hsub].
      repeat (apply NoDup_cons; split;
              [rewrite ?elem_of_cons, ?elem_of_nil; intuition congruence|]).
      constructor.
    + intros tag Hhere_tag (s & -> & Hs)%list_elem_of_fmap.
      destruct (detect_known_patterns_elem _ _ _ Hrest Hs) as (es & _ & Hin & _).
      eapply elem_of_sublist in Hhere_tag; [|exact Hsub].
      assert (sig_service s = svc).
      { unfold signal_tag in Hhere_tag.
        repeat (apply elem_of_cons in Hhere_tag as [Hhere_tag|Hhere_tag];
                [by injection Hhere_tag|]).
        by apply elem_of_nil in Hhere_tag. }
      apply Hsvc. subst svc. by apply (list_elem_of_fmap_2 fst) in Hin.
  - apply Forall_forall. intros s Hs.
    destruct (detect_known_patterns_elem _ _ _ Hout Hs) as (es & _ & Hin & _).
    by apply (list_elem_of_fmap_2 fst) in Hin.
Qed.

Lemma one_signal_per_service_and_pattern_witness :
  NoDup (map signal_tag
           [known_signal "db" "pool_exhaustion"
              ["Pool at 76/100 (76%)"; "Entry: connection pool 76/100 connections"]])
  ∧ Forall (λ s, sig_service s ∈ ["db"])
      [known_signal "db" "pool_exhaustion"
         ["Pool at 76/100 (76%)"; "Entry: connection pool 76/100 connections"]].
Proof.
  apply (one_signal_per_service_and_pattern
           [("db", [message_record "connection pool 76/100 connections";
                    message_record "connection pool 99/100 connections"])]).
  - repeat constructor. by intros ?%elem_of_nil.
  - by vm_compute.
Defined.

(** X13. The brute-force signal of a service is reported exactly when
    three records of the service or more match the signature; it counts
    them and quotes the first 80 characters of the first one. *)
Theorem brute_force_needs_three (entries_by_service : by_service) (out : list Signal)
    (svc : string) (entries : list LogRecord) :
  NoDup (map fst entries_by_service) →
  (svc, entries) ∈ entries_by_service →
  _detect_known_patterns entries_by_service = Ok out →
  let hits := auth_failures entries in
  if (3 <=? length hits)%nat
  then known_signal svc "brute_force"
         [Str.of_Z (Z.of_nat (length hits)) +:+ " auth failure entries detected";
          "Sample: " +:+ Str.take 80 (get_message (List.hd (mkRecord None None None None None) hits))]
       ∈ out
  else Forall (λ s, signal_tag s ≠ (svc, Some "brute_force")) out.
Proof.
  intros Hnd Hin Hout hits.
  destruct (3 <=? length hits)%nat eqn:Hlen.
  - apply detect_known_patterns_out in Hout as (outs & Hall & ->).
    apply list_elem_of_lookup in Hin as [i Hi].
    destruct (Forall2_lookup_l _ _ _ _ _ Hall Hi) as (o & Ho & Hk). simpl in Hk.
    apply known_patterns_of_out in Hk as (p & c & _ & _ & ->).
    apply list_elem_of_In, in_concat.
    eexists. split; [apply list_elem_of_In; by eapply list_elem_of_lookup_2|].
    apply list_elem_of_In, elem_of_app. left.
    unfold brute_force_check. fold hits. rewrite Hlen. by left.
  - apply Forall_forall. intros s Hs Htag.
    destruct (detect_known_patterns_elem _ _ _ Hout Hs) as (es & o & Hes & Hk & Ho).
    assert (sig_service s = svc) by (by injection Htag).
    subst svc. rewrite <- (assoc_functional _ _ _ _ Hnd Hin Hes) in Hk.
    apply known_patterns_of_out in Hk as (p & c & Hp & Hc & ->).
    unfold brute_force_check in Ho. fold hits in Ho. rewrite Hlen in Ho. simpl in Ho.
    apply elem_of_app in Ho as [Ho|Ho].
    + apply scan_first_out in Hp as [->|(e & s' & _ & He & ->)];
        [by apply elem_of_nil in Ho|].
      apply list_elem_of_singleton in Ho as ->.
      apply pool_record_signal in He. congruence.
    + apply scan_first_out in Hc as [->|(e & s' & _ & He & ->)];
        [by apply elem_of_nil in Ho|].
      apply list_elem_of_singleton in Ho as ->.
      apply circuit_record_signal in He. congruence.
Qed.

Lemma brute_force_needs_three_witness :
  known_signal "auth" "brute_force"
    ["3 auth failure entries detected"; "Sample: Failed login for admin"]
  ∈ [known_signal "auth" "brute_force"
       ["3 auth failure entries detected"; "Sample: Failed login for admin"]].
Proof.
  assert (Hhits : auth_failures [failed_login 1; failed_login 2; failed_login 3]
                  = [failed_login 1; failed_login 2; failed_login 3]) by (by vm_compute).
  pose proof (brute_force_needs_three
                [("auth", [failed_login 1; failed_login 2; failed_login 3])]
                [known_signal "auth" "brute_force"
                   ["3 auth failure entries detected"; "Sample: Failed login for admin"]]
                "auth" [failed_login 1; failed_login 2; failed_login 3]) as H.
  cbv zeta in H. rewrite Hhits in H. apply H.
  - repeat constructor. by intros ?%elem_of_nil.
  - by left.
  - by vm_compute.
Defined.

Lemma scan_first_circuit (svc : string) (entries : list LogRecord) :
  scan_first (circuit_record svc) entries
  = Ok (match List.find circuit_match entries with
        | Some e =>
            [known_signal svc "circuit_breaker"
               ["Circuit breaker or retry exhaustion detected";
                "Entry: " +:+ Str.take 80 (get_message e)]]
        | None => []
        end).
Proof.
  induction entries as [|e tl IH]; [done|]. cbn [scan_first List.find].
  assert (Hrec : circuit_record svc e
                 = Ok (if circuit_match e
                       then Some (known_signal svc "circuit_breaker"
                                    ["Circuit breaker or retry exhaustion detected";
                                     "Entry: " +:+ Str.take 80 (get_message e)])
                       else None)).
  { unfold circuit_record, circuit_match.
    destruct (Re.search true circuit_breaker_re (get_message e)) as [m|].
    - by rewrite bool_decide_eq_true_2 by (by eexists).
    - by rewrite bool_decide_eq_false_2 by (by intros [? ?]). }
  rewrite Hrec. destruct (circuit_match e); simpl; [done|exact IH].
Qed.

(** X14. The circuit-breaker signal of a service is reported exactly
    when a record of the service matches the signature, and it quotes
    the first 80 characters of the first record that does. *)
Theorem circuit_breaker_first_match (entries_by_service : by_service)
    (out : list Signal) (svc : string) (entries : list LogRecord) :
  NoDup (map fst entries_by_service) →
  (svc, entries) ∈ entries_by_service →
  _detect_known_patterns entries_by_service = Ok out →
  match List.find circuit_match entries with
  | Some e =>
      known_signal svc "circuit_breaker"
        ["Circuit breaker or retry exhaustion detected";
         "Entry: " +:+ Str.take 80 (get_message e)] ∈ out
  | None => Forall (λ s, signal_tag s ≠ (svc, Some "circuit_breaker")) out
  end.
Proof.
  intros Hnd Hin Hout.
  pose proof (scan_first_circuit svc entries) as Hscan.
  destruct (List.find circuit_match entries) as [e|].
  - apply detect_known_patterns_out in Hout as (outs & Hall & ->).
    apply list_elem_of_lookup in Hin as [i Hi].
    destruct (Forall2_lookup_l _ _ _ _ _ Hall Hi) as (o & Ho & Hk). simpl in Hk.
    apply known_patterns_of_out in Hk as (p & c & _ & Hc & ->).
    rewrite Hscan in Hc. injection Hc as <-.
    apply list_elem_of_In, in_concat.
    eexists. split; [apply list_elem_of_In; by eapply list_elem_of_lookup_2|].
    apply list_elem_of_In. rewrite !elem_of_app. right. right. by left.
  - apply Forall_forall. intros s Hs Htag.
    destruct (detect_known_patterns_elem _ _ _ Hout Hs) as (es & o & Hes & Hk & Ho).
    assert (sig_service s = svc) by (by injection Htag).
    subst svc. rewrite <- (assoc_functional _ _ _ _ Hnd Hin Hes) in Hk.
    apply known_patterns_of_out in Hk as (p & c & Hp & Hc & ->).
    rewrite Hscan in Hc. injection Hc as <-. rewrite app_nil_r in Ho.
    apply elem_of_app in Ho as [Ho|Ho].
    + unfold brute_force_check in Ho.
      destruct (3 <=? length (auth_failures entries))%nat; [|by apply elem_of_nil in Ho].
      apply list_elem_of_singleton in Ho. apply (f_equal pattern) in Ho.
      simpl in Ho. injection Htag as Hpat. congruence.
    + apply scan_first_out in Hp as [->|(e & s' & _ & He & ->)];
        [by apply elem_of_nil in Ho|].
      apply list_elem_of_singleton in Ho as ->.
      apply pool_record_signal in He. congruence.
Qed.

Lemma circuit_breaker_first_match_witness :
  known_signal "api" "circuit_breaker"
    ["Circuit breaker or retry exhaustion detected";
     "Entry: circuit breaker open for db"]
  ∈ [known_signal "api" "circuit_breaker"
       ["Circuit breaker or retry exhaustion detected";
        "Entry: circuit breaker open for db"]].
Proof.
  assert (Hfind :
    List.find circuit_match
      [message_record "request served"; message_record "circuit breaker open for db";
       message_record "retries exhausted"]
    = Some (message_record "circuit breaker open for db")) by (by vm_compute).
  pose proof (circuit_breaker_first_match
                [("api", [message_record "request served";
                          message_record "circuit breaker open for db";
                          message_record "retries exhausted"])]
                [known_signal "api" "circuit_breaker"
                   ["Circuit breaker or retry exhaustion detected";
                    "Entry: circuit breaker open for db"]]
                "api"
                [message_record "request served";
                 message_record "circuit breaker open for db";
                 message_record "retries exhausted"]) as H.
  rewrite Hfind in H. apply H.
  - repeat constructor. by intros ?%elem_of_nil.
  - by left.
  - by vm_compute.
Defined.

(** ** The numeric trends of a batch *)

Lemma py_float_raises (s : string) (x : exn) : py_float s = Raise x → x = ValueError.
Proof.
  unfold py_float.
  destruct (bool_decide (Str.chars s ≠ []) && forallb Str.is_digit (Str.chars s));
    congruence.
Qed.

Lemma trend_pattern_step_push (e : LogRecord) (d : values_dict)
    (np : string * (bool * Re.regex)) :
  trend_pattern_step e d np = Ok (push_reading e d np).
Proof.
  unfold trend_pattern_step, push_reading, reading_of, trend_try.
  destruct (Re.search _ _ _) as [m|]; [|done].
  destruct (Re.group 1 m) as [g|x] eqn:Hg; simpl.
  - destruct (py_float g) as [v|x] eqn:Hv; simpl; [done|].
    by apply py_float_raises in Hv as ->.
  - by apply group_raises in Hg as ->.
Qed.

Lemma fold_result_ok {A B} (f : A → B → result A) (g : A → B → A) (l : list B) :
  (∀ a x, f a x = Ok (g a x)) → ∀ a, fold_result f l a = Ok (fold_left g l a).
Proof.
  intros Hfg. induction l as [|x tl IH]; intros a; simpl; [done|].
  rewrite Hfg. simpl. apply IH.
Qed.

(** The collection never raises. *)
Lemma collect_values_push (entries : list LogRecord) :
  collect_values entries = Ok (collected entries).
Proof.
  unfold collect_values, collected. apply fold_result_ok. intros d e.
  apply fold_result_ok. intros d' np. apply trend_pattern_step_push.
Qed.

Lemma values_push_of (name name' : string) (r : reading) (d : values_dict) :
  values_of name' (values_push name r d)
  = if bool_decide (name = name') then values_of name' d ++ [r] else values_of name' d.
Proof.
  induction d as [|[k vs] tl IH]; simpl.
  - by destruct (bool_decide (name = name')).
  - destruct (bool_decide_reflect (k = name)) as [->|Hne]; simpl.
    + by destruct (bool_decide (name = name')).
    + rewrite IH. destruct (bool_decide_reflect (k = name')) as [->|Hne'].
      * by rewrite bool_decide_eq_false_2 by congruence.
      * done.
Qed.

Lemma values_push_keys (name : string) (r : reading) (d : values_dict) :
  map fst (values_push name r d)
  = if bool_decide (name ∈ map fst d) then map fst d else map fst d ++ [name].
Proof.
  induction d as [|[k vs] tl IH]; simpl; [done|].
  destruct (bool_decide_reflect (k = name)) as [->|Hne]; simpl.
  - rewrite bool_decide_eq_true_2; [done|]. by left.
  - rewrite IH.
    destruct (bool_decide_reflect (name ∈ map fst tl)) as [Hin|Hnin].
    + rewrite bool_decide_eq_true_2; [done|]. by right.
    + rewrite bool_decide_eq_false_2; [done|].
      intros [?|?]%elem_of_cons; congruence.
Qed.

(** What holds of the dictionary of the collection: its names are
    distinct and none has an empty list. *)
Lemma values_push_ok (name : string) (r : reading) (d : values_dict) :
  NoDup (map fst d) ∧ Forall (λ kv, snd kv ≠ []) d →
  NoDup (map fst (values_push name r d))
  ∧ Forall (λ kv, snd kv ≠ []) (values_push name r d).
Proof.
  intros [Hnd Hne]. split.
  - rewrite values_push_keys. case_bool_decide as Hin; [done|].
    apply NoDup_app. split; [done|].
    split; [|repeat constructor; by intros ?%elem_of_nil].
    by intros x Hx ->%list_elem_of_singleton.
  - clear Hnd. induction Hne as [|kv tl Hkv Htl IH]; simpl.
    + by repeat constructor.
    + destruct (bool_decide (fst kv = name)); constructor; simpl; try done.
      by intros [? ?]%app_eq_nil.
Qed.

Lemma collected_ok (entries : list LogRecord) :
  NoDup (map fst (collected entries)) ∧ Forall (λ kv, snd kv ≠ []) (collected entries).
Proof.
  unfold collected.
  assert (Hinner : ∀ e table d,
    NoDup (map fst d) ∧ Forall (λ kv, snd kv ≠ []) d →
    NoDup (map fst (fold_left (push_reading e) table d))
    ∧ Forall (λ kv, snd kv ≠ []) (fold_left (push_reading e) table d)).
  { intros e table. induction table as [|np tl IH]; intros d Hd; simpl; [done|].
    apply IH. unfold push_reading. destruct (reading_of np e); [|done].
    by apply values_push_ok. }
  assert (Houter : ∀ d,
    NoDup (map fst d) ∧ Forall (λ kv, snd kv ≠ []) d →
    NoDup (map fst (fold_left (λ d e, fold_left (push_reading e) NUMERIC_PATTERNS d)
                      entries d))
    ∧ Forall (λ kv, snd kv ≠ [])
        (fold_left (λ d e, fold_left (push_reading e) NUMERIC_PATTERNS d) entries d)).
  { induction entries as [|e tl IH]; intros d Hd; cbn [fold_left]; [done|].
    apply IH. by apply Hinner. }
  apply Houter. split; constructor.
Qed.

(** After the patterns of a table, a name has gained the reading of its
    pattern, if the table has one for it and it reads one. *)
Lemma inner_values_of (e : LogRecord) (name : string)
    (table : list (string * (bool * Re.regex))) :
  NoDup (map fst table) →
  ∀ d, values_of name (fold_left (push_reading e) table d)
       = values_of name d
         ++ option_list (pattern_of name table ≫= λ np, reading_of np e).
Proof.
  induction table as [|np tl IH]; intros Hnd d; simpl.
  - by rewrite app_nil_r.
  - apply NoDup_cons in Hnd as [Hnp Hnd]. rewrite (IH Hnd).
    assert (Hrest : fst np = name → pattern_of name tl = None).
    { intros <-. clear -Hnp. induction tl as [|np' tl IH]; [done|].
      cbn [pattern_of]. cbn [map] in Hnp.
      rewrite bool_decide_eq_false_2.
      - apply IH. intros Hin. apply Hnp. by right.
      - intros Heq. apply Hnp. rewrite <- Heq. by left. }
    unfold push_reading at 1.
    destruct (bool_decide_reflect (fst np = name)) as [Heq|Hne].
    + rewrite (Hrest Heq). simpl. rewrite app_nil_r.
      destruct (reading_of np e) as [r|]; simpl; [|by rewrite app_nil_r].
      rewrite values_push_of. by rewrite bool_decide_eq_true_2.
    + destruct (reading_of np e) as [r|]; [|done].
      rewrite values_push_of. by rewrite bool_decide_eq_false_2.
Qed.

Lemma pattern_of_elem (np : string * (bool * Re.regex))
    (table : list (string * (bool * Re.regex))) :
  NoDup (map fst table) → np ∈ table → pattern_of (fst np) table = Some np.
Proof.
  induction table as [|np' tl IH]; simpl; intros Hnd; [by intros ?%elem_of_nil|].
  apply NoDup_cons in Hnd as [Hnp' Hnd].
  intros [->|Hin]%elem_of_cons; [by rewrite bool_decide_eq_true_2|].
  rewrite bool_decide_eq_false_2; [by apply IH|].
  intros Heq. apply Hnp'. rewrite Heq. by apply (list_elem_of_fmap_2 fst).
Qed.

Lemma numeric_patterns_NoDup : NoDup (map fst NUMERIC_PATTERNS).
Proof.
  unfold NUMERIC_PATTERNS. cbn [map fst].
  repeat (apply NoDup_cons; split;
          [rewrite ?elem_of_cons, ?elem_of_nil; intuition discriminate|]).
  constructor.
Qed.

(** The values collected under the name of a pattern are the readings
    of the pattern, in the order of the records. *)
Lemma collected_values_of (np : string * (bool * Re.regex)) (entries : list LogRecord) :
  np ∈ NUMERIC_PATTERNS →
  values_of (fst np) (collected entries) = readings_of np entries.
Proof.
  intros Hnp. unfold collected.
  assert (Hgen : ∀ d,
    values_of (fst np)
      (fold_left (λ d e, fold_left (push_reading e) NUMERIC_PATTERNS d) entries d)
    = values_of (fst np) d ++ readings_of np entries).
  { induction entries as [|e tl IH]; intros d; cbn [fold_left].
    - unfold readings_of. simpl. by rewrite app_nil_r.
    - rewrite IH, (inner_values_of e (fst np) _ numeric_patterns_NoDup).
      rewrite (pattern_of_elem np _ numeric_patterns_NoDup Hnp).
      rewrite <- app_assoc. f_equal. unfold readings_of. cbn [omap list_omap mbind option_bind].
      by destruct (reading_of np e). }
  by rewrite Hgen.
Qed.

Lemma values_of_elem (name : string) (d : values_dict) (vs : list reading) :
  NoDup (map fst d) → (name, vs) ∈ d → values_of name d = vs.
Proof.
  induction d as [|[k vs'] tl IH]; simpl; intros Hnd; [by intros ?%elem_of_nil|].
  apply NoDup_cons in Hnd as [Hk Hnd].
  intros [[= <- <-]|Hin]%elem_of_cons; [by rewrite bool_decide_eq_true_2|].
  rewrite bool_decide_eq_false_2; [by apply IH|].
  intros ->. apply Hk. by apply (list_elem_of_fmap_2 fst) in Hin.
Qed.

Lemma values_of_key (name : string) (d : values_dict) :
  values_of name d ≠ [] → (name, values_of name d) ∈ d.
Proof.
  induction d as [|[k vs] tl IH]; simpl; [done|].
  destruct (bool_decide_reflect (k = name)) as [->|Hne]; [by left|].
  intros H. right. by apply IH.
Qed.

Lemma first_last_split {A} (x y : A) (l : list A) :
  ∃ mid, x :: y :: l = x :: mid ++ [List.last (x :: y :: l) x].
Proof.
  destruct (exists_last (l:=y :: l)) as (mid & z & Heq); [done|].
  exists mid. rewrite Heq. f_equal. f_equal.
  change (x :: mid ++ [z]) with ((x :: mid) ++ [z]). by rewrite last_last.
Qed.

(** A name fires exactly when it has two values or more, the last one
    greater than the first. *)
Lemma trend_signal_fires (svc name : string) (vs : list reading) :
  is_Some (trend_signal svc (name, vs))
  ↔ ∃ first mid last, vs = first :: mid ++ [last] ∧ float_gt (snd last) (snd first) = true.
Proof.
  unfold trend_signal. simpl. split.
  - destruct vs as [|first [|y l]]; [by intros [? ?]..|].
    destruct (first_last_split first y l) as (mid & Heq).
    destruct (float_gt _ _) eqn:Hgt; [|by intros [? ?]].
    intros _. exists first, mid, (List.last (first :: y :: l) first). done.
  - intros (first & mid & last & -> & Hgt).
    assert (Hlast : List.last (first :: mid ++ [last]) first = last).
    { change (first :: mid ++ [last]) with ((first :: mid) ++ [last]). apply last_last. }
    destruct mid as [|y mid]; simpl in *; rewrite ?Hlast, Hgt; by eexists.
Qed.

Lemma trend_signal_names (svc : string) (kv : string * list reading) (t : TrendSignal) :
  trend_signal svc kv = Some t → trend_service t = svc ∧ trend_metric t = fst kv.
Proof.
  unfold trend_signal. destruct (snd kv) as [|first [|y l]]; [done..|].
  destruct (float_gt _ _); [|done]. by intros [= <-].
Qed.

(** The trends of a service: a pattern of the table is reported exactly
    when it has two readings or more over the records of the service,
    the last one greater than the first. *)
Lemma trends_of_fires (svc : string) (entries : list LogRecord)
    (np : string * (bool * Re.regex)) :
  np ∈ NUMERIC_PATTERNS →
  ∃ out, trends_of svc entries = Ok out
    ∧ Forall (λ t, trend_service t = svc) out
    ∧ ((∃ t, t ∈ out ∧ trend_metric t = fst np)
       ↔ ∃ first mid last,
           readings_of np entries = first :: mid ++ [last]
           ∧ float_gt (snd last) (snd first) = true).
Proof.
  intros Hnp. unfold trends_of. rewrite collect_values_push.
  destruct (collected_ok entries) as [Hnd Hne].
  pose proof (collected_values_of np entries Hnp) as Hvals.
  revert Hnd Hne Hvals. generalize (collected entries).
  intros d Hnd Hne Hvals. simpl. eexists. split; [done|]. split.
  - apply Forall_forall. intros t ([k vs] & _ & Ht)%list_elem_of_omap.
    by apply trend_signal_names in Ht as [? _].
  - rewrite <- Hvals, <- (trend_signal_fires svc (fst np)). split.
    + intros (t & ([k vs] & Hin & Ht)%list_elem_of_omap & Hm).
      pose proof (trend_signal_names _ _ _ Ht) as [_ Hk]. simpl in Hk.
      rewrite Hm in Hk. subst k.
      rewrite (values_of_elem _ _ _ Hnd Hin). by eexists.
    + intros [t Ht]. exists t.
      pose proof (trend_signal_names _ _ _ Ht) as [_ Hk]. simpl in Hk.
      split; [|done]. apply list_elem_of_omap.
      exists (fst np, values_of (fst np) d). split; [|done].
      apply values_of_key. intros Hnil. rewrite Hnil in Ht. done.
Qed.

Lemma trends_of_total (svc : string) (entries : list LogRecord) :
  ∃ out, trends_of svc entries = Ok out ∧ Forall (λ t, trend_service t = svc) out.
Proof.
  unfold trends_of. rewrite collect_values_push. generalize (collected entries).
  intros d. simpl. eexists. split; [done|].
  apply Forall_forall. intros t ([k vs] & _ & Ht)%list_elem_of_omap.
  by apply trend_signal_names in Ht as [? _].
Qed.

(** The trend detector never raises, and its signals are those of the
    services of the batch, in their order. *)
Lemma detect_numeric_trends_out (entries_by_service : by_service) :
  ∃ outs,
    _detect_numeric_trends entries_by_service = Ok (concat outs)
    ∧ Forall2 (λ kv o, trends_of (fst kv) (snd kv) = Ok o
                       ∧ Forall (λ t, trend_service t = fst kv) o)
        entries_by_service outs.
Proof.
  induction entries_by_service as [|[svc entries] tl (outs & Hout & Hall)]; simpl.
  - exists []. split; [done|constructor].
  - destruct (trends_of_total svc entries) as (here & Hhere & Hsvc).
    rewrite Hhere, Hout. simpl. exists (here :: outs). split; [done|].
    by constructor.
Qed.

(** X15. The trend detector never raises. For a service of the batch
    and a pattern of the table, it reports the trend of that metric
    exactly when the pattern reads a number off two records of the
    service or more and the last number read is greater, as a double,
    than the first; the numbers in between do not count. *)
Theorem numeric_trend_first_last (entries_by_service : by_service) (svc : string)
    (entries : list LogRecord) (np : string * (bool * Re.regex)) :
  NoDup (map fst entries_by_service) →
  (svc, entries) ∈ entries_by_service →
  np ∈ NUMERIC_PATTERNS →
  ∃ out,
    _detect_numeric_trends entries_by_service = Ok out
    ∧ ((∃ t, t ∈ out ∧ trend_service t = svc ∧ trend_metric t = fst np)
       ↔ ∃ first mid last,
           readings_of np entries = first :: mid ++ [last]
           ∧ float_gt (snd last) (snd first) = true).
Proof.
  intros Hnd Hin Hnp.
  destruct (detect_numeric_trends_out entries_by_service) as (outs & Hout & Hall).
  exists (concat outs). split; [done|].
  destruct (trends_of_fires svc entries np Hnp) as (here & Hhere & _ & <-).
  apply list_elem_of_lookup in Hin as [i Hi].
  destruct (Forall2_lookup_l _ _ _ _ _ Hall Hi) as (o & Ho & Hk & _). simpl in Hk.
  assert (o = here) by congruence. subst o. split.
  - intros (t & Ht & Hsvc & Hm). exists t. split; [|done].
    apply list_elem_of_In, in_concat in Ht as (o' & Ho' & Ht).
    apply list_elem_of_In in Ho', Ht.
    apply list_elem_of_lookup in Ho' as [j Hj].
    destruct (Forall2_lookup_r _ _ _ _ _ Hall Hj) as ([k es] & Hkv & Hk' & Hsvc').
    simpl in *. rewrite Forall_forall in Hsvc'. rewrite (Hsvc' t Ht) in Hsvc. subst k.
    assert (i = j); [|by (subst j; congruence)].
    eapply (NoDup_lookup _ i j svc Hnd).
    + change ((fst <$> entries_by_service) !! i = Some svc).
      by rewrite list_lookup_fmap, Hi.
    + change ((fst <$> entries_by_service) !! j = Some svc).
      by rewrite list_lookup_fmap, Hkv.
  - intros (t & Ht & Hm). exists t.
    destruct (trends_of_total svc entries) as (here' & Hhere' & Hsvc).
    assert (here' = here) by congruence. subst here'.
    rewrite Forall_forall in Hsvc. split; [|by split; [apply Hsvc|]].
    apply list_elem_of_In, in_concat. exists here.
    split; apply list_elem_of_In; [by eapply list_elem_of_lookup_2|done].
Qed.

Lemma numeric_trend_first_last_witness :
  ∃ out,
    _detect_numeric_trends
      [("db", [disk_reading "10:00" "85"; disk_reading "10:05" "70";
               disk_reading "10:10" "92"])]
    = Ok out
    ∧ ((∃ t, t ∈ out ∧ trend_service t = "db" ∧ trend_metric t = "disk_percent")
       ↔ ∃ first mid last,
           readings_of disk_percent_pattern
             [disk_reading "10:00" "85"; disk_reading "10:05" "70";
              disk_reading "10:10" "92"]
           = first :: mid ++ [last]
           ∧ float_gt (snd last) (snd first) = true).
Proof.
  apply (numeric_trend_first_last
           [("db", [disk_reading "10:00" "85"; disk_reading "10:05" "70";
                    disk_reading "10:10" "92"])]
           "db" _ disk_percent_pattern).
  - repeat constructor. by intros ?%elem_of_nil.
  - by left.
  - by left.
Defined.

(** ** The doubles of the readings *)

Lemma round_double_rounded (n : Z) :
  round_double n
  = if n <? 2 ^ 53 then Finite n
    else if 2 ^ 1024 <=? rounded n then Inf else Finite (rounded n).
Proof. done. Qed.

(** Where [n >= 2^53] lies: its exponent, quotient and remainder. *)
Lemma double_parts (n : Z) :
  2 ^ 53 <= n →
  let e := Z.log2 n - 52 in
  1 <= e ∧ n = (n / 2 ^ e) * 2 ^ e + n mod 2 ^ e
  ∧ 0 <= n mod 2 ^ e < 2 ^ e
  ∧ 2 ^ 52 <= n / 2 ^ e < 2 ^ 53
  ∧ 2 ^ Z.log2 n = 2 ^ 52 * 2 ^ e.
Proof.
  intros Hn e.
  assert (Hpos : 0 < n) by (assert (0 < 2 ^ 53) by done; lia).
  assert (Hlog : 53 <= Z.log2 n).
  { change 53 with (Z.log2 (2 ^ 53)). by apply Z.log2_le_mono. }
  assert (He : 1 <= e) by (unfold e; lia).
  assert (H2e : 0 < 2 ^ e) by (apply Z.pow_pos_nonneg; lia).
  destruct (Z.log2_spec n Hpos) as [Hlo Hhi].
  assert (Hsplit : 2 ^ Z.log2 n = 2 ^ 52 * 2 ^ e).
  { rewrite <- Z.pow_add_r by lia. f_equal. unfold e. lia. }
  assert (Hsucc : 2 ^ Z.succ (Z.log2 n) = 2 ^ 53 * 2 ^ e).
  { rewrite <- Z.pow_add_r by lia. f_equal. unfold e. lia. }
  pose proof (Z.div_mod n (2 ^ e)) as Hdm.
  pose proof (Z.mod_pos_bound n (2 ^ e) H2e) as Hmod.
  split; [done|]. split; [lia|]. split; [done|]. split; [|done].
  split.
  - apply Z.div_le_lower_bound; [done|]. lia.
  - apply Z.div_lt_upper_bound; [done|]. lia.
Qed.

Lemma rounded_bounds (n : Z) :
  2 ^ 53 <= n → 2 ^ Z.log2 n <= rounded n <= 2 * 2 ^ Z.log2 n.
Proof.
  intros Hn. destruct (double_parts n Hn) as (He & Hdm & Hmod & Hq & Hsplit).
  unfold rounded. rewrite Hsplit.
  set (e := Z.log2 n - 52) in *. set (q := n / 2 ^ e) in *.
  assert (H2e : 0 < 2 ^ e) by (apply Z.pow_pos_nonneg; lia).
  destruct ((2 ^ (e - 1) <? n mod 2 ^ e) || ((n mod 2 ^ e =? 2 ^ (e - 1)) && Z.odd q));
    nia.
Qed.

(** Rounding keeps the order. *)
Lemma rounded_mono (a b : Z) : 2 ^ 53 <= a → a <= b → rounded a <= rounded b.
Proof.
  intros Ha Hab.
  assert (Hb : 2 ^ 53 <= b) by lia.
  assert (Hlog : Z.log2 a <= Z.log2 b) by (by apply Z.log2_le_mono).
  destruct (Z.eq_dec (Z.log2 a) (Z.log2 b)) as [Heq|Hne].
  - destruct (double_parts a Ha) as (He & Hdma & Hmoda & Hqa & _).
    destruct (double_parts b Hb) as (_ & Hdmb & Hmodb & Hqb & _).
    unfold rounded. rewrite <- Heq in *.
    set (e := Z.log2 a - 52) in *.
    set (qa := a / 2 ^ e) in *. set (qb := b / 2 ^ e) in *.
    set (ra := a mod 2 ^ e) in *. set (rb := b mod 2 ^ e) in *.
    assert (H2e : 0 < 2 ^ e) by (apply Z.pow_pos_nonneg; lia).
    assert (Hq : qa <= qb) by (apply Z.div_le_mono; lia).
    apply Z.mul_le_mono_nonneg_r; [lia|].
    destruct (Z.eq_dec qa qb) as [Hqeq|Hqne].
    + rewrite <- Hqeq in *. assert (Hr : ra <= rb) by nia.
      destruct (Z.ltb_spec (2 ^ (e - 1)) ra), (Z.ltb_spec (2 ^ (e - 1)) rb),
        (Z.eqb_spec ra (2 ^ (e - 1))), (Z.eqb_spec rb (2 ^ (e - 1)));
        simpl; try lia; destruct (Z.odd qa); simpl; lia.
    + destruct ((2 ^ (e - 1) <? ra) || ((ra =? 2 ^ (e - 1)) && Z.odd qa)),
        ((2 ^ (e - 1) <? rb) || ((rb =? 2 ^ (e - 1)) && Z.odd qb)); lia.
  - pose proof (rounded_bounds a Ha) as [_ Hup].
    pose proof (rounded_bounds b Hb) as [Hlo _].
    assert (Hpow : 2 * 2 ^ Z.log2 a <= 2 ^ Z.log2 b).
    { rewrite <- Z.pow_succ_r by apply Z.log2_nonneg.
      apply Z.pow_le_mono_r; lia. }
    lia.
Qed.

(** A double is greater than another only if the integer it was read
    from is. *)
Lemma float_gt_lt (m n : Z) :
  0 <= m → float_gt (round_double n) (round_double m) = true → m < n.
Proof.
  intros Hm Hgt. destruct (Z.lt_ge_cases m n) as [|Hle]; [done|]. exfalso.
  rewrite !round_double_rounded in Hgt.
  destruct (Z.ltb_spec n (2 ^ 53)) as [Hn|Hn], (Z.ltb_spec m (2 ^ 53)) as [Hm53|Hm53].
  - simpl in Hgt. apply Z.ltb_lt in Hgt. lia.
  - pose proof (rounded_bounds m Hm53) as [Hlo _].
    assert (2 ^ 53 <= 2 ^ Z.log2 m).
    { apply Z.pow_le_mono_r; [lia|].
      change 53 with (Z.log2 (2 ^ 53)). by apply Z.log2_le_mono. }
    destruct (2 ^ 1024 <=? rounded m); simpl in Hgt; [done|].
    apply Z.ltb_lt in Hgt. lia.
  - lia.
  - pose proof (rounded_mono n m Hn Hle) as Hmono.
    destruct (Z.leb_spec (2 ^ 1024) (rounded n)), (Z.leb_spec (2 ^ 1024) (rounded m));
      simpl in Hgt; try done; [lia|].
    apply Z.ltb_lt in Hgt. lia.
Qed.

(** X16. A trend is reported only on a strict increase: when the first
    and the last reading are the doubles of the integers [m] and [n], the
    test passes only if [m < n], and it does pass if [m < n < 2^53], where
    the doubles are the integers. Two integers that round to the same
    double, as [2^53] and [2^53 + 1] do, give no trend. *)
Theorem trend_needs_strict_increase (svc name ts1 ts2 : string)
    (mid : list reading) (m n : Z) :
  0 <= m →
  let readings := (ts1, round_double m) :: mid ++ [(ts2, round_double n)] in
  (is_Some (trend_signal svc (name, readings)) → m < n)
  ∧ (m < n < 2 ^ 53 → is_Some (trend_signal svc (name, readings)))
  ∧ trend_signal svc
      (name, [(ts1, round_double (2 ^ 53)); (ts2, round_double (2 ^ 53 + 1))])
    = None.
Proof.
  intros Hm readings. split; [|split].
  - intros (first & mid' & last & Heq & Hgt)%trend_signal_fires.
    unfold readings in Heq. injection Heq as <- Heq.
    apply app_inj_tail in Heq as [_ <-]. simpl in Hgt.
    by apply float_gt_lt.
  - intros [Hlt Hn]. apply trend_signal_fires.
    exists (ts1, round_double m), mid, (ts2, round_double n). split; [done|].
    simpl. rewrite !round_double_rounded.
    replace (m <? 2 ^ 53) with true by (symmetry; apply Z.ltb_lt; lia).
    replace (n <? 2 ^ 53) with true by (symmetry; apply Z.ltb_lt; lia).
    simpl. apply Z.ltb_lt. lia.
  - by vm_compute.
Qed.

Lemma trend_needs_strict_increase_witness :
  is_Some (trend_signal "db"
             ("disk_percent",
              [("10:00", round_double 85); ("10:05", round_double 70);
               ("10:10", round_double 92)])).
Proof.
  refine (proj1 (proj2 (trend_needs_strict_increase "db" "disk_percent" "10:00" "10:10"
                          [("10:05", round_double 70)] 85 92 _)) _); lia.
Defined.

(** ** The run of the predictive-risk agent *)

Lemma scan_first_raises (check : LogRecord → result (option Signal))
    (entries : list LogRecord) (x : exn) :
  scan_first check entries = Raise x → ∃ e, e ∈ entries ∧ check e = Raise x.
Proof.
  induction entries as [|e tl IH]; simpl; [done|].
  destruct (check e) as [[s|]|y] eqn:He; simpl; [done| |].
  - intros (e' & Hin & Hc)%IH. exists e'. split; [by right|done].
  - intros [= ->]. exists e. split; [by left|done].
Qed.

Lemma known_patterns_of_raises (svc : string) (entries : list LogRecord) (x : exn) :
  known_patterns_of svc entries = Raise x → x = OverflowError.
Proof.
  unfold known_patterns_of. rewrite scan_first_disk. simpl.
  destruct (scan_first (pool_record svc) entries) as [p|y] eqn:Hp; simpl.
  - destruct (scan_first (circuit_record svc) entries) as [c|y] eqn:Hc; simpl; [done|].
    apply scan_first_raises in Hc as (e & _ & He). unfold circuit_record in He.
    by destruct (Re.search true circuit_breaker_re (get_message e)).
  - intros [= <-]. apply scan_first_raises in Hp as (e & _ & He).
    by apply pool_record_raises in He.
Qed.

Lemma detect_known_patterns_raises (entries_by_service : by_service) (x : exn) :
  _detect_known_patterns entries_by_service = Raise x → x = OverflowError.
Proof.
  induction entries_by_service as [|[svc entries] tl IH]; simpl; [done|].
  destruct (known_patterns_of svc entries) as [here|y] eqn:Hhere; simpl.
  - destruct (_detect_known_patterns tl) as [rest|y]; simpl; [done|].
    intros [= <-]. by apply IH.
  - intros [= <-]. by apply known_patterns_of_raises in Hhere.
Qed.

Lemma scan_first_pool_overflow (svc : string) (pre post : list LogRecord)
    (e : LogRecord) :
  Forall (λ x, pool_record svc x = Ok None) pre →
  pool_record svc e = Raise OverflowError →
  scan_first (pool_record svc) (pre ++ e :: post) = Raise OverflowError.
Proof.
  intros Hpre He. induction Hpre as [|x pre Hx _ IH]; simpl.
  - by rewrite He.
  - by rewrite Hx.
Qed.

(** A pool ratio too large for a double, on the first record of a
    service that the pool check gets to, fails the whole detection. *)
Lemma detect_known_patterns_overflow (entries_by_service : by_service) (svc : string)
    (pre post : list LogRecord) (e : LogRecord) :
  (svc, pre ++ e :: post) ∈ entries_by_service →
  Forall (λ x, pool_record svc x = Ok None) pre →
  pool_record svc e = Raise OverflowError →
  _detect_known_patterns entries_by_service = Raise OverflowError.
Proof.
  intros Hin Hpre He.
  induction entries_by_service as [|[k es] tl IH]; [by apply elem_of_nil in Hin|].
  simpl. apply elem_of_cons in Hin as [[= <- <-]|Hin].
  - unfold known_patterns_of. rewrite scan_first_disk. simpl.
    by rewrite (scan_first_pool_overflow svc pre post e Hpre He).
  - destruct (known_patterns_of k es) as [here|y] eqn:Hhere; simpl.
    + by rewrite (IH Hin).
    + by apply known_patterns_of_raises in Hhere as ->.
Qed.

Lemma detect_numeric_trends_total (entries_by_service : by_service) :
  ∃ out, _detect_numeric_trends entries_by_service = Ok out
         ∧ Forall (λ t, trend_service t ∈ map fst entries_by_service) out.
Proof.
  destruct (detect_numeric_trends_out entries_by_service) as (outs & Hout & Hall).
  exists (concat outs). split; [done|].
  apply Forall_forall. intros t Ht.
  apply list_elem_of_In, in_concat in Ht as (o & Ho & Ht).
  apply list_elem_of_In in Ho, Ht.
  apply list_elem_of_lookup in Ho as [j Hj].
  destruct (Forall2_lookup_r _ _ _ _ _ Hall Hj) as ([k es] & Hkv & _ & Hsvc).
  simpl in Hsvc. rewrite Forall_forall in Hsvc. rewrite (Hsvc t Ht).
  apply (list_elem_of_fmap_2' fst _ (k, es)); [|done]. by eapply list_elem_of_lookup_2.
Qed.

(** X17. One record can fail the predictive-risk agent: when the pool
    check of a service reaches a record whose ratio is too large for a
    double, the [OverflowError] of the division is not caught, the
    known-pattern detector raises it, and the run of the agent ends with
    it, no signal of any service reported. *)
Theorem pool_overflow_aborts_run (strptime : string → option Z)
    (log_entries : list LogRecord) (issues : option (list json)) (svc : string)
    (pre post : list LogRecord) (e : LogRecord) :
  (svc, pre ++ e :: post) ∈ group_by_service log_entries →
  Forall (λ x, pool_record svc x = Ok None) pre →
  pool_record svc e = Raise OverflowError →
  _detect_known_patterns (group_by_service log_entries) = Raise OverflowError
  ∧ PredictiveRisk.run strptime (mkState (Some log_entries) issues)
    = Raised OverflowError.
Proof.
  intros Hin Hpre He.
  pose proof (detect_known_patterns_overflow _ _ _ _ _ Hin Hpre He) as Hraise.
  split; [done|].
  unfold PredictiveRisk.run. simpl.
  destruct log_entries as [|e0 tl]; [by apply elem_of_nil in Hin|].
  destruct (group_by_service (e0 :: tl)) as [|kv d] eqn:Hg;
    [by apply elem_of_nil in Hin|].
  unfold PredictiveRisk.all_signals. rewrite Hraise.
  destruct (detect_numeric_trends_total (kv :: d)) as (trends & -> & _).
  done.
Qed.

Lemma pool_overflow_aborts_run_witness :
  _detect_known_patterns
    (group_by_service
       [message_record "connection pool 10/100 connections"; overflowing_pool_record])
  = Raise OverflowError
  ∧ PredictiveRisk.run strptime_iso
      (mkState (Some [message_record "connection pool 10/100 connections";
                      overflowing_pool_record]) None)
    = Raised OverflowError.
Proof.
  apply (pool_overflow_aborts_run strptime_iso _ None "db"
           [message_record "connection pool 10/100 connections"] []
           overflowing_pool_record).
  - vm_compute. by left.
  - constructor; [by vm_compute|constructor].
  - by vm_compute.
Defined.

Lemma group_by_service_filter (log_entries : list LogRecord) :
  group_by_service (List.filter is_actionable log_entries) = group_by_service log_entries.
Proof.
  unfold group_by_service. generalize ([] : by_service).
  induction log_entries as [|e tl IH]; intros d; [done|].
  cbn [List.filter fold_left]. destruct (is_actionable e) eqn:He; cbn [fold_left].
  - apply IH.
  - replace (group_step d e) with d by (unfold group_step; by rewrite He). apply IH.
Qed.

Lemma filter_none {A} (P : A → bool) (l : list A) :
  Forall (λ x, P x = false) l → List.filter P l = [].
Proof. induction 1 as [|x tl Hx _ IH]; simpl; [done|]. by rewrite Hx. Qed.

(** X18. The records that are not actionable change nothing to the run
    of the predictive-risk agent: the run on a batch is the run on its
    actionable records, and a batch without an actionable record ends
    with no prediction and no call of the collaborator. *)
Theorem non_actionable_records_ignored (strptime : string → option Z)
    (log_entries : list LogRecord) (issues : option (list json)) :
  PredictiveRisk.run strptime
    (mkState (Some (List.filter is_actionable log_entries)) issues)
  = PredictiveRisk.run strptime (mkState (Some log_entries) issues)
  ∧ (Forall (λ e, is_actionable e = false) log_entries →
     PredictiveRisk.run strptime (mkState (Some log_entries) issues)
     = Finished PredictiveRisk.no_predictions).
Proof.
  assert (Hsame :
    PredictiveRisk.run strptime
      (mkState (Some (List.filter is_actionable log_entries)) issues)
    = PredictiveRisk.run strptime (mkState (Some log_entries) issues)).
  { unfold PredictiveRisk.run. simpl.
    pose proof (group_by_service_filter log_entries) as Hg.
    destruct (List.filter is_actionable log_entries) as [|a fl] eqn:Hf.
    - destruct log_entries as [|e tl]; [done|]. by rewrite <- Hg.
    - destruct log_entries as [|e tl]; [done|]. by rewrite Hg. }
  split; [exact Hsame|].
  intros Hnone. rewrite <- Hsame, (filter_none _ _ Hnone). done.
Qed.

Lemma group_key_actionable (log_entries : list LogRecord) (svc : string) :
  svc ∈ map fst (group_by_service log_entries) →
  ∃ e, e ∈ log_entries ∧ is_actionable e = true ∧ service_key e = svc.
Proof.
  intros ([k es] & -> & Hin)%list_elem_of_fmap. simpl.
  apply group_by_service_spec in Hin as [-> Hne].
  destruct (List.filter (selected k) log_entries) as [|e tl] eqn:Hf; [done|].
  assert (He : e ∈ List.filter (selected k) log_entries) by (rewrite Hf; by left).
  apply list_elem_of_In, filter_In in He as [He Hsel].
  unfold selected in Hsel. apply andb_true_iff in Hsel as [Hact Hkey].
  exists e. split; [by apply list_elem_of_In|]. split; [done|].
  by apply bool_decide_eq_true in Hkey.
Qed.

(** X19. When the predictive-risk agent calls the collaborator, the
    prompt has a signal at least, and every signal in it is for a
    service under which an actionable record of the batch is grouped. *)
Theorem signals_name_actionable_services (strptime : string → option Z)
    (state : State) (signals : list (Signal + TrendSignal)) :
  asked (PredictiveRisk.run strptime state) = Some signals →
  signals ≠ []
  ∧ Forall (λ s, ∃ e, e ∈ default [] (state_log_entries state)
                      ∧ is_actionable e = true
                      ∧ service_key e = signal_service s) signals.
Proof.
  unfold PredictiveRisk.run.
  pose proof (group_key_actionable (default [] (state_log_entries state))) as Hkey.
  revert Hkey. generalize (default [] (state_log_entries state)) as log_entries.
  intros log_entries Hkey.
  destruct log_entries as [|e0 tl]; [done|].
  revert Hkey. generalize (e0 :: tl) as log_entries. intros log_entries.
  generalize (group_by_service log_entries) as ebs. intros ebs Hkey.
  destruct ebs as [|kv d]; [done|].
  revert Hkey. generalize (kv :: d) as ebs. intros ebs Hkey.
  destruct (PredictiveRisk.all_signals strptime ebs) as [[|s l]|x] eqn:Hall; [done| |done].
  intros [= <-]. split; [done|].
  unfold PredictiveRisk.all_signals in Hall.
  destruct (detect_numeric_trends_total ebs) as (trends & Htrend & Htsvc).
  rewrite Htrend in Hall. simpl in Hall.
  destruct (_detect_known_patterns ebs) as [pats|] eqn:Hpat; [|done].
  simpl in Hall. injection Hall as Hall. rewrite <- Hall.
  apply Forall_app. split; [|apply Forall_app; split].
  - apply Forall_map, Forall_forall. intros f Hf. simpl. apply Hkey.
    unfold _detect_frequency_acceleration in Hf.
    apply list_elem_of_omap in Hf as ([svc es] & Hin & Hsig). simpl in Hsig.
    rewrite (frequency_signal_service _ _ _ _ Hsig).
    by apply (list_elem_of_fmap_2' fst _ (svc, es)).
  - apply Forall_map. eapply Forall_impl; [exact Htsvc|].
    intros t Ht. simpl. by apply Hkey.
  - apply Forall_map, Forall_forall. intros p Hp. simpl. apply Hkey.
    destruct (detect_known_patterns_elem _ _ _ Hpat Hp) as (es & _ & Hin & _).
    by apply (list_elem_of_fmap_2 fst) in Hin.
Qed.

Lemma signals_name_actionable_services_witness :
  [inr (mkTrend "db" "numeric_trend" "disk_percent"
          ["disk_percent: 85.0 -> 92.0 (trending up)";
           "From entries at 2024-05-01 10:00:00 to 2024-05-01 10:01:00"]);
   inl (known_signal "api" "circuit_breaker"
          ["Circuit breaker or retry exhaustion detected";
           "Entry: circuit breaker open for db"])] ≠ []
  ∧ Forall (λ s, ∃ e, e ∈ risk_batch ∧ is_actionable e = true
                      ∧ service_key e = signal_service s)
      [inr (mkTrend "db" "numeric_trend" "disk_percent"
              ["disk_percent: 85.0 -> 92.0 (trending up)";
               "From entries at 2024-05-01 10:00:00 to 2024-05-01 10:01:00"]);
       inl (known_signal "api" "circuit_breaker"
              ["Circuit breaker or retry exhaustion detected";
               "Entry: circuit breaker open for db"])].
Proof.
  apply (signals_name_actionable_services strptime_iso (mkState (Some risk_batch) None)).
  by vm_compute.
Defined.

(** ** The levels of a normalized reply *)

Lemma enum_field_allowed (item : json) (k r : string) :
  enum_field item k = Ok r → r ∈ allowed_levels.
Proof.
  unfold enum_field.
  destruct (py_get item k (JStr "MEDIUM")) as [v|]; [|done]. simpl.
  destruct (py_upper v) as [raw|]; [|done]. simpl.
  intros [= <-]. case_bool_decide as H; [done|].
  unfold allowed_levels. apply elem_of_cons. right. by left.
Qed.

Lemma mapM_result_Forall2 {A B} (f : A → result B) (l : list A) (out : list B) :
  mapM f l = Ok out → Forall2 (λ x y, f x = Ok y) l out.
Proof.
  revert out. induction l as [|x tl IH]; simpl; intros out.
  - intros [= <-]. constructor.
  - destruct (f x) as [y|] eqn:Hy; [|done]. simpl.
    destruct (mapM f tl) as [ys|]; [|done]. simpl.
    intros [= <-]. constructor; [done|by apply IH].
Qed.

Lemma normalize_prediction_level (item : json) (p : RiskPrediction) :
  normalize_prediction item = Ok p → rp_risk_level p ∈ allowed_levels.
Proof.
  unfold normalize_prediction.
  destruct (enum_field item "risk_level") as [r|] eqn:Hr; [|done]. simpl.
  destruct item; try done. simpl.
  intros [= <-]. simpl. by eapply enum_field_allowed.
Qed.

Lemma normalize_chain_level (item : json) (c : CausalChain) :
  normalize_chain item = Ok c → cc_confidence c ∈ allowed_levels.
Proof.
  unfold normalize_chain.
  destruct (enum_field item "confidence") as [r|] eqn:Hr; [|done]. simpl.
  destruct item; try done. simpl.
  destruct (py_iter _); [|done]; simpl.
  destruct (mapM normalize_event _); [|done]; simpl.
  destruct (py_len _); [|done]; simpl.
  intros [= <-]. simpl. by eapply enum_field_allowed.
Qed.

(** X20. Whatever the reply of the collaborator, when an agent returns
    its normalized output, every risk level and every confidence in it
    is one of HIGH, MEDIUM and LOW, and the output holds one prediction,
    or one chain, for each item of the reply. *)
Theorem normalized_levels_always_allowed (content : string) :
  (∀ out, risk_postprocess content = Ok out →
     Forall (λ p, rp_risk_level p ∈ ["HIGH"; "MEDIUM"; "LOW"]) (risk_predictions out)
     ∧ (risk_error out = None →
        ∃ items, Json.loads (strip_fence content) ≫= py_iter = Ok items
                 ∧ length (risk_predictions out) = length items))
  ∧ (∀ out, chain_postprocess content = Ok out →
       Forall (λ c, cc_confidence c ∈ ["HIGH"; "MEDIUM"; "LOW"]) (causal_chains out)
       ∧ (chain_error out = None →
          ∃ items, Json.loads (strip_fence content) ≫= py_iter = Ok items
                   ∧ length (causal_chains out) = length items)).
Proof.
  split; intros out.
  - unfold risk_postprocess.
    destruct (Json.loads (strip_fence content)) as [parsed|[]]; try done.
    + simpl. destruct (py_iter parsed) as [items|]; [|done]. simpl.
      destruct (mapM normalize_prediction items) as [ps|] eqn:Hps; [|done]. simpl.
      intros [= <-]. simpl. apply mapM_result_Forall2 in Hps. split.
      * apply Forall_forall. intros p Hp.
        apply list_elem_of_lookup in Hp as [i Hi].
        destruct (Forall2_lookup_r _ _ _ _ _ Hps Hi) as (item & _ & Hn).
        by eapply normalize_prediction_level.
      * intros _. exists items. split; [done|].
        symmetry. by eapply Forall2_length.
    + intros [= <-]. simpl. split; [constructor|done].
  - unfold chain_postprocess.
    destruct (Json.loads (strip_fence content)) as [parsed|[]]; try done.
    + simpl. destruct (py_iter parsed) as [items|]; [|done]. simpl.
      destruct (mapM normalize_chain items) as [cs|] eqn:Hcs; [|done]. simpl.
      intros [= <-]. simpl. apply mapM_result_Forall2 in Hcs. split.
      * apply Forall_forall. intros c Hc.
        apply list_elem_of_lookup in Hc as [i Hi].
        destruct (Forall2_lookup_r _ _ _ _ _ Hcs Hi) as (item & _ & Hn).
        by eapply normalize_chain_level.
      * intros _. exists items. split; [done|].
        symmetry. by eapply Forall2_length.
    + intros [= <-]. simpl. split; [constructor|done].
Qed.

(** ** The fences of a reply *)

Lemma chars_of_chars (l : list ascii) : Str.chars (Str.of_chars l) = l.
Proof. apply list_ascii_of_string_of_list_ascii. Qed.

Lemma of_chars_chars (s : string) : Str.of_chars (Str.chars s) = s.
Proof. apply string_of_list_ascii_of_string. Qed.

(** A text between two characters that are no blanks is stripped to
    itself. *)
Lemma strip_unchanged (c d : ascii) (l : list ascii) :
  Str.is_space c = false → Str.is_space d = false →
  Str.strip (Str.of_chars (c :: l ++ [d])) = Str.of_chars (c :: l ++ [d]).
Proof.
  intros Hc Hd. unfold Str.strip. rewrite chars_of_chars. f_equal.
  cbn [Str.lstrip_chars]. rewrite Hc.
  change (c :: l ++ [d]) with ((c :: l) ++ [d]).
  rewrite rev_app_distr. cbn [rev app Str.lstrip_chars]. rewrite Hd.
  change (d :: rev l ++ [c]) with ([d] ++ rev (c :: l)).
  by rewrite rev_app_distr, rev_involutive.
Qed.

(** A greedy repetition of a class before a continuation that always
    matches takes the whole run of the class. *)
Lemma star_class_greedy {R} (p : ascii → bool) (k : Re.mstate → option R) (f : nat) :
  (∀ st, is_Some (k st)) →
  ∀ st, (length (run_of p (Re.m_rest st)) <= f)%nat →
        Re.star_loop (class_body p) k f st
        = k (advance st (length (run_of p (Re.m_rest st)))).
Proof.
  intros Hk. induction f as [|f IH]; intros st Hlen.
  - assert (length (run_of p (Re.m_rest st)) = 0%nat) as -> by lia.
    by rewrite advance_0.
  - simpl. unfold class_body at 1, Re.step_char, Re.or_else.
    destruct (Re.m_rest st) as [|x tl] eqn:Hrest; simpl; [by rewrite advance_0|].
    simpl in Hlen. destruct (p x) eqn:Hp; simpl in *; [|by rewrite advance_0].
    replace (length tl <? S (length tl))%nat with true
      by (symmetry; apply Nat.ltb_lt; lia).
    rewrite IH by (simpl; lia). simpl.
    rewrite (advance_S st x tl _ Hrest).
    by destruct (Hk (advance st (S (length (run_of p tl))))) as [m ->].
Qed.

Lemma run_of_app {A} (p : A → bool) (l1 l2 : list A) (x : A) :
  forallb p l1 = true → p x = false → run_of p (l1 ++ x :: l2) = l1.
Proof.
  intros Hall Hx. induction l1 as [|y l1 IH]; simpl in *; [by rewrite Hx|].
  apply andb_true_iff in Hall as [-> Hall]. by rewrite IH.
Qed.

(** The opening pattern matches the fence, its tag and the line break
    after it. *)
Lemma fence_open_match (tag tail : list ascii) :
  forallb Str.is_word tag = true →
  Re.match_at false fence_open_re false 0
    (Str.chars "```" ++ tag ++ Re.newline :: tail)
  = Some (Re.MatchObj 0 (4 + length tag) tail []).
Proof.
  intros Htag. unfold Re.match_at, fence_open_re.
  cbn [Re.seqs fold_right Re.rmatch Re.lit Str.chars list_ascii_of_string
       Re.m_pos Nat.eqb app Re.step_char Re.m_rest Re.m_caps Re.char_eq].
  rewrite !bool_decide_eq_true_2 by done.
  cbn [Re.m_rest Re.m_pos Re.m_caps].
  change (Re.rmatch false Re.Word) with (@class_body Re.rmatch_obj Str.is_word).
  rewrite star_class_greedy.
  - cbn [Re.m_rest]. rewrite (run_of_app Str.is_word tag tail Re.newline Htag eq_refl).
    unfold advance, Re.or_else, Re.step_char. cbn [Re.m_rest Re.m_pos Re.m_caps].
    rewrite skipn_app, skipn_all, Nat.sub_diag. by simpl.
  - intros st. unfold Re.or_else, Re.step_char.
    destruct (Re.m_rest st) as [|x tl]; simpl; [by eexists|].
    destruct (bool_decide (Re.newline = x)); simpl; by eexists.
  - cbn [Re.m_rest]. rewrite (run_of_app Str.is_word tag tail Re.newline Htag eq_refl).
    rewrite length_app. simpl. lia.
Qed.

(** After the start of the text the opening pattern matches nowhere. *)
Lemma fence_open_later (f : nat) :
  ∀ (ma : bool) (pos : nat) (rest : list ascii),
    pos ≠ 0%nat → Re.sub_loop false fence_open_re f ma pos rest = rest.
Proof.
  induction f as [|f IH]; intros ma pos rest Hpos; [done|].
  simpl. destruct pos as [|pos]; [done|]. simpl.
  destruct rest as [|c tl]; [done|]. f_equal. by apply IH.
Qed.

(** The closing pattern matches only at the end of the text: on the
    fence, with a line break before it or after it. *)
Lemma fence_close_match (ma : bool) (pos : nat) (rest : list ascii) (m : Re.rmatch_obj) :
  Re.match_at false fence_close_re ma pos rest = Some m →
  (length rest <= 4)%nat ∨ ∃ a b c d, rest = [a; b; c; d; Re.newline].
Proof.
  destruct rest as [|c1 [|c2 [|c3 [|c4 [|c5 [|c6 tl]]]]]];
    try (intros _; left; simpl; lia).
  - unfold Re.match_at, fence_close_re.
    cbn [Re.seqs fold_right Re.rmatch Re.lit Str.chars list_ascii_of_string
         Re.m_pos app Re.step_char Re.m_rest Re.m_caps Re.char_eq Re.or_else].
    intros H. right. exists c1, c2, c3, c4. do 4 f_equal.
    repeat (case_bool_decide; cbn [Re.m_rest Re.m_pos Re.m_caps] in H;
            try discriminate H); congruence.
  - unfold Re.match_at, fence_close_re.
    cbn [Re.seqs fold_right Re.rmatch Re.lit Str.chars list_ascii_of_string
         Re.m_pos app Re.step_char Re.m_rest Re.m_caps Re.char_eq Re.or_else].
    intros H. exfalso.
    repeat (case_bool_decide; cbn [Re.m_rest Re.m_pos Re.m_caps] in H;
            try discriminate H).
Qed.

Lemma fence_close_body (body : list ascii) :
  ∀ (f pos : nat), (length body < f)%nat →
    Re.sub_loop false fence_close_re f false pos
      (body ++ Re.newline :: Str.chars "```")
    = body.
Proof.
  induction body as [|c body IH]; intros f pos Hf.
  - destruct f as [|f]; [simpl in Hf; lia|].
    cbn [app Re.sub_loop].
    replace (Re.match_at false fence_close_re false pos (Re.newline :: Str.chars "```"))
      with (Some (Re.MatchObj pos (4 + pos) [] [])) by reflexivity.
    cbn [Re.mo_end Re.mo_tail]. by destruct f.
  - destruct f as [|f]; [simpl in Hf; lia|].
    cbn [app Re.sub_loop].
    destruct (Re.match_at false fence_close_re false pos
                (c :: body ++ Re.newline :: Str.chars "```")) as [m|] eqn:Hm.
    + exfalso. apply fence_close_match in Hm as [Hlen|(a & b & c' & d & Heq)].
      * simpl in Hlen. rewrite length_app in Hlen. simpl in Hlen. lia.
      * apply (f_equal (@rev ascii)) in Heq.
        change (c :: body ++ Re.newline :: Str.chars "```")
          with ((c :: body) ++ Re.newline :: Str.chars "```") in Heq.
        rewrite rev_app_distr in Heq. simpl in Heq. discriminate Heq.
    + f_equal. apply IH. simpl in Hf. lia.
Qed.

(** X21. A reply in a fence is read as its body: for a tag of word
    characters, the opening fence with its tag and line break and the
    line break and closing fence are removed, and what is parsed is the
    body, whatever it is. *)
Theorem fenced_reply_is_its_body (tag body : string) :
  forallb Str.is_word (Str.chars tag) = true →
  strip_fence (fenced tag body) = body.
Proof.
  intros Htag. unfold strip_fence, fenced.
  set (tail := Str.chars body ++ [Re.newline] ++ Str.chars "```").
  assert (Hstrip :
    Str.strip (Str.of_chars (Str.chars "```" ++ Str.chars tag ++ [Re.newline] ++ tail))
    = Str.of_chars (Str.chars "```" ++ Str.chars tag ++ [Re.newline] ++ tail)).
  { replace (Str.chars "```" ++ Str.chars tag ++ [Re.newline] ++ tail)
      with ("`"%char :: (["`"; "`"]%char ++ Str.chars tag ++ [Re.newline]
                         ++ Str.chars body ++ [Re.newline; "`"; "`"]%char) ++ ["`"%char]).
    - by apply strip_unchanged.
    - unfold tail. simpl. rewrite <- !app_assoc. simpl. rewrite <- !app_assoc. done. }
  rewrite Hstrip.
  replace (Str.startswith "```" _) with true
    by (by destruct (Str.chars tag ++ [Re.newline] ++ tail)).
  assert (Hopen :
    Re.sub_empty false fence_open_re
      (Str.of_chars (Str.chars "```" ++ Str.chars tag ++ [Re.newline] ++ tail))
    = Str.of_chars tail).
  { unfold Re.sub_empty. rewrite chars_of_chars. f_equal.
    cbn [Nat.mul Nat.add]. rewrite Nat.add_0_r.
    destruct (length _ + length _ + 2)%nat as [|f] eqn:Hf; [lia|].
    cbn [Re.sub_loop]. cbn [app] .
    rewrite (fence_open_match (Str.chars tag) tail Htag).
    cbn [Re.mo_end Re.mo_tail]. by apply fence_open_later. }
  rewrite Hopen. unfold Re.sub_empty. rewrite chars_of_chars.
  unfold tail. rewrite fence_close_body, of_chars_chars; [done|].
  rewrite !length_app. simpl. lia.
Qed.

Lemma fenced_reply_is_its_body_witness :
  strip_fence (fenced "json" "[]") = "[]".
Proof. apply (fenced_reply_is_its_body "json" "[]"). reflexivity. Defined.

(** ** Blanks around a timestamp *)

Lemma lstrip_blanks (pad l : list ascii) :
  forallb Str.is_space pad = true → Str.lstrip_chars (pad ++ l) = Str.lstrip_chars l.
Proof.
  induction pad as [|c pad IH]; simpl; [done|].
  intros [-> Hpad]%andb_true_iff. by apply IH.
Qed.

Lemma lstrip_blanks_only (pad : list ascii) :
  forallb Str.is_space pad = true → Str.lstrip_chars pad = [].
Proof.
  intros Hpad. rewrite <- (app_nil_r pad). by rewrite lstrip_blanks.
Qed.

Lemma lstrip_app (l pad : list ascii) :
  Str.lstrip_chars l ≠ [] → Str.lstrip_chars (l ++ pad) = Str.lstrip_chars l ++ pad.
Proof.
  induction l as [|c l IH]; simpl; [done|].
  destruct (Str.is_space c); [exact IH|done].
Qed.

Lemma forallb_rev {A} (p : A → bool) (l : list A) :
  forallb p l = true → forallb p (rev l) = true.
Proof.
  rewrite !forallb_forall. intros H x Hx. apply H. by apply in_rev.
Qed.

(** Blanks before and after a text are stripped with it. *)
Lemma strip_blanks (before after : list ascii) (s : string) :
  forallb Str.is_space before = true → forallb Str.is_space after = true →
  Str.strip (Str.of_chars (before ++ Str.chars s ++ after)) = Str.strip s.
Proof.
  intros Hb Ha. unfold Str.strip. rewrite list_ascii_of_string_of_list_ascii.
  f_equal. f_equal. rewrite lstrip_blanks by done.
  destruct (Str.lstrip_chars (Str.chars s)) as [|c l] eqn:Hs.
  - assert (Hall : Str.lstrip_chars (Str.chars s ++ after) = []).
    { clear -Hs Ha. induction (Str.chars s) as [|c l IH]; simpl in *.
      - by apply lstrip_blanks_only.
      - destruct (Str.is_space c); [by apply IH|done]. }
    by rewrite Hall.
  - rewrite lstrip_app by (by rewrite Hs). rewrite Hs.
    rewrite rev_app_distr. by rewrite lstrip_blanks by (by apply forallb_rev).
Qed.

(** X22. Blanks before and after a timestamp do not count: the
    timestamp parses, or fails to parse, as the bare text does. *)
Theorem parse_timestamp_ignores_blanks (strptime : string → option Z)
    (before after : list ascii) (ts : string) :
  forallb Str.is_space before = true → forallb Str.is_space after = true →
  _parse_timestamp strptime (Str.of_chars (before ++ Str.chars ts ++ after))
  = _parse_timestamp strptime ts.
Proof.
  intros Hb Ha. unfold _parse_timestamp. by rewrite strip_blanks.
Qed.

Lemma parse_timestamp_ignores_blanks_witness :
  _parse_timestamp strptime_iso
    (Str.of_chars ([" "; "009"]%char ++ Str.chars "2024-05-01 10:00:00" ++ [Re.newline]))
  = _parse_timestamp strptime_iso "2024-05-01 10:00:00".
Proof.
  apply (parse_timestamp_ignores_blanks strptime_iso); reflexivity.
Defined.

(** ** Cross-references that are found *)

Lemma dict_add_filed (k : string) (i : nat) (d : index_dict) :
  filed_under (dict_add k i d) k i.
Proof.
  induction d as [|[k' s] tl IH]; simpl.
  - exists {[ i ]}. split; [by left|by apply elem_of_singleton].
  - destruct (bool_decide_reflect (k' = k)) as [->|Hne]; simpl.
    + exists (s ∪ {[ i ]}). split; [by left|set_solver].
    + destruct IH as (s' & Hin & Hi). exists s'. split; [by right|done].
Qed.

Lemma dict_add_keeps (k k' : string) (i i' : nat) (d : index_dict) :
  filed_under d k' i' → filed_under (dict_add k i d) k' i'.
Proof.
  intros (s' & Hin & Hi). induction d as [|[k0 s] tl IH]; simpl.
  - by apply elem_of_nil in Hin.
  - apply elem_of_cons in Hin as [[= <- <-]|Hin].
    + destruct (bool_decide (k' = k)); simpl.
      * exists (s' ∪ {[ i ]}). split; [by left|set_solver].
      * exists s'. split; [by left|done].
    + destruct (bool_decide (k0 = k)); simpl.
      * exists s'. split; [by right|done].
      * destruct (IH Hin) as (s'' & Hin' & Hi'). exists s''. split; [by right|done].
Qed.

Lemma dict_add_keys (k : string) (i : nat) (d : index_dict) :
  map fst (dict_add k i d)
  = if bool_decide (k ∈ map fst d) then map fst d else map fst d ++ [k].
Proof.
  induction d as [|[k' s] tl IH]; simpl; [done|].
  destruct (bool_decide_reflect (k' = k)) as [->|Hne]; simpl.
  - rewrite bool_decide_eq_true_2; [done|]. by left.
  - rewrite IH.
    destruct (bool_decide_reflect (k ∈ map fst tl)) as [Hin|Hnin].
    + rewrite bool_decide_eq_true_2; [done|]. by right.
    + rewrite bool_decide_eq_false_2; [done|].
      intros [?|?]%elem_of_cons; congruence.
Qed.

Lemma dict_add_NoDup (k : string) (i : nat) (d : index_dict) :
  NoDup (map fst d) → NoDup (map fst (dict_add k i d)).
Proof.
  intros Hnd. rewrite dict_add_keys. case_bool_decide as Hin; [done|].
  apply NoDup_app. split; [done|].
  split; [|repeat constructor; by intros ?%elem_of_nil].
  by intros x Hx ->%list_elem_of_singleton.
Qed.

Lemma xref_step_keeps (i i' : nat) (entry : LogRecord) (d : index_dict)
    (svc k' : string) :
  filed_under d k' i' → filed_under (xref_step i entry d svc) k' i'.
Proof.
  intros H. unfold xref_step.
  destruct (negb _ && _); [|done]. by do 2 apply dict_add_keeps.
Qed.

Lemma xref_step_NoDup (i : nat) (entry : LogRecord) (d : index_dict) (svc : string) :
  NoDup (map fst d) → NoDup (map fst (xref_step i entry d svc)).
Proof.
  intros H. unfold xref_step.
  destruct (negb _ && _); [|done]. by do 2 apply dict_add_NoDup.
Qed.

Lemma xref_inner_filed (i : nat) (entry : LogRecord) (svcs : list string) (k : string) :
  ∀ d, (k ∈ xref_keys svcs entry ∨ filed_under d k i) →
       filed_under (fold_left (xref_step i entry) svcs d) k i.
Proof.
  induction svcs as [|svc tl IH]; intros d; simpl.
  - intros [H|H]; [by apply elem_of_nil in H|done].
  - intros [Hk|Hd]; apply IH.
    + apply elem_of_app in Hk as [Hk|Hk]; [|by left]. right.
      unfold xref_step.
      destruct (negb _ && _); [|by apply elem_of_nil in Hk].
      apply elem_of_cons in Hk as [->|Hk].
      * apply dict_add_keeps, dict_add_filed.
      * apply list_elem_of_singleton in Hk as ->. apply dict_add_filed.
    + right. by apply xref_step_keeps.
Qed.

Lemma xref_inner_keeps (i i' : nat) (entry : LogRecord) (svcs : list string)
    (k' : string) :
  ∀ d, filed_under d k' i' → filed_under (fold_left (xref_step i entry) svcs d) k' i'.
Proof.
  induction svcs as [|svc tl IH]; intros d Hd; simpl; [done|].
  by apply IH, xref_step_keeps.
Qed.

Lemma xref_inner_NoDup (i : nat) (entry : LogRecord) (svcs : list string) :
  ∀ d, NoDup (map fst d) → NoDup (map fst (fold_left (xref_step i entry) svcs d)).
Proof.
  induction svcs as [|svc tl IH]; intros d Hd; simpl; [done|].
  by apply IH, xref_step_NoDup.
Qed.

(** The scan files every index under every key of its record. *)
Lemma xref_scan_keeps (all_services : list string) (tl : list LogRecord) :
  ∀ i0 d k' i',
    filed_under d k' i' → filed_under (xref_scan all_services i0 tl d) k' i'.
Proof.
  induction tl as [|entry tl IH]; intros i0 d k' i' Hd; simpl; [done|].
  by apply IH, xref_inner_keeps.
Qed.

Lemma xref_scan_filed (all_services : list string) (tl : list LogRecord) (k : string) :
  ∀ i0 d j e,
    tl !! j = Some e → k ∈ xref_keys all_services e →
    filed_under (xref_scan all_services i0 tl d) k (i0 + j).
Proof.
  induction tl as [|entry tl IH]; intros i0 d j e Hj Hk; [done|].
  simpl. destruct j as [|j].
  - injection Hj as ->. rewrite Nat.add_0_r. apply xref_scan_keeps.
    apply xref_inner_filed. by left.
  - replace (i0 + S j)%nat with (S i0 + j)%nat by lia. by apply (IH _ _ _ e).
Qed.

Lemma xref_scan_NoDup (all_services : list string) (tl : list LogRecord) :
  ∀ i0 d, NoDup (map fst d) → NoDup (map fst (xref_scan all_services i0 tl d)).
Proof.
  induction tl as [|entry tl IH]; intros i0 d Hd; simpl; [done|].
  by apply IH, xref_inner_NoDup.
Qed.

Lemma omap_lookup_length {A} (l : list A) (idx : list nat) :
  Forall (λ i, is_Some (l !! i)) idx → length (omap (λ i, l !! i) idx) = length idx.
Proof.
  induction 1 as [|i idx [e He] _ IH]; [done|].
  cbn [omap list_omap]. rewrite He. simpl. by f_equal.
Qed.

Lemma cluster_at_length (entries : list LogRecord) (s : gset nat) :
  (∀ i, i ∈ s → is_Some (entries !! i)) → length (cluster_at entries s) = size s.
Proof.
  intros Hs. unfold cluster_at. rewrite omap_lookup_length.
  - unfold sorted_indices. by rewrite sort_by_length.
  - apply Forall_forall. intros i Hi. apply Hs.
    unfold sorted_indices in Hi. rewrite sort_by_perm in Hi. by apply elem_of_elements.
Qed.

(** The clusters are built from the sets in order: once something is
    seen there is a cluster, and a set of two valid indices or more
    leaves a cluster behind. *)
Lemma xref_build_nonempty (entries : list LogRecord) (sets : list (gset nat))
    (s : gset nat) :
  Forall (λ t, ∀ i, i ∈ t → is_Some (entries !! i)) sets →
  s ∈ sets → (2 <= size s)%nat →
  fst (fold_left (xref_build_step entries) sets ([], ∅)) ≠ [].
Proof.
  intros Hvalid Hs Hsize.
  assert (Hgrow : ∀ sets st, fst st ≠ [] →
            fst (fold_left (xref_build_step entries) sets st) ≠ []).
  { clear. induction sets as [|t tl IH]; intros st Hst; simpl; [done|].
    apply IH. unfold xref_build_step.
    destruct (2 <=? size (t ∖ snd st))%nat; [|done].
    destruct (2 <=? length _)%nat; [|done]. simpl. by destruct (fst st). }
  assert (Hgen : ∀ st, (snd st ≢ ∅ → fst st ≠ []) →
            fst (fold_left (xref_build_step entries) sets st) ≠ []).
  { induction Hvalid as [|t tl Ht Htl IH]; intros st Hst;
      [by apply elem_of_nil in Hs|].
    simpl. apply elem_of_cons in Hs as [->|Hs].
    - apply Hgrow. unfold xref_build_step.
      fold (cluster_at entries (t ∖ snd st)).
      rewrite (cluster_at_length entries (t ∖ snd st)) by (intros i Hi; apply Ht; set_solver).
      destruct (Nat.leb_spec 2 (size (t ∖ snd st))) as [Hbig|Hsmall].
      + simpl. by destruct (fst st).
      + apply Hst. intros Hempty.
        assert (t ∖ snd st ≡ t) by set_solver.
        assert (size (t ∖ snd st) = size t) by (by apply set_size_proper).
        lia.
    - apply (IH Hs). unfold xref_build_step.
      fold (cluster_at entries (t ∖ snd st)).
      destruct (2 <=? size (t ∖ snd st))%nat; [|done].
      destruct (2 <=? length _)%nat; [|done]. simpl.
      intros _. by destruct (fst st). }
  apply Hgen. simpl. intros H. by destruct H.
Qed.

(** X23. Cross-references are found. A record is filed under the name
    of every other service its message names and, when it names one,
    under its own service. When two records of the batch, at different
    positions, are filed under a common key, the clusterer returns a
    cluster at least. *)
Theorem cross_references_found (entries : list LogRecord) (all_services : list string)
    (i j : nat) (e1 e2 : LogRecord) (k : string) :
  i ≠ j → entries !! i = Some e1 → entries !! j = Some e2 →
  k ∈ xref_keys all_services e1 → k ∈ xref_keys all_services e2 →
  ∃ c, c ∈ _find_cross_references entries all_services.
Proof.
  intros Hij Hi Hj Hk1 Hk2.
  assert (Hne : _find_cross_references entries all_services ≠ []);
    [|destruct (_find_cross_references entries all_services) as [|c cs];
      [done|exists c; by left]].
  unfold _find_cross_references.
  pose proof (xref_scan_filed all_services entries k 0 [] i e1 Hi Hk1)
    as (s1 & Hin1 & His1).
  pose proof (xref_scan_filed all_services entries k 0 [] j e2 Hj Hk2)
    as (s2 & Hin2 & His2).
  simpl in His1, His2.
  assert (Hnd : NoDup (map fst (xref_scan all_services 0 entries [])))
    by (apply xref_scan_NoDup; constructor).
  assert (s2 = s1) by (by eapply (assoc_functional _ k)). subst s2.
  apply (xref_build_nonempty entries _ s1).
  - assert (Hgood : Forall (λ kv, referring_set entries all_services (snd kv))
                      (xref_scan all_services 0 entries [])).
    { apply xref_scan_good; [|constructor]. by intros j' e'. }
    apply Forall_map. eapply Forall_impl; [exact Hgood|].
    intros kv Hkv i' Hi'. destruct (Hkv i' Hi') as (e' & He' & _). by eexists.
  - by apply (list_elem_of_fmap_2' snd _ (k, s1)).
  - assert (Hsub : ({[ i; j ]} : gset nat) ⊆ s1) by set_solver.
    apply subseteq_size in Hsub. rewrite size_union in Hsub by set_solver.
    by rewrite !size_singleton in Hsub.
Qed.

Lemma cross_references_found_witness :
  ∃ c, c ∈ _find_cross_references
    [chain_record "api" "db timeout" 1; chain_record "web" "slow render" 2;
     chain_record "cache" "db connection lost" 3]
    ["api"; "db"; "web"; "cache"].
Proof.
  apply (cross_references_found _ _ 0 2
           (chain_record "api" "db timeout" 1)
           (chain_record "cache" "db connection lost" 3) "db").
  - lia.
  - reflexivity.
  - reflexivity.
  - vm_compute. by left.
  - vm_compute. by left.
Defined.
